(** * md-to-notion: the synchronisation engine of [src/sync-to-notion.ts]

    A shallow embedding of the retry wrapper, the chunked block appender,
    the per-page block update, the folder reconciliation with its orphan
    archival pass, and the remote page crawler, together with the
    properties the specification states about them. *)

From Stdlib Require Import ZArith Lia Ascii.
From stdpp Require Import base option list sorting strings gmap pretty.

Local Open Scope Z_scope.

(** ** Values thrown and returned *)

(** What the code inspects of a thrown value: [error.status], when the
    property is present, and a message. *)
Record error := Error { status : option Z; message : string }.

Inductive result (A : Type) : Type :=
| Ok (a : A)
| Throw (e : error).
Arguments Ok {A} a.
Arguments Throw {A} e.

(** ** Blocks

    A Notion block [{ id, type, [type]: { ...payload, children } }].
    [payload] stands for everything under [block[block.type]] except
    [children]; [children] is [block[block.type].children], absent
    ([None]) or an array. *)
#[warnings="-register-all"]
Inductive block : Type :=
  Block { id : option string;
          type : string;
          payload : string;
          children : option (list block) }.

(** ** The remote transport *)

Inductive request : Type :=
| PagesRetrieve (page_id : string)
| PagesCreate (parent_page_id title : string)
| PagesUpdateArchived (page_id : string)
| BlocksChildrenList (block_id : string)
| BlocksChildrenAppend (block_id : string) (chunk : list block)
    (after : option string)
| BlocksDelete (block_id : option string).

(** Everything a run does that is visible from outside, in order:
    calls of client methods, pauses, the read traffic of one
    [getExistingBlocks(notion, pageId, 10, 0)], and the two
    [syncStateManager] methods ([saveFileState] is passed
    [path.join(fileName === "." ? "" : fileName, ".md")]). *)
Inductive event : Type :=
| Call (r : request)
| Sleep (ms : Z)
| GetExistingBlocks (page_id : string)
| SaveFileState (fileName : string)
| SavePendingChanges.

Definition history := list event.

(** ** Asynchronous computations

    An [async A] is run after some history of events; it emits further
    events and either returns a value or throws.  The history is passed
    so that the remote side may answer differently each time. *)
Definition async (A : Type) : Type := history → list event * result A.

Definition throw {A} (e : error) : async A := λ _, ([], Throw e).
Definition emit (ev : event) : async unit := λ _, ([ev], Ok tt).

Global Instance async_ret : MRet async := λ A a _, ([], Ok a).

(** [await m] followed by the rest of the function: the continuation
    runs after the events of [m]; a throw skips it. *)
Global Instance async_bind : MBind async := λ A B k m h,
  match m h with
  | (es, Ok a) => let '(es', r) := k a (h ++ es) in (es ++ es', r)
  | (es, Throw e) => (es, Throw e)
  end.

(** [for (const x of l) { await body(x) }] *)
Fixpoint forEach {A} (body : A → async unit) (l : list A) : async unit :=
  match l with
  | [] => mret tt
  | x :: l' => body x;; forEach body l'
  end.

(** [sleep(ms)] *)
Definition sleep (ms : Z) : async unit := emit (Sleep ms).

(** [try { return await m } catch (error) { handler(error) }] *)
Definition tryCatch {A} (m : async A) (handler : error → async A) : async A :=
  λ h, match m h with
       | (es, Ok a) => (es, Ok a)
       | (es, Throw e) =>
         let '(es', r) := handler e (h ++ es) in (es ++ es', r)
       end.

(** ** [retryWithBackoff] *)

Definition MAX_RETRY_ATTEMPTS : Z := 3.
Definition INITIAL_RETRY_DELAY : Z := 1000.
Definition NOTION_BLOCK_LIMIT : nat := 100.
Definition DEFAULT_PARALLEL_LIMIT : Z := 25.
Definition DEFAULT_REQUEST_DELAY : Z := 50.

(** [error && typeof error === "object" && "status" in error &&
    (error.status === 429 || error.status === 503)] *)
Definition isRateLimit (e : error) : bool :=
  match status e with
  | Some s => (s =? 429) || (s =? 503)
  | None => false
  end.

Definition unknownError : error :=
  Error None "Unknown error occurred".

(** The [for] loop of [retryWithBackoff], entered with the loop variable
    at [attempt]; [iters] bounds the number of iterations still to run.
    Leaving the loop reaches [throw lastError || new Error(...)]. *)
Fixpoint retryLoop {A} (fn : async A) (maxAttempts initialDelay : Z)
    (iters : nat) (attempt : Z) (lastError : option error) : async A :=
  match iters with
  | O => throw (default unknownError lastError)
  | S iters' =>
    if bool_decide (attempt ≤ maxAttempts) then
      tryCatch fn (λ error,
        if bool_decide (attempt = maxAttempts) || negb (isRateLimit error)
        then throw error
        else
          let delay := initialDelay * 2 ^ (attempt - 1) in
          sleep delay;;
          retryLoop fn maxAttempts initialDelay iters' (attempt + 1)
            (Some error))
    else throw (default unknownError lastError)
  end.

Definition retryWithBackoff {A} (fn : async A)
    (maxAttempts initialDelay : Z) : async A :=
  retryLoop fn maxAttempts initialDelay (Z.to_nat maxAttempts) 1 None.

(** ** The Notion client

    Each method answers a request from the history of the run so far.
    [blocks_children_append] answers with the ids of [response.results];
    [existing_blocks] stands for what [getExistingBlocks(notion, pageId,
    10, 0)] returns, which only reads (paginated [blocks.children.list]
    calls, children attached under [block[block.type].children]).  The
    function itself is [Read.getExistingBlocks] below, and [readBlocks]
    gives the [existing_blocks] of a remote side that is read by it. *)

Record NotionPageLink := { link_id : string; link : string }.

(** One rich-text item of a title: [plain_text] and [text.content]. *)
Record RichText := { plain_text : option string; text_content : option string }.

(** A page property: its [type] and, for a title property, the [title]
    array. *)
Record Property := { prop_type : string; prop_title : option (list RichText) }.

Record GetPageResponse :=
  { object : string; page_id : string; url : string;
    properties : list Property }.

(** An item of [childrenResponse.results]: the [object], [type], [id]
    and [has_children] of a block, and what it holds under
    [block[block.type]]. *)
Record ChildBlock :=
  { child_object : string; child_type : string; child_id : string;
    child_payload : string; child_has_children : bool }.

Record Client :=
  { pages_retrieve : history → string → result GetPageResponse;
    pages_create : history → string → string → result GetPageResponse;
    pages_update_archived : history → string → result unit;
    blocks_children_list : history → string → result (list ChildBlock);
    blocks_children_append :
      history → string → list block → option string → result (list string);
    blocks_delete : history → option string → result unit;
    existing_blocks : history → string → result (list block) }.

(** One call of a client method: the request is issued, the remote side
    answers. *)
Definition notionCall {A} (r : request) (answer : history → result A)
  : async A := λ h, ([Call r], answer h).

(** JavaScript truthiness of a string that may be [undefined]/[null]. *)
Definition truthy (s : option string) : bool :=
  match s with
  | Some s => negb (bool_decide (s = ""))
  | None => false
  end.

(** ** [findMaxDepth] *)

(** [findMaxDepth(b[b.type], depth)] for a block [b]: the node
    [b[b.type]] carries [children b]. *)
Fixpoint findMaxDepthNode (b : block) (depth : Z) : Z :=
  match children b with
  | None => depth
  | Some cs =>
    foldl (λ maxDepth child,
             Z.max maxDepth (findMaxDepthNode child (depth + 1))) depth cs
  end.

(** [findMaxDepth(node, depth)] for a node with the given [children]
    property; [findMaxDepth({ children: blocks }, 0)] is
    [findMaxDepth (Some blocks) 0]. *)
Definition findMaxDepth (node : option (list block)) (depth : Z) : Z :=
  match node with
  | None => depth
  | Some cs =>
    foldl (λ maxDepth child,
             Z.max maxDepth (findMaxDepthNode child (depth + 1))) depth cs
  end.

(** ** [appendBlocksInChunks] *)

(** [block.bulleted_list_item?.children]: the property
    [bulleted_list_item] exists on blocks of that type only. *)
Definition bulletedChildren (b : block) : option (list block) :=
  if bool_decide (type b = "bulleted_list_item") then children b else None.

(** [delete block.bulleted_list_item?.children] *)
Definition deleteBulletedChildren (b : block) : block :=
  if bool_decide (type b = "bulleted_list_item")
  then Block (id b) (type b) (payload b) None
  else b.

(** [blocks.slice(i, j)] *)
Definition slice {A} (i j : nat) (l : list A) : list A :=
  take (j - i) (drop i l).

(** The values of [i] in [for (let i = 0; i < len; i += NOTION_BLOCK_LIMIT)]. *)
Definition chunkStarts (len : nat) : list nat :=
  filter (λ i, i < len)%nat ((λ k, k * NOTION_BLOCK_LIMIT)%nat <$> seq 0 len).

(** The chunk sent for a slice: with [limitChild], the children of
    bulleted list items are removed from the blocks. *)
Definition chunkOf (limitChild : bool) (sl : list block) : list block :=
  (λ b, if limitChild && bool_decide (is_Some (bulletedChildren b))
        then deleteBulletedChildren b else b) <$> sl.

(** The [children] record filled while mapping the slice: the pairs
    [(index, children[index])], by ascending index. *)
Definition detachedChildren (limitChild : bool) (sl : list block)
  : list (nat * list block) :=
  omap (λ '(index, b),
          if limitChild then (λ cs, (index, cs)) <$> bulletedChildren b
          else None)
       (imap (λ index b, (index, b)) sl).

Definition typeError : error :=
  Error None "Cannot read properties of undefined (reading 'id')".

(** How deep the blocks nest, counted as levels of [children]. *)
Fixpoint nestingOf (b : block) : nat :=
  match children b with
  | None => 0
  | Some cs => S (foldr (λ c n, Nat.max (nestingOf c) n) 0%nat cs)
  end.

Definition nesting (blocks : list block) : nat :=
  foldr (λ c n, Nat.max (nestingOf c) n) 0%nat blocks.

Section Appending.
Variable notion : Client.
Variable maxRetryAttempts : Z.

(** One turn of the loop of [appendBlocksInChunks] on the slice [sl]:
    the chunk is appended to [pageId], and the children set aside at
    [index] are passed to [followUp] with [response.results[index].id]. *)
Definition appendChunk (followUp : string → list block → async unit)
    (pageId : string) (limitChild : bool) (sl : list block)
    (afterId : option string) : async unit :=
  let children := detachedChildren limitChild sl in
  let chunk := chunkOf limitChild sl in
  response ← retryWithBackoff
    (notionCall
       (BlocksChildrenAppend pageId chunk
          (if truthy afterId then afterId else None))
       (λ h, blocks_children_append notion h pageId chunk
               (if truthy afterId then afterId else None)))
    maxRetryAttempts INITIAL_RETRY_DELAY;
  forEach (λ '(index, cs),
    match response !! index with
    | Some newId => followUp newId cs
    | None => throw typeError
    end) children.

(** [appendBlocksInChunks], with [levels] bounding how many levels of
    follow-up calls may be nested. *)
Fixpoint appendBlocksInChunksAux (levels : nat) (pageId : string)
    (blocks : list block) (afterId : option string) : async unit :=
  match levels with
  | O => mret tt
  | S levels' =>
    let limitChild := bool_decide (3 < findMaxDepth (Some blocks) 0) in
    forEach (λ i,
      appendChunk (λ newId cs, appendBlocksInChunksAux levels' newId cs None)
        pageId limitChild (slice i (i + NOTION_BLOCK_LIMIT) blocks) afterId)
      (chunkStarts (length blocks))
  end.

(** Each follow-up call receives children of the blocks of its caller,
    so [S (nesting blocks)] levels are never exhausted. *)
Definition appendBlocksInChunks (pageId : string) (blocks : list block)
    (afterId : option string) : async unit :=
  appendBlocksInChunksAux (S (nesting blocks)) pageId blocks afterId.
End Appending.

(** ** [updateBlocks] *)

(** What [mergeBlocks] asks of its caller: [appendFn(blocks, after)] or
    [deleteFn(block)]. *)
Inductive edit : Type :=
| AppendEdit (blocks : list block) (after : option block)
| DeleteEdit (b : block).

(** [Set.prototype.add]: a [Set] iterates in insertion order and holds
    each value once. *)
Definition setAdd {A} `{EqDecision A} (x : A) (s : list A) : list A :=
  if bool_decide (x ∈ s) then s else s ++ [x].

(** [{ ...firstBlock, id: undefined }] *)
Definition clearId (b : block) : block :=
  Block None (type b) (payload b) (children b).

Section Updating.
Variable notion : Client.
Variable maxRetryAttempts : Z.

(** [getExistingBlocks(notion, pageId, 10, 0)] as [updateBlocks] sees
    it: the blocks it returns, its read traffic being one event. *)
Definition getExistingBlocks (pageId : string) : async (list block) :=
  λ h, ([GetExistingBlocks pageId], existing_blocks notion h pageId).

(** What the append callback of [updateBlocks] passes to
    [appendBlocksInChunks] and leaves in [blockIdSetToDelete]:
    [(appendBlocks, afterId, blockIdSetToDelete)]. *)
Definition appendPlan (existingBlocks : list block)
    (blockIdSetToDelete : list (option string))
    (blocks : list block) (after : option block)
  : list block * option string * list (option string) :=
  let afterId := after ≫= id in
  match after, existingBlocks with
  | None, firstBlock :: _ =>
    if truthy (id firstBlock) then
      let afterId := id firstBlock in
      let appendBlocks :=
        if bool_decide (afterId ∈ blockIdSetToDelete) then blocks
        else blocks ++ [clearId firstBlock] in
      (appendBlocks, afterId, setAdd afterId blockIdSetToDelete)
    else (blocks, afterId, blockIdSetToDelete)
  | _, _ => (blocks, afterId, blockIdSetToDelete)
  end.

(** The append callback: [async (blocks, after) => { ... }]. *)
Definition appendCallback (pageId : string) (existingBlocks : list block)
    (blockIdSetToDelete : list (option string))
    (blocks : list block) (after : option block)
  : async (list (option string)) :=
  let '(appendBlocks, afterId, toDelete) :=
    appendPlan existingBlocks blockIdSetToDelete blocks after in
  appendBlocksInChunks notion maxRetryAttempts pageId appendBlocks afterId;;
  mret toDelete.

(** The delete callback: [async block => blockIdSetToDelete.add(block.id)]. *)
Definition deleteCallback (blockIdSetToDelete : list (option string))
    (b : block) : list (option string) :=
  setAdd (id b) blockIdSetToDelete.

(** [mergeBlocks] calling its two callbacks in turn; the result is
    [blockIdSetToDelete] once the merge has completed. *)
Fixpoint runEdits (pageId : string) (existingBlocks : list block)
    (edits : list edit) (blockIdSetToDelete : list (option string))
  : async (list (option string)) :=
  match edits with
  | [] => mret blockIdSetToDelete
  | AppendEdit blocks after :: edits' =>
    toDelete ← appendCallback pageId existingBlocks blockIdSetToDelete
                 blocks after;
    runEdits pageId existingBlocks edits' toDelete
  | DeleteEdit b :: edits' =>
    runEdits pageId existingBlocks edits'
      (deleteCallback blockIdSetToDelete b)
  end.

(** The closing loop of [updateBlocks]. *)
Definition deleteBlocks (blockIdSetToDelete : list (option string))
  : async unit :=
  forEach (λ blockId,
    retryWithBackoff
      (notionCall (BlocksDelete blockId)
         (λ h, blocks_delete notion h blockId))
      maxRetryAttempts INITIAL_RETRY_DELAY) blockIdSetToDelete.

(** [mergeBlocks] lives in [./merge-blocks]; [updateBlocks] is taken
    over the edits an engine emits for the two block lists. *)
Variable mergeBlocks : list block → list block → list edit.

Definition updateBlocks (pageId : string) (newBlocks : list block)
  : async unit :=
  existingBlocks ← getExistingBlocks pageId;
  toDelete ← runEdits pageId existingBlocks
               (mergeBlocks existingBlocks newBlocks) [];
  deleteBlocks toDelete.
End Updating.

(** ** The page index

    A [Map<string, NotionPageLink>]: entries in insertion order, one per
    key; [set] on a present key replaces the value in place. *)
Definition PageIndex := list (string * NotionPageLink).

Fixpoint mapGet {V} (key : string) (m : list (string * V)) : option V :=
  match m with
  | [] => None
  | (k, v) :: m' => if bool_decide (k = key) then Some v else mapGet key m'
  end.

Fixpoint mapSet {V} (key : string) (v : V) (m : list (string * V))
  : list (string * V) :=
  match m with
  | [] => [(key, v)]
  | (k, w) :: m' =>
    if bool_decide (k = key) then (k, v) :: m' else (k, w) :: mapSet key v m'
  end.

(** [commonPageKey(parentId, title)] *)
Definition commonPageKey (parentId title : string) : string :=
  parentId +:+ "/" +:+ title.

Definition newNotionPageLink (response : GetPageResponse) : NotionPageLink :=
  {| link_id := page_id response; link := url response |}.

(** ** Strings

    A JavaScript string is a sequence of UTF-16 code units; it is held
    here as the bytes of its UTF-8 encoding.  Splitting at ["/"],
    joining and comparing act on the bytes as they do on the code
    units; the length does not. *)

(** The UTF-16 code units a byte of the UTF-8 encoding accounts for: one
    for a byte that starts a character, none for a continuation byte
    [10xxxxxx], and two for the first byte [11110xxx] of a character
    beyond the basic plane, which is a surrogate pair. *)
Definition codeUnits (c : ascii) : nat :=
  match c with
  | Ascii _ _ _ _ b4 b5 b6 b7 =>
    if negb b7 then 1 else if negb b6 then 0 else if b5 && b4 then 2 else 1
  end.

(** [s.length] *)
Fixpoint jsLength (s : string) : nat :=
  match s with
  | EmptyString => 0
  | String c s' => codeUnits c + jsLength s'
  end.

(** [s.split("/")] *)
Fixpoint splitSlash (s : string) : list string :=
  match s with
  | EmptyString => [""]
  | String c s' =>
    if bool_decide (c = "/"%char) then "" :: splitSlash s'
    else match splitSlash s' with
         | p :: ps => String c p :: ps
         | [] => [String c ""]
         end
  end.

(** [parts.join("/")] *)
Fixpoint joinSlash (parts : list string) : string :=
  match parts with
  | [] => ""
  | [p] => p
  | p :: ps => p +:+ "/" +:+ joinSlash ps
  end.

(** [s.replace(/-/g, "")] *)
Fixpoint removeDashes (s : string) : string :=
  match s with
  | EmptyString => ""
  | String c s' =>
    if bool_decide (c = "-"%char) then removeDashes s'
    else String c (removeDashes s')
  end.

(** ** The local tree *)

Record MarkdownFileData :=
  { fileName : string;
    getContent : list (string * string) → list block;
    hasChanged : option bool }.

#[warnings="-register-all"]
Inductive Folder : Type :=
  MkFolder { name : string;
             files : list MarkdownFileData;
             subfolders : list Folder }.

(** ** [syncToNotion] *)

(** [entries.sort((a, b) => a[0].length - b[0].length)]: the sort is
    stable, so the result is the insertion of each entry before the first
    strictly longer key to its right. *)
Fixpoint insertByLength {V} (x : string * V) (l : list (string * V))
  : list (string * V) :=
  match l with
  | [] => [x]
  | y :: l' =>
    if bool_decide (jsLength x.1 ≤ jsLength y.1)%nat
    then x :: y :: l' else y :: insertByLength x l'
  end.

Definition sortByKeyLength {V} (entries : list (string * V))
  : list (string * V) :=
  foldr insertByLength [] entries.

(** The ancestor paths tried for a key:
    [pathParts.slice(0, i).join("/")] for [1 <= i < pathParts.length]. *)
Definition ancestorPaths (key : string) : list string :=
  let pathParts := splitSlash key in
  (λ i, joinSlash (take i pathParts)) <$> seq 1 (length pathParts - 1).

Definition hasArchivedAncestor (key : string) (archivedPages : gset string)
  : bool :=
  existsb (λ ancestorPath, bool_decide (ancestorPath ∈ archivedPages))
          (ancestorPaths key).

(** The state [syncFolder] works on: the page index, and the two
    accumulators [pages] and [folderPageIds]. *)
Record Reconciled :=
  { linkMapOf : PageIndex;
    pagesOf : list (string * MarkdownFileData);
    folderPageIdsOf : gset string }.

Section Syncing.
Variable notion : Client.
Variable maxRetryAttempts : Z.
Variable mergeBlocks : list block → list block → list edit.

(** [createOrUpdatePage]; [onUpdated] does nothing at both call sites. *)
Definition createOrUpdatePage (folderName parentId parentName : string)
    (linkMap : PageIndex) : async (string * PageIndex) :=
  let key := commonPageKey parentName folderName in
  match mapGet key linkMap with
  | Some pageLink => mret (link_id pageLink, linkMap)
  | None =>
    response ← retryWithBackoff
      (notionCall (PagesCreate parentId folderName)
         (λ h, pages_create notion h parentId folderName))
      maxRetryAttempts INITIAL_RETRY_DELAY;
    mret (page_id response,
          mapSet key (newNotionPageLink response) linkMap)
  end.

(** [syncFolder]; [dirName] is [dir.name] of the enclosing
    [syncToNotion]. *)
Fixpoint syncFolder (dirName : string) (folder : Folder)
    (parentId parentName : string) (createFolder : bool)
    (st : Reconciled) : async Reconciled :=
  '(folderPageId, linkMap1) ←
    (if createFolder
     then createOrUpdatePage (name folder) parentId parentName (linkMapOf st)
     else mret (parentId, linkMapOf st));
  let folderPageIds := {[folderPageId]} ∪ folderPageIdsOf st in
  let childParentName :=
    if bool_decide (dirName = name folder) then parentName
    else parentName +:+ "/" +:+ name folder in
  st2 ←
    (fix eachFile (fs : list MarkdownFileData) (st : Reconciled)
       : async Reconciled :=
       match fs with
       | [] => mret st
       | file :: fs' =>
         '(pageId, linkMap') ←
           createOrUpdatePage (fileName file) folderPageId childParentName
             (linkMapOf st);
         eachFile fs'
           {| linkMapOf := linkMap';
              pagesOf := pagesOf st ++ [(pageId, file)];
              folderPageIdsOf := folderPageIdsOf st |}
       end)
      (files folder)
      {| linkMapOf := linkMap1; pagesOf := pagesOf st;
         folderPageIdsOf := folderPageIds |};
  (fix eachSubfolder (subs : list Folder) (st : Reconciled)
     : async Reconciled :=
     match subs with
     | [] => mret st
     | subfolder :: subs' =>
       st' ← syncFolder dirName subfolder folderPageId childParentName
               true st;
       eachSubfolder subs' st'
     end)
    (subfolders folder) st2.

(** The loop over [pages]: unchanged files are skipped, the others
    are updated and their state is saved. *)
Definition syncPages (linkUrlMap : list (string * string))
    (syncStateManager : bool) (pages : list (string * MarkdownFileData))
  : async unit :=
  forEach (λ '(pageId, file),
    if bool_decide (hasChanged file = Some false) then mret tt
    else
      let blocks := getContent file linkUrlMap in
      updateBlocks notion maxRetryAttempts mergeBlocks pageId blocks;;
      if syncStateManager then emit (SaveFileState (fileName file))
      else mret tt) pages.

(** [archivePage] *)
Definition archivePage (pageId : string) : async unit :=
  retryWithBackoff
    (notionCall (PagesUpdateArchived pageId)
       (λ h, pages_update_archived notion h pageId))
    MAX_RETRY_ATTEMPTS INITIAL_RETRY_DELAY.

(** The loop over [sortedEntries]; the result is [archivedPages]. *)
Fixpoint archiveOrphans (pageId : string)
    (processedNotionPageIds : gset string)
    (sortedEntries : list (string * NotionPageLink))
    (archivedPages : gset string) : async (gset string) :=
  match sortedEntries with
  | [] => mret archivedPages
  | (key, pageLink) :: rest =>
    let isRootPage :=
      bool_decide (removeDashes (link_id pageLink) = removeDashes pageId) in
    if isRootPage then
      archiveOrphans pageId processedNotionPageIds rest archivedPages
    else if bool_decide (link_id pageLink ∈ processedNotionPageIds) then
      archiveOrphans pageId processedNotionPageIds rest archivedPages
    else if hasArchivedAncestor key archivedPages then
      archiveOrphans pageId processedNotionPageIds rest archivedPages
    else
      archivePage (link_id pageLink);;
      archiveOrphans pageId processedNotionPageIds rest
        ({[key]} ∪ archivedPages)
  end.

(** [syncToNotion(notion, pageId, dir, linkMap, deleteNonExistentFiles,
    syncStateManager, options)]; the result is the content of the
    shared [linkMap] when the run ends. *)
Definition syncToNotion (pageId : string) (dir : Folder)
    (linkMap : PageIndex) (deleteNonExistentFiles : bool)
    (syncStateManager : bool) : async PageIndex :=
  st ← syncFolder (name dir) dir pageId "." false
         {| linkMapOf := linkMap; pagesOf := []; folderPageIdsOf := ∅ |};
  let linkUrlMap := (λ '(key, value), (key, link value)) <$> linkMapOf st in
  syncPages linkUrlMap syncStateManager (pagesOf st);;
  (if syncStateManager then emit SavePendingChanges else mret tt);;
  let processedNotionPageIds : gset string :=
    list_to_set (pagesOf st).*1 ∪ folderPageIdsOf st in
  (if deleteNonExistentFiles then
     archiveOrphans pageId processedNotionPageIds
       (sortByKeyLength (linkMapOf st)) ∅;; mret tt
   else mret tt);;
  mret (linkMapOf st).
End Syncing.

(** ** [collectCurrentFiles]

    The crawl runs as interleaved tasks, one per call of
    [processPageParallel] that passed its guard.  A task is suspended
    either on [Promise.all] of its two requests or inside the loop over
    [childPageIds]; which task resumes next is up to the event loop, so
    the crawl is a transition system driven by a schedule.  The first
    attempt of the two requests of a page is sent by the call of
    [processPageParallel] itself; [past] lists the requests of a page,
    with their retries, at the resumption that takes up their answers,
    so across tasks it gives the order of the answers, not of the
    sending. *)

(** [getPageTitle] *)

(** [new Error(`No title found. Please set a title for the page
    ${pageResponse.url} and try again.`)] *)
Definition noTitleError (pageResponse : GetPageResponse) : error :=
  Error None
    ("No title found. Please set a title for the page "
     +:+ url pageResponse +:+ " and try again.").

Definition getPageTitle (pageResponse : GetPageResponse) : result string :=
  match list_find (λ prop, prop_type prop = "title") (properties pageResponse)
  with
  | Some (_, prop) =>
    match prop_title prop with
    | Some (first :: _) =>
      let title :=
        if truthy (plain_text first) then plain_text first
        else text_content first in
      match title with
      | Some t =>
        if truthy title then Ok t else Throw (noTitleError pageResponse)
      | None => Throw (noTitleError pageResponse)
      end
    | _ => Throw (noTitleError pageResponse)
    end
  | None => Throw (noTitleError pageResponse)
  end.

(** The ids pushed to [childPageIds]. *)
Definition childPageIdsOf (results : list ChildBlock) : list string :=
  child_id <$>
    filter (λ child, child_object child = "block"
                     ∧ child_type child = "child_page") results.

Module Collect.

Inductive task : Type :=
| Fetching (pageId parentTitle : string) (depth : Z)
| Dispatching (newParentTitle : string) (depth : Z)
    (childPageIds : list string).

(** The variables of [collectCurrentFiles] shared by all tasks, the
    events so far, whether some task has rejected, and three logs kept
    for the statements: [started] lists the arguments
    [(pageId, depth)] of every call that passed the guard, [fetched]
    those whose two requests have been answered, and [registered] every
    [linkMap.set] with the [pageId] and [depth] of the task that made
    it. *)
Record state :=
  { linkMap : PageIndex;
    processedIds : gset string;
    pendingTasks : list task;
    processedCount : Z;
    discoveredCount : Z;
    past : history;
    rejected : option error;
    started : list (string * Z);
    fetched : list (string * Z);
    registered : list (string * Z * (string * NotionPageLink)) }.

(** A resumption picked by the event loop: task [i] of [pendingTasks]
    continues, or its [await Promise.race(pendingTasks)] rejects. *)
Inductive move : Type :=
| Resume (i : nat)
| RaceRejects (i : nat).

Section Crawl.
Variable notion : Client.
Variable rootPageId : string.
Variables parallelLimit requestDelay maxRetryAttempts : Z.
(** [None] is [Infinity]. *)
Variable maxDepth : option Z.

(** [depth > maxDepth] *)
Definition tooDeep (depth : Z) : bool :=
  match maxDepth with
  | Some m => bool_decide (m < depth)
  | None => false
  end.

(** A call of [processPageParallel], up to its first [await]: the
    guard, and [processedIds.add(pageId)].  A call stopped by the
    guard returns a settled promise and leaves no task. *)
Definition processPageParallel (pageId parentTitle : string) (depth : Z)
    (s : state) : state :=
  if bool_decide (pageId ∈ processedIds s) || tooDeep depth then s
  else
    {| linkMap := linkMap s;
       processedIds := {[pageId]} ∪ processedIds s;
       pendingTasks := pendingTasks s ++ [Fetching pageId parentTitle depth];
       processedCount := processedCount s;
       discoveredCount := discoveredCount s;
       past := past s;
       rejected := rejected s;
       started := started s ++ [(pageId, depth)];
       fetched := fetched s;
       registered := registered s |}.

(** [Promise.all] of the two retried requests of a page; the events
    of the first are listed before those of the second. *)
Definition fetchPage (pageId : string)
  : async (GetPageResponse * list ChildBlock) :=
  λ h,
    let '(es1, r1) :=
      retryWithBackoff
        (notionCall (PagesRetrieve pageId)
           (λ h, pages_retrieve notion h pageId))
        maxRetryAttempts INITIAL_RETRY_DELAY h in
    let '(es2, r2) :=
      retryWithBackoff
        (notionCall (BlocksChildrenList pageId)
           (λ h, blocks_children_list notion h pageId))
        maxRetryAttempts INITIAL_RETRY_DELAY (h ++ es1) in
    (es1 ++ es2,
     match r1, r2 with
     | Ok pageResponse, Ok childrenResponse =>
       Ok (pageResponse, childrenResponse)
     | Throw e, _ => Throw e
     | _, Throw e => Throw e
     end).

(** Task [i] settles: it leaves [pendingTasks], [processedCount] is
    incremented, and a rejection is recorded. *)
Definition settle (i : nat) (es : list event) (failure : option error)
    (s : state) : state :=
  {| linkMap := linkMap s;
     processedIds := processedIds s;
     pendingTasks := delete i (pendingTasks s);
     processedCount := processedCount s + 1;
     discoveredCount := discoveredCount s;
     past := past s ++ es;
     rejected := if failure is Some e then Some e else rejected s;
     started := started s;
     fetched := fetched s;
     registered := registered s |}.

(** Task [i] resumes after [Promise.all] with the two answers. *)
Definition afterFetch (i : nat) (pageId parentTitle : string) (depth : Z)
    (s : state) : state :=
  let '(es, r) := fetchPage pageId (past s) in
  let s :=
    {| linkMap := linkMap s;
       processedIds := processedIds s;
       pendingTasks := pendingTasks s;
       processedCount := processedCount s;
       discoveredCount := discoveredCount s;
       past := past s;
       rejected := rejected s;
       started := started s;
       fetched := fetched s ++ [(pageId, depth)];
       registered := registered s |} in
  match r with
  | Throw e => settle i es (Some e) s
  | Ok (pageResponse, childrenResponse) =>
    if negb (bool_decide (object pageResponse = "page"))
    then settle i es None s
    else
      match getPageTitle pageResponse with
      | Throw e => settle i es (Some e) s
      | Ok pageTitle =>
        let entry := (commonPageKey parentTitle pageTitle,
                      newNotionPageLink pageResponse) in
        let newParentTitle :=
          if bool_decide (pageId = rootPageId) then "."
          else parentTitle +:+ "/" +:+ pageTitle in
        let childPageIds := childPageIdsOf childrenResponse in
        {| linkMap := mapSet entry.1 entry.2 (linkMap s);
           processedIds := processedIds s;
           pendingTasks :=
             <[i := Dispatching newParentTitle depth childPageIds]>
               (pendingTasks s);
           processedCount := processedCount s;
           discoveredCount :=
             discoveredCount s + Z.of_nat (length childPageIds);
           past := past s ++ es;
           rejected := rejected s;
           started := started s;
           fetched := fetched s;
           registered := registered s ++ [(pageId, depth, entry)] |}
      end
  end.

(** One iteration of the loop over [childPageIds] by task [i]:
    possible once [pendingTasks.size < parallelLimit]. *)
Definition dispatch (i : nat) (newParentTitle : string) (depth : Z)
    (childId : string) (rest : list string) (s : state) : option state :=
  if bool_decide (parallelLimit ≤ Z.of_nat (length (pendingTasks s)))
  then None
  else
    let es := if bool_decide (0 < requestDelay)
              then [Sleep requestDelay] else [] in
    let s :=
      {| linkMap := linkMap s;
         processedIds := processedIds s;
         pendingTasks :=
           <[i := Dispatching newParentTitle depth rest]> (pendingTasks s);
         processedCount := processedCount s;
         discoveredCount := discoveredCount s;
         past := past s ++ es;
         rejected := rejected s;
         started := started s;
         fetched := fetched s;
         registered := registered s |} in
    Some (processPageParallel childId newParentTitle (depth + 1) s).

Definition step (m : move) (s : state) : option state :=
  match m with
  | Resume i =>
    match pendingTasks s !! i with
    | Some (Fetching pageId parentTitle depth) =>
      Some (afterFetch i pageId parentTitle depth s)
    | Some (Dispatching newParentTitle depth []) =>
      Some (settle i [] None s)
    | Some (Dispatching newParentTitle depth (childId :: rest)) =>
      dispatch i newParentTitle depth childId rest s
    | None => None
    end
  | RaceRejects i =>
    match pendingTasks s !! i, rejected s with
    | Some (Dispatching _ _ (_ :: _)), Some e => Some (settle i [] (Some e) s)
    | _, _ => None
    end
  end.

Fixpoint run (schedule : list move) (s : state) : option state :=
  match schedule with
  | [] => Some s
  | m :: schedule' => s' ← step m s; run schedule' s'
  end.

(** [processPageParallel(rootPageId, ".", 0)] on the fresh variables. *)
Definition start : state :=
  processPageParallel rootPageId "." 0
    {| linkMap := []; processedIds := ∅; pendingTasks := [];
       processedCount := 0; discoveredCount := 1; past := [];
       rejected := None; started := []; fetched := [];
       registered := [] |}.

(** The content of the [linkMap] that [collectCurrentFiles] hands
    out, after the given resumptions. *)
Definition collectCurrentFiles (schedule : list move)
  : option PageIndex :=
  linkMap <$> run schedule start.

(** [atDepth pageId depth]: the page is reached from the root page
    through [depth] listings of child pages. *)
Inductive atDepth : string → Z → Prop :=
| atDepth_root : atDepth rootPageId 0
| atDepth_child parent depth h results child :
    atDepth parent depth →
    blocks_children_list notion h parent = Ok results →
    child ∈ childPageIdsOf results →
    atDepth child (depth + 1).

(** The calls whose two requests are still awaited. *)
Definition fetchingOf (tasks : list task) : list (string * Z) :=
  omap (λ t, match t with
             | Fetching pageId _ depth => Some (pageId, depth)
             | Dispatching _ _ _ => None
             end) tasks.

(** What holds of every state the crawl reaches. *)
Record invariant (s : state) : Prop :=
  { inv_started :
      ∀ pageId depth, (pageId, depth) ∈ started s →
        tooDeep depth = false ∧ atDepth pageId depth;
    inv_processed :
      ∀ pageId, pageId ∈ processedIds s ↔ pageId ∈ (started s).*1;
    inv_once : NoDup (started s).*1;
    inv_fetching : started s ≡ₚ fetched s ++ fetchingOf (pendingTasks s);
    inv_dispatching :
      ∀ newParentTitle depth childPageIds,
        Dispatching newParentTitle depth childPageIds ∈ pendingTasks s →
        ∀ childId, childId ∈ childPageIds → atDepth childId (depth + 1);
    inv_registered : sublist (registered s).*1 (fetched s);
    inv_linkMap : ∀ entry, entry ∈ linkMap s → entry ∈ (registered s).*2;
    inv_past :
      ∀ ev, ev ∈ past s →
        (∃ ms, ev = Sleep ms)
        ∨ ∃ pageId depth, (pageId, depth) ∈ fetched s
            ∧ (ev = Call (PagesRetrieve pageId)
               ∨ ev = Call (BlocksChildrenList pageId));
    inv_answers :
      ∀ pageId depth entry, (pageId, depth, entry) ∈ registered s →
        ∃ h pageResponse,
          pages_retrieve notion h pageId = Ok pageResponse
          ∧ entry.2 = newNotionPageLink pageResponse }.

(** Every child page still to be dispatched is in [universe]. *)
Definition listedIn (universe : gset string) (s : state) : Prop :=
  ∀ newParentTitle depth childPageIds,
    Dispatching newParentTitle depth childPageIds ∈ pendingTasks s →
    ∀ childId, childId ∈ childPageIds → childId ∈ universe.

(** The work left, when every listed child page is in [universe] and
    no listing has more than [maxChildren] child pages: the pages not
    yet visited, and what the pending tasks still have to do. *)
Definition weight (maxChildren : nat) (t : task) : nat :=
  match t with
  | Fetching _ _ _ => maxChildren + 2
  | Dispatching _ _ childPageIds => length childPageIds + 1
  end.

Definition remaining (universe : gset string) (maxChildren : nat)
    (s : state) : nat :=
  size (universe ∖ processedIds s) * (maxChildren + 3)
  + sum_list_with (weight maxChildren) (pendingTasks s).
End Crawl.
End Collect.

(** A remote side of two pages that list each other as child page. *)
Definition cyclicClient : Client :=
  let page (pageId : string) :=
    {| object := "page"; page_id := pageId; url := "";
       properties :=
         [{| prop_type := "title";
             prop_title := Some [{| plain_text := Some ("Page " +:+ pageId);
                                    text_content := None |}] |}] |} in
  let child (pageId : string) :=
    {| child_object := "block"; child_type := "child_page";
       child_id := pageId;
       child_payload := ""; child_has_children := false |} in
  {| pages_retrieve := λ _ pageId, Ok (page pageId);
     pages_create := λ _ _ title, Ok (page title);
     pages_update_archived := λ _ _, Ok tt;
     blocks_children_list := λ _ pageId,
       Ok [child (if bool_decide (pageId = "r") then "a" else "r")];
     blocks_children_append := λ _ _ _ _, Ok [];
     blocks_delete := λ _ _, Ok tt;
     existing_blocks := λ _ _, Ok [] |}.

(** ** The Block Merge Engine *)

(** [block[block.type].children], an absent property read as no
    children. *)
Definition childrenOf (b : block) : list block := default [] (children b).

(** Modelled from the spec: content equality of two blocks (section
    4.3), on type and payload, ignoring the generated identity and, at the top level of the comparison, the
    nested children. *)
Definition sameContent (a b : block) : bool :=
  bool_decide (type a = type b) && bool_decide (payload a = payload b).

(** Modelled from the spec: two block lists are content-equal when they
    agree pairwise, at every level of nesting. *)
Fixpoint sameTree (a b : block) : bool :=
  sameContent a b &&
  match children a with
  | Some cs =>
    (fix sameTrees (cs ds : list block) : bool :=
       match cs, ds with
       | [], [] => true
       | c :: cs', d :: ds' => sameTree c d && sameTrees cs' ds'
       | _, _ => false
       end) cs (childrenOf b)
  | None => bool_decide (childrenOf b = [])
  end.

Fixpoint sameTrees (cs ds : list block) : bool :=
  match cs, ds with
  | [] , [] => true
  | c :: cs', d :: ds' => sameTree c d && sameTrees cs' ds'
  | _, _ => false
  end.

(** The number of blocks of a tree. *)
Fixpoint blockSize (b : block) : nat :=
  S (match children b with
     | None => 0
     | Some cs => foldr (λ c n, blockSize c + n)%nat 0%nat cs
     end).

Definition blocksSize (bs : list block) : nat :=
  foldr (λ c n, blockSize c + n)%nat 0%nat bs.

(** Modelled from the spec: the position of the first block of [l]
    content-equal to [b]. *)
Definition findSame (b : block) (l : list block) : option nat :=
  fst <$> list_find (λ x, sameContent x b = true) l.

(** Modelled from the spec: the walk of the merge engine over the two
    lists, [last] being the last matched block; [fuel] bounds the number
    of nested calls. *)
Fixpoint mergeWalk (fuel : nat) (existing desired : list block)
    (last : option block) : option (list edit) :=
  match fuel with
  | O => None
  | S fuel' =>
    match existing, desired with
    | [], [] => Some []
    | [], _ :: _ => Some [AppendEdit desired last]
    | _ :: _, [] => Some (DeleteEdit <$> existing)
    | e :: es, d :: ds =>
      let skipExisting i :=
        rest ← mergeWalk fuel' (drop (S i) existing) desired last;
        Some ((DeleteEdit <$> take (S i) existing) ++ rest) in
      let skipDesired j :=
        rest ← mergeWalk fuel' existing (drop (S j) desired) last;
        Some (AppendEdit (take (S j) desired) last :: rest) in
      if sameContent e d then
        inner ← mergeWalk fuel' (childrenOf e) (childrenOf d) None;
        rest ← mergeWalk fuel' es ds (Some e);
        Some (inner ++ rest)
      else
        match findSame d es, findSame e ds with
        | Some i, Some j =>
          if bool_decide (i ≤ j)%nat then skipExisting i else skipDesired j
        | Some i, None => skipExisting i
        | None, Some j => skipDesired j
        | None, None =>
          Some (AppendEdit desired last :: (DeleteEdit <$> existing))
        end
    end
  end.

(** Modelled from the spec: [mergeBlocks] of [./merge-blocks], the Block
    Merge Engine of section 4.3, whose source is not part of the
    repository files at hand.  The two lists are walked in parallel and
    compared pairwise by content equality; matching blocks are left
    untouched and their children are merged recursively; where the lists
    diverge, the nearer of the two next matching blocks decides the cut:
    the existing blocks before it are scheduled for deletion, or the
    desired blocks before it are appended after the last matched block
    (at the head when there is none); without a further match the
    remaining desired blocks are appended and the remaining existing
    blocks deleted. *)
Definition mergeBlocks (existingBlocks newBlocks : list block) : list edit :=
  default []
    (mergeWalk (S (blocksSize existingBlocks + blocksSize newBlocks))
       existingBlocks newBlocks None).

(** All the files of a local tree. *)
Fixpoint filesOf (folder : Folder) : list MarkdownFileData :=
  files folder ++
  (fix each (subs : list Folder) : list MarkdownFileData :=
     match subs with
     | [] => []
     | sub :: subs' => filesOf sub ++ each subs'
     end) (subfolders folder).

(** ** Reading a run *)

Definition isAppendCall (ev : event) : bool :=
  match ev with Call (BlocksChildrenAppend _ _ _) => true | _ => false end.

Definition isDeleteCall (ev : event) : bool :=
  match ev with Call (BlocksDelete _) => true | _ => false end.

Definition isArchiveCall (ev : event) : bool :=
  match ev with Call (PagesUpdateArchived _) => true | _ => false end.

(** The trace of [n] invocations of an operation that emits [Call r]
    each time, with the pauses of the backoff in between. *)
Definition backoffTrace (r : request) (initialDelay : Z) (n : nat)
  : list event :=
  match n with
  | O => []
  | S n' =>
    Call r ::
    flat_map (λ attempt : nat,
                [Sleep (initialDelay * 2 ^ (Z.of_nat attempt - 1)); Call r])
             (seq 1 n')
  end.

(** The history after [k] failed invocations of [fn], each followed by
    its pause, when the invocation numbered [attempt] starts at [h]. *)
Fixpoint attemptHistory {A} (fn : async A) (initialDelay : Z)
    (attempt : Z) (h : history) (k : nat) : history :=
  match k with
  | O => h
  | S k' =>
    attemptHistory fn initialDelay (attempt + 1)
      ((h ++ (fn h).1) ++ [Sleep (initialDelay * 2 ^ (attempt - 1))]) k'
  end.

(** Every event a computation emits, after whatever history, satisfies
    [P]. *)
Definition emits {A} (P : event → Prop) (m : async A) : Prop :=
  ∀ h, Forall P (m h).1.


(** An entry of the page index that the archival pass may archive: its
    page is not the root page and was not touched during the run. *)
Definition orphan (pageId : string) (processedNotionPageIds : gset string)
    (entry : string * NotionPageLink) : Prop :=
  removeDashes (link_id entry.2) ≠ removeDashes pageId
  ∧ link_id entry.2 ∉ processedNotionPageIds.

Global Instance orphan_dec pageId processed entry :
  Decision (orphan pageId processed entry).
Proof. unfold orphan. apply _. Defined.

(** The order the archival pass sorts by. *)
Definition byKeyLength {V} (x y : string * V) : Prop :=
  (jsLength x.1 ≤ jsLength y.1)%nat.

(** An orphan of the page index that no orphan lies above: none of its
    ancestor paths is the key of an orphan among [entries]. *)
Definition topOrphan (pageId : string) (processedNotionPageIds : gset string)
    (entries : PageIndex) (entry : string * NotionPageLink) : Prop :=
  orphan pageId processedNotionPageIds entry
  ∧ Forall (λ anc,
      Forall (λ above : string * NotionPageLink,
                above.1 = anc →
                ¬ orphan pageId processedNotionPageIds above) entries)
      (ancestorPaths entry.1).

Global Instance topOrphan_dec pageId processed entries entry :
  Decision (topOrphan pageId processed entries entry).
Proof. unfold topOrphan. apply _. Defined.

(** An event that is not an archive call on the root page, ids being
    compared without their dashes. *)
Definition sparesRootPage (pageId : string) (ev : event) : Prop :=
  ∀ archived, ev = Call (PagesUpdateArchived archived) →
    removeDashes archived ≠ removeDashes pageId.

(** ** Sample data *)

(** A remote side that accepts every request; an append answers with
    one id per block, derived from the text of the block. *)
Definition quietClient : Client :=
  {| pages_retrieve := λ _ pageId,
       Ok {| object := "page"; page_id := pageId; url := "";
             properties := [] |};
     pages_create := λ _ parent title,
       Ok {| object := "page"; page_id := title; url := "";
             properties := [] |};
     pages_update_archived := λ _ _, Ok tt;
     blocks_children_list := λ _ _, Ok [];
     blocks_children_append := λ _ _ chunk _,
       Ok ((λ b, "id of " +:+ payload b) <$> chunk);
     blocks_delete := λ _ _, Ok tt;
     existing_blocks := λ _ _, Ok [] |}.

Definition bulleted (text : string) (cs : option (list block)) : block :=
  Block None "bulleted_list_item" text cs.



(** A remote side like [quietClient] on which every page holds one
    paragraph. *)
Definition settledClient : Client :=
  {| pages_retrieve := pages_retrieve quietClient;
     pages_create := pages_create quietClient;
     pages_update_archived := pages_update_archived quietClient;
     blocks_children_list := blocks_children_list quietClient;
     blocks_children_append := blocks_children_append quietClient;
     blocks_delete := blocks_delete quietClient;
     existing_blocks := λ _ pageId,
       Ok [Block (Some ("block of " +:+ pageId)) "paragraph" "text" None] |}.

(** A local tree of one file holding that paragraph, not known to be
    unchanged. *)
Definition sampleDir : Folder :=
  MkFolder "." [{| fileName := "notes";
                   getContent := λ _, [Block None "paragraph" "text" None];
                   hasChanged := None |}] [].

(** ** [archiveChildPages] *)

(** [archiveChildPages(notion, pageId)]: the child pages among the
    first listing of the page are archived in turn. *)
Definition archiveChildPages (notion : Client) (pageId : string)
  : async unit :=
  childrenResponse ← retryWithBackoff
    (notionCall (BlocksChildrenList pageId)
       (λ h, blocks_children_list notion h pageId))
    MAX_RETRY_ATTEMPTS INITIAL_RETRY_DELAY;
  forEach (archivePage notion) (childPageIdsOf childrenResponse).

(** ** [getAllBlockPages] *)

(** A [ListBlockChildrenResponse]: one page of a listing. *)
Record ListBlockChildrenResponse :=
  { results : list ChildBlock;
    has_more : bool;
    next_cursor : option string }.

(** [response.results.filter(isBlockObjectResponse)] *)
Definition blockObjects (response : ListBlockChildrenResponse)
  : list ChildBlock :=
  filter (λ child, child_object child = "block") (results response).

(** [response.has_more ? response.next_cursor ?? undefined : undefined] *)
Definition cursorAfter (response : ListBlockChildrenResponse)
  : option string :=
  if has_more response then next_cursor response else None.

(** [await Promise.all(ms)] for computations started in the order of
    [ms]: the events of each are listed before those of the next, and
    the rejection of the first that rejects is thrown. *)
Fixpoint promiseAll {A} (ms : list (async A)) : async (list A) :=
  match ms with
  | [] => mret []
  | m :: ms' => λ h,
    let '(es1, r1) := m h in
    let '(es2, r2) := promiseAll ms' (h ++ es1) in
    (es1 ++ es2,
     match r1, r2 with
     | Ok a, Ok l => Ok (a :: l)
     | Throw e, _ => Throw e
     | _, Throw e => Throw e
     end)
  end.

Section Paging.
(** [notion.blocks.children.list({ block_id, start_cursor })] as the
    remote side answers it after a history. *)
Variable blocks_children_list_from :
  history → string → option string → result ListBlockChildrenResponse.
Variable maxRetryAttempts : Z.

(** One retried request for the page of the listing at [start_cursor]. *)
Definition listFrom (pageId : string) (start_cursor : option string)
  : async ListBlockChildrenResponse :=
  retryWithBackoff
    (notionCall (BlocksChildrenList pageId)
       (λ h, blocks_children_list_from h pageId start_cursor))
    maxRetryAttempts INITIAL_RETRY_DELAY.

(** The [do { ... } while (cursor)] loop of [getAllBlockPages], a turn
    starting with the given [cursor], [allBlocks] and [pageRequests];
    the result is [(allBlocks, pageRequests)] when the loop is left.
    [turns] bounds the number of turns: [None] says that the loop is
    still running after them. *)
Fixpoint discoverPages (turns : nat) (pageId : string)
    (cursor : option string) (allBlocks : list ChildBlock)
    (pageRequests : list (option string))
  : async (option (list ChildBlock * list (option string))) :=
  match turns with
  | O => mret None
  | S turns' =>
    response ← listFrom pageId cursor;
    let allBlocks := allBlocks ++ blockObjects response in
    let cursor := cursorAfter response in
    if truthy cursor
    then discoverPages turns' pageId cursor allBlocks (pageRequests ++ [cursor])
    else mret (Some (allBlocks, pageRequests))
  end.

(** [getAllBlockPages(notion, pageId)], its loop bounded by [turns]. *)
Definition getAllBlockPages (turns : nat) (pageId : string)
  : async (option (list ChildBlock)) :=
  discovered ← discoverPages turns pageId None [] [None];
  match discovered with
  | None => mret None
  | Some (allBlocks, pageRequests) =>
    if bool_decide (length pageRequests ≤ 1)%nat then mret (Some allBlocks)
    else
      remainingBlocks ← promiseAll
        ((λ pageCursor,
            response ← listFrom pageId pageCursor;
            mret (blockObjects response)) <$> drop 1 pageRequests);
      mret (Some (allBlocks ++ concat remainingBlocks))
  end.

(** The remote side holds the listing of [pageId] as the pages
    [responses], the first one served at [cursor] and each of the others
    at the cursor its predecessor hands out; the last one hands out
    none. *)
Fixpoint servesPages (pageId : string) (cursor : option string)
    (responses : list ListBlockChildrenResponse) : Prop :=
  match responses with
  | [] => False
  | response :: rest =>
    (∀ h, blocks_children_list_from h pageId cursor = Ok response)
    ∧ match rest with
      | [] => truthy (cursorAfter response) = false
      | _ :: _ =>
        truthy (cursorAfter response) = true
        ∧ servesPages pageId (cursorAfter response) rest
      end
  end.
End Paging.

(** ** The loops of [syncFolder] *)

Section Loops.
Variable notion : Client.
Variable maxRetryAttempts : Z.
Variables dirName folderPageId childParentName : string.

(** The loop over [folder.files] in [syncFolder]. *)
Fixpoint syncFiles (fs : list MarkdownFileData) (st : Reconciled)
  : async Reconciled :=
  match fs with
  | [] => mret st
  | file :: fs' =>
    '(pageId, linkMap') ←
      createOrUpdatePage notion maxRetryAttempts (fileName file)
        folderPageId childParentName (linkMapOf st);
    syncFiles fs'
      {| linkMapOf := linkMap';
         pagesOf := pagesOf st ++ [(pageId, file)];
         folderPageIdsOf := folderPageIdsOf st |}
  end.

(** The loop over [folder.subfolders] in [syncFolder]. *)
Fixpoint syncSubfolders (subs : list Folder) (st : Reconciled)
  : async Reconciled :=
  match subs with
  | [] => mret st
  | subfolder :: subs' =>
    st' ← syncFolder notion maxRetryAttempts dirName subfolder folderPageId
            childParentName true st;
    syncSubfolders subs' st'
  end.
End Loops.

(** ** [readMarkdownFiles]

    What [walk] sees of the file system below [dirPath]: the entries of
    a directory in the order of [fs.readdirSync], each with what
    [fs.statSync] says of it.  Following symbolic links never leads
    back into a directory being read. *)
#[warnings="-register-all"]
Inductive Dirent : Type :=
| RegularFile (entry_name : string) (content : result string)
  (** [stats.isFile()]; [content] is the outcome of
      [matter(fs.readFileSync(entryPath, "utf-8")).content] *)
| Directory (entry_name : string) (entries : result (list Dirent))
  (** [stats.isDirectory()]; [entries] is the outcome of
      [fs.readdirSync(entryPath, { withFileTypes: true })] *)
| OtherEntry (entry_name : string)
  (** neither a file nor a directory *)
| BrokenEntry (entry_name : string)
  (** [fs.statSync(entryPath)] throws *).

Definition entryName (entry : Dirent) : string :=
  match entry with
  | RegularFile entry_name _ | Directory entry_name _
  | OtherEntry entry_name | BrokenEntry entry_name => entry_name
  end.

(** [s.endsWith(suffix)], read on the bytes: the suffixes used are
    ASCII. *)
Definition endsWith (s suffix : string) : bool :=
  bool_decide (String.length suffix ≤ String.length s)%nat
  && bool_decide
       (String.substring (String.length s - String.length suffix)
          (String.length suffix) s = suffix).

(** [path.basename(name, ".md")] for a [name] that ends with [".md"]. *)
Definition withoutMd (entry_name : string) : string :=
  String.substring 0 (String.length entry_name - 3) entry_name.

Section Reading.
(** [shouldIgnorePath(normalizedPath, ignorePatterns)] *)
Variable shouldIgnorePath : string → bool.
(** The [filter] argument. *)
Variable pathFilter : string → bool.
(** [syncStateManager.hasFileChanged], when a [syncStateManager] is
    given. *)
Variable hasFileChanged : option (string → string → bool).
(** The blocks of a file, from its content, its path from the root and
    the link map: [markdownToBlocks(removeMarkdownLinks(
    replaceInternalMarkdownLinks(content, linkMap, pathFromRoot,
    replacer)))]. *)
Variable toBlocks : string → string → list (string * string) → list block.

(** [folder.files.length > 0 || folder.subfolders.length > 0 ? folder
    : null]; [None] is [null]. *)
Definition unlessEmpty (folder : Folder) : option Folder :=
  if bool_decide (files folder ≠ [] ∨ subfolders folder ≠ [])
  then Some folder else None.

(** One turn of the loop of [walk] over the entries of a directory:
    [prefix] is the path of the directory from the root, followed by a
    slash (empty for the root itself), and [folder] the folder being
    filled.  For a directory the turn holds the call [walk(entryPath)],
    that is the loop over the entries below it into a fresh folder
    named after it. *)
Fixpoint visit (prefix : string) (entry : Dirent) (folder : Folder)
    {struct entry} : result Folder :=
  let pathFromRoot := prefix +:+ entryName entry in
  let normalizedPath := "./" +:+ pathFromRoot in
  if shouldIgnorePath normalizedPath then Ok folder
  else if negb (pathFilter normalizedPath) then Ok folder
  else
    match entry with
    | BrokenEntry _ | OtherEntry _ => Ok folder
    | Directory entry_name (Throw e) => Throw e
    | Directory entry_name (Ok below) =>
      match
        (fix eachEntry (entries : list Dirent) (folder : Folder)
           : result Folder :=
           match entries with
           | [] => Ok folder
           | entry :: entries' =>
             match visit (pathFromRoot +:+ "/") entry folder with
             | Throw e => Throw e
             | Ok folder' => eachEntry entries' folder'
             end
           end) below (MkFolder entry_name [] [])
      with
      | Throw e => Throw e
      | Ok below =>
        match unlessEmpty below with
        | None => Ok folder
        | Some subfolder =>
          Ok (MkFolder (name folder) (files folder)
                (subfolders folder ++ [subfolder]))
        end
      end
    | RegularFile entry_name content =>
      if endsWith entry_name ".md" then
        match content with
        | Throw e => Throw e
        | Ok content =>
          let hasChanged :=
            match hasFileChanged with
            | Some changed => changed pathFromRoot content
            | None => true
            end in
          Ok (MkFolder (name folder)
                (files folder
                 ++ [{| fileName := withoutMd entry_name;
                        getContent := toBlocks content pathFromRoot;
                        hasChanged := Some hasChanged |}])
                (subfolders folder))
        end
      else Ok folder
    end.

Section Entries.
Variable prefix : string.

(** The loop [for (const entry of entries)] of [walk]. *)
Fixpoint eachEntry (entries : list Dirent) (folder : Folder)
  : result Folder :=
  match entries with
  | [] => Ok folder
  | entry :: entries' =>
    match visit prefix entry folder with
    | Throw e => Throw e
    | Ok folder' => eachEntry entries' folder'
    end
  end.
End Entries.

(** [walk(currentPath)] on a directory with the given [entries], named
    [folderName] in the result. *)
Definition walk (folderName prefix : string) (entries : list Dirent)
  : result (option Folder) :=
  match eachEntry prefix entries (MkFolder folderName [] []) with
  | Throw e => Throw e
  | Ok folder => Ok (unlessEmpty folder)
  end.

(** [readMarkdownFiles(dirPath, filter, replacer, syncStateManager)] on
    a directory [dirPath] with the given entries. *)
Definition readMarkdownFiles (root : result (list Dirent))
  : result (option Folder) :=
  match root with
  | Throw e => Throw e
  | Ok entries => walk "." "" entries
  end.
End Reading.

(** What [hasChanged] is for a file read by [readMarkdownFiles]: never
    [undefined], and [true] when no [syncStateManager] is given. *)
Definition changeKnown (hasFileChanged : option (string → string → bool))
    (file : MarkdownFileData) : Prop :=
  ∃ changed, hasChanged file = Some changed
             ∧ (hasFileChanged = None → changed = true).

(** A folder with the folders below it, at any depth. *)
Fixpoint foldersOf (folder : Folder) : list Folder :=
  folder ::
  (fix each (subs : list Folder) : list Folder :=
     match subs with
     | [] => []
     | sub :: subs' => foldersOf sub ++ each subs'
     end) (subfolders folder).

(** ** The counters of [collectCurrentFiles] *)

(** The child pages listed and not yet dispatched. *)
Definition awaited (tasks : list Collect.task) : nat :=
  sum_list_with
    (λ t, match t with
          | Collect.Dispatching _ _ childPageIds => length childPageIds
          | Collect.Fetching _ _ _ => 0%nat
          end) tasks.

(** How [processedCount] and [discoveredCount] relate to what the crawl
    has done. *)
Definition accounted (s : Collect.state) : Prop :=
  0 ≤ Collect.processedCount s
  ∧ Collect.processedCount s + Z.of_nat (length (Collect.pendingTasks s))
    = Z.of_nat (length (Collect.started s))
  ∧ Z.of_nat (length (Collect.started s))
    + Z.of_nat (awaited (Collect.pendingTasks s))
    ≤ Collect.discoveredCount s.

(** ** [processInParallel]

    The processor runs as interleaved promises, one per item, while the
    function itself is suspended on [Promise.race] or [Promise.all];
    between two of its awaits the function runs without interruption.
    Which promise goes on next is up to the event loop, so a call is a
    transition system driven by a schedule.  The events of a processor
    are listed when it completes. *)
Module Parallel.

(** Where the body of a promise is suspended: on [sleep(requestDelay)]
    or on [processor(item)]. *)
Inductive phase : Type := Sleeping | Processing.

(** Where [processInParallel] itself stands. *)
Inductive control (R : Type) : Type :=
| Racing    (** on [await Promise.race(executing)], no promise settled yet *)
| Resumed   (** the race is won; the loop is about to go on *)
| Joining   (** on [await Promise.all(executing)] *)
| Returned (rs : list R)
| Thrown (e : error).
Arguments Racing {R}.
Arguments Resumed {R}.
Arguments Joining {R}.
Arguments Returned {R} rs.
Arguments Thrown {R} e.

(** The variables of a call: the items the loop has not reached yet,
    with their indices; the set [executing], a promise being the index
    and item it was made for and the place it is suspended at; the
    array [results]; the events so far; and three logs kept for the
    statements: [begun] lists the indices whose processor has been
    called, [fulfilled] and [failed] those whose promise has settled. *)
Record state (T R : Type) :=
  { todo : list (nat * option T);
    executing : list (nat * T * phase);
    results : list (option R);
    main : control R;
    past : history;
    begun : list nat;
    fulfilled : list nat;
    failed : list nat }.
Arguments todo {T R} s.
Arguments executing {T R} s.
Arguments results {T R} s.
Arguments main {T R} s.
Arguments past {T R} s.
Arguments begun {T R} s.
Arguments fulfilled {T R} s.
Arguments failed {T R} s.

(** A step of the event loop: the sleep of promise [j] of [executing]
    is over, the processor of promise [j] completes, or the function
    goes on after its await. *)
Inductive move : Type :=
| Wake (j : nat)
| Finish (j : nat)
| Continue.

Section Queue.
Context {T R : Type}.
(** [None] is a result that is [undefined]. *)
Variable processor : T → async (option R).
Variables limit requestDelay : Z.

(** The [for] loop from the first item of [todo] up to its next await:
    an item that is [undefined] is skipped; a promise is made for any
    other, which sleeps first when [requestDelay > 0] and some promise
    is executing, and calls the processor otherwise; the loop stops on
    [Promise.race] once [executing.size >= limit], and on
    [Promise.all] after the last item. *)
Fixpoint loop (items : list (nat * option T)) (s : state T R) : state T R :=
  match items with
  | [] =>
    {| todo := []; executing := executing s; results := results s;
       main := Joining; past := past s; begun := begun s;
       fulfilled := fulfilled s; failed := failed s |}
  | (index, None) :: items' => loop items' s
  | (index, Some item) :: items' =>
    let sleeps :=
      bool_decide (0 < requestDelay)
      && bool_decide (0 < length (executing s))%nat in
    let executing' :=
      executing s ++ [(index, item, if sleeps then Sleeping else Processing)] in
    let s' main' :=
      {| todo := items'; executing := executing'; results := results s;
         main := main';
         past := past s ++ (if sleeps then [Sleep requestDelay] else []);
         begun := if sleeps then begun s else begun s ++ [index];
         fulfilled := fulfilled s; failed := failed s |} in
    if bool_decide (limit ≤ Z.of_nat (length executing'))
    then s' Racing
    else loop items' (s' Resumed)
  end.

(** The call of [processInParallel(items, processor, limit,
    requestDelay)] up to its first await. *)
Definition start (items : list (option T)) : state T R :=
  loop (imap (λ index item, (index, item)) items)
    {| todo := []; executing := []; results := replicate (length items) None;
       main := Resumed; past := []; begun := []; fulfilled := [];
       failed := [] |}.

(** The processor of promise [j] completes after emitting [es]: with a
    result, which is stored in [results], or with an error.  The promise
    leaves [executing]; a function suspended on the race goes on with
    the loop or throws, one suspended on [Promise.all] throws on an
    error. *)
Definition finish (j index : nat) (es : list event)
    (outcome : result (option R)) (s : state T R) : state T R :=
  {| todo := todo s;
     executing := delete j (executing s);
     results :=
       match outcome with
       | Ok result => <[index := result]> (results s)
       | Throw _ => results s
       end;
     main :=
       match outcome, main s with
       | Ok _, Racing => Resumed
       | Throw e, Racing | Throw e, Joining => Thrown e
       | _, standing => standing
       end;
     past := past s ++ es;
     begun := begun s;
     fulfilled :=
       match outcome with
       | Ok _ => fulfilled s ++ [index]
       | Throw _ => fulfilled s
       end;
     failed :=
       match outcome with
       | Ok _ => failed s
       | Throw _ => failed s ++ [index]
       end |}.

Definition step (m : move) (s : state T R) : option (state T R) :=
  match m with
  | Wake j =>
    match executing s !! j with
    | Some (index, item, Sleeping) =>
      Some {| todo := todo s;
              executing := <[j := (index, item, Processing)]> (executing s);
              results := results s; main := main s; past := past s;
              begun := begun s ++ [index];
              fulfilled := fulfilled s; failed := failed s |}
    | _ => None
    end
  | Finish j =>
    match executing s !! j with
    | Some (index, item, Processing) =>
      let '(es, outcome) := processor item (past s) in
      Some (finish j index es outcome s)
    | _ => None
    end
  | Continue =>
    match main s with
    | Resumed => Some (loop (todo s) s)
    | Joining =>
      match executing s with
      | [] =>
        Some {| todo := todo s; executing := [];
                results := results s;
                main := Returned (omap (λ result, result) (results s));
                past := past s; begun := begun s;
                fulfilled := fulfilled s; failed := failed s |}
      | _ :: _ => None
      end
    | _ => None
    end
  end.

Fixpoint run (schedule : list move) (s : state T R) : option (state T R) :=
  match schedule with
  | [] => Some s
  | m :: schedule' => s' ← step m s; run schedule' s'
  end.

(** What [processInParallel] has come to after the given steps. *)
Definition processInParallel (items : list (option T))
    (schedule : list move) : option (control R) :=
  main <$> run schedule (start items).
End Queue.
End Parallel.

(** The indices of the items that are not [undefined]. *)
Definition definedOf {T} (items : list (nat * option T)) : list nat :=
  omap (λ '(index, item), if item is Some _ then Some index else None) items.

(** The indices of the promises whose processor is running. *)
Definition processingOf {T} (executing : list (nat * T * Parallel.phase))
  : list nat :=
  omap (λ '(index, _, at_), if at_ is Parallel.Processing then Some index
                            else None) executing.

(** Where the items of a call of [processInParallel] are: every item
    that is not [undefined] is still to come, executing, or settled;
    the processors called are those running or settled; results are
    stored for fulfilled promises only; and once the function has
    returned nothing is left to do. *)
Record placed {T R} (items : list (option T)) (s : Parallel.state T R)
  : Prop :=
  { placed_items :
      definedOf (imap (λ index item, (index, item)) items)
      ≡ₚ definedOf (Parallel.todo s) ++ (Parallel.executing s).*1.*1
         ++ Parallel.fulfilled s ++ Parallel.failed s;
    placed_begun :
      Parallel.begun s
      ≡ₚ processingOf (Parallel.executing s)
         ++ Parallel.fulfilled s ++ Parallel.failed s;
    placed_results :
      ∀ index result,
        Parallel.results s !! index = Some (Some result) →
        index ∈ Parallel.fulfilled s;
    placed_joining : Parallel.main s = Parallel.Joining → Parallel.todo s = [];
    placed_returned :
      ∀ rs, Parallel.main s = Parallel.Returned rs →
        Parallel.todo s = [] ∧ Parallel.executing s = []
        ∧ rs = omap (λ result, result) (Parallel.results s) }.

(** ** [getExistingBlocks] *)

(** A call of [processInParallel] made after the history [h], its
    promises resumed as [schedule] says: the events of the call, and
    what it returns or throws; [None] when the schedule leaves the call
    suspended. *)
Definition processInParallelUnder {T R} (schedule : list Parallel.move)
    (processor : T → async (option R)) (limit requestDelay : Z)
    (items : list (option T)) : async (option (list R)) :=
  λ h,
    match Parallel.run (λ item past, processor item (h ++ past))
            limit requestDelay schedule
            (Parallel.start limit requestDelay items) with
    | Some s =>
      (Parallel.past s,
       match Parallel.main s with
       | Parallel.Returned rs => Ok (Some rs)
       | Parallel.Thrown e => Throw e
       | _ => Ok None
       end)
    | None => ([], Ok None)
    end.

(** The block object a listing hands out; it comes without
    [children]. *)
Definition blockOf (c : ChildBlock) : block :=
  Block (Some (child_id c)) (child_type c) (child_payload c) None.

(** [block[block.type].children = children] *)
Definition withChildren (b : block) (cs : list block) : block :=
  Block (id b) (type b) (payload b) (Some cs).

(** [existingBlocks] once the processors have run: every block with
    [has_children] holds the children fetched for it, [fetched] giving
    them in the order of these blocks. *)
Fixpoint attachChildren (existingBlocks : list ChildBlock)
    (fetched : list (list block)) : list block :=
  match existingBlocks with
  | [] => []
  | c :: existingBlocks' =>
    if child_has_children c then
      match fetched with
      | cs :: fetched' =>
        withChildren (blockOf c) cs :: attachChildren existingBlocks' fetched'
      | [] => blockOf c :: attachChildren existingBlocks' []
      end
    else blockOf c :: attachChildren existingBlocks' fetched
  end.

Module Read.
Section Existing.
Variable blocks_children_list_from :
  history → string → option string → result ListBlockChildrenResponse.
Variables parallelLimit requestDelay maxRetryAttempts : Z.
(** The turns granted to the loop of [getAllBlockPages]. *)
Variable turns : nat.
(** How the event loop resumes the promises of the [processInParallel]
    that a call for [pageId] makes after a history. *)
Variable eventLoop : history → string → list Parallel.move.

(** [getExistingBlocks(notion, pageId, maxDepth, currentDepth)] with
    [deeper = maxDepth - currentDepth] levels left below: the children
    are fetched while [currentDepth < maxDepth].  The processor's
    assignment to [block[block.type].children] is kept as the result
    stored for the block and made when the call has returned; no one
    reads the block in between.  [None] says that the call has not
    returned: a processor whose own call has not returned stores
    nothing, and the call above it then counts as not returned. *)
Fixpoint getExistingBlocksFrom (deeper : nat) (pageId : string)
  : async (option (list block)) :=
  allPages ← getAllBlockPages blocks_children_list_from maxRetryAttempts
                turns pageId;
  match allPages return async (option (list block)) with
  | None => mret None
  | Some existingBlocks =>
    match deeper return async (option (list block)) with
    | O => mret (Some (blockOf <$> existingBlocks))
    | S deeper' =>
      let blocksWithChildren :=
        filter (λ c, child_has_children c = true) existingBlocks in
      if bool_decide (0 < length blocksWithChildren)%nat
         return async (option (list block)) then
        λ h,
          (fetched ← processInParallelUnder (eventLoop h pageId)
                       (λ c, getExistingBlocksFrom deeper' (child_id c))
                       (Z.min parallelLimit 8) requestDelay
                       (Some <$> blocksWithChildren);
           mret (match fetched with
                 | Some children =>
                   if bool_decide (length children
                                   = length blocksWithChildren)
                   then Some (attachChildren existingBlocks children)
                   else None
                 | None => None
                 end)) h
      else mret (Some (blockOf <$> existingBlocks))
    end
  end.

Definition getExistingBlocks (pageId : string) (maxDepth currentDepth : Z)
  : async (option (list block)) :=
  getExistingBlocksFrom (Z.to_nat (maxDepth - currentDepth)) pageId.
End Existing.
End Read.

(** What [existing_blocks] is for a client whose blocks are read by the
    code: the outcome of [getExistingBlocks(notion, pageId, 10, 0)] on
    the listings of the remote side. *)
Definition readBlocks
    (blocks_children_list_from :
       history → string → option string → result ListBlockChildrenResponse)
    (parallelLimit requestDelay maxRetryAttempts : Z) (turns : nat)
    (eventLoop : history → string → list Parallel.move)
    (h : history) (pageId : string) : result (list block) :=
  match (Read.getExistingBlocks blocks_children_list_from parallelLimit
           requestDelay maxRetryAttempts turns eventLoop pageId 10 0 h).2 with
  | Ok (Some blocks) => Ok blocks
  | Ok None => Throw (Error None "getExistingBlocks has not returned")
  | Throw e => Throw e
  end.

(** ** A remote side that keeps what it is sent *)

Module Store.

(** The blocks under each page, in order, and the number of ids given
    out so far. *)
Record content :=
  { blocksOf : list (string * list block); issued : nat }.

Definition under (parent : string) (c : content) : list block :=
  default [] (mapGet parent (blocksOf c)).

Definition freshIds (from n : nat) : list string :=
  (λ k : nat, "b" +:+ pretty k) <$> seq from n.

(** [blocks.children.append]: the blocks get fresh ids and go behind
    the block [after], or to the end when there is no such block. *)
Definition append (parent : string) (chunk : list block)
    (after : option string) (c : content) : content :=
  let new :=
    zip_with (λ i b, Block (Some i) (type b) (payload b) (children b))
      (freshIds (issued c) (length chunk)) chunk in
  let old := under parent c in
  let place :=
    match after with
    | Some a => (λ found, S found.1) <$> list_find (λ b, id b = Some a) old
    | None => None
    end in
  {| blocksOf :=
       mapSet parent
         (match place with
          | Some n => take n old ++ new ++ drop n old
          | None => old ++ new
          end) (blocksOf c);
     issued := issued c + length chunk |}.

(** [blocks.delete] *)
Definition remove (blockId : option string) (c : content) : content :=
  {| blocksOf :=
       (λ '(parent, blocks), (parent, filter (λ b, id b ≠ blockId) blocks))
         <$> blocksOf c;
     issued := issued c |}.

Definition apply (c : content) (ev : event) : content :=
  match ev with
  | Call (BlocksChildrenAppend parent chunk after) => append parent chunk after c
  | Call (BlocksDelete blockId) => remove blockId c
  | _ => c
  end.

(** What the remote side holds after a history, having started
    empty. *)
Definition after (h : history) : content :=
  foldl apply {| blocksOf := []; issued := 0 |} h.

Definition listed (b : block) : ChildBlock :=
  {| child_object := "block"; child_type := type b;
     child_id := default "" (id b); child_payload := payload b;
     child_has_children := false |}.

(** [blocks.children.list]: a hundred blocks at a time, the cursor
    being the id of the first block of the next hundred. *)
Definition list_from (h : history) (parent : string)
    (start_cursor : option string) : result ListBlockChildrenResponse :=
  let blocks := under parent (after h) in
  let start :=
    match start_cursor with
    | Some cursor =>
      default (length blocks)
        (fst <$> list_find (λ b, id b = Some cursor) blocks)
    | None => 0%nat
    end in
  let rest := drop start blocks in
  Ok {| results := listed <$> take 100 rest;
        has_more := bool_decide (100 < length rest)%nat;
        next_cursor := drop 100 rest !! 0%nat ≫= id |}.

(** The remote side as a client: pages are created under the id
    [parent/title]; the blocks of a page are read by the
    [getExistingBlocks] of the code with the default options, no block
    having children. *)
Definition client : Client :=
  let page (pageId : string) :=
    {| object := "page"; page_id := pageId;
       url := "https://www.notion.so/" +:+ pageId; properties := [] |} in
  {| pages_retrieve := λ _ pageId, Ok (page pageId);
     pages_create := λ _ parent title, Ok (page (parent +:+ "/" +:+ title));
     pages_update_archived := λ _ _, Ok tt;
     blocks_children_list := λ h parent,
       Ok (listed <$> take 100 (under parent (after h)));
     blocks_children_append := λ h _ chunk _,
       Ok (freshIds (issued (after h)) (length chunk));
     blocks_delete := λ _ _, Ok tt;
     existing_blocks :=
       readBlocks list_from DEFAULT_PARALLEL_LIMIT DEFAULT_REQUEST_DELAY
         MAX_RETRY_ATTEMPTS 4 (λ _ _, []) |}.
End Store.

(** A local tree of one file of [n] paragraphs, read without a
    [syncStateManager]. *)
Definition paragraphs (n : nat) : list block :=
  (λ k : nat, Block None "paragraph" ("line " +:+ pretty k) None) <$> seq 0 n.

Definition notesOf (n : nat) : Folder :=
  MkFolder "." [{| fileName := "notes";
                   getContent := λ _, paragraphs n;
                   hasChanged := Some true |}] [].

(** ** Reading the code further *)

(** The page index [m'] holds every entry of [m]. *)
Definition extends (m m' : PageIndex) : Prop :=
  ∀ key pageLink, mapGet key m = Some pageLink → mapGet key m' = Some pageLink.

(** An event that writes the synchronisation state. *)
Definition isStateSave (ev : event) : bool :=
  match ev with
  | SaveFileState _ | SavePendingChanges => true
  | _ => false
  end.

(** Some chain of [n] blocks, each among the children of the one
    before, starts in [blocks]. *)
Fixpoint nestsTo (n : nat) (blocks : list block) : bool :=
  match n with
  | O => true
  | S n' => existsb (λ b, nestsTo n' (default [] (children b))) blocks
  end.

Definition isCreateCall (ev : event) : bool :=
  match ev with Call (PagesCreate _ _) => true | _ => false end.

(** The time a run has spent pausing. *)
Definition pauses (es : list event) : Z :=
  foldr (λ ev total, match ev with Sleep ms => ms + total | _ => total end)
        0 es.

Definition isRequest (ev : event) : bool :=
  match ev with Call _ => true | _ => false end.

(** A task of the crawl that has a child page left to start: once
    [pendingTasks.size >= parallelLimit] it is suspended on
    [await Promise.race(pendingTasks)]. *)
Definition awaitsSlot (t : Collect.task) : bool :=
  match t with
  | Collect.Dispatching _ _ (_ :: _) => true
  | _ => false
  end.

(** The ids ["sA"], ..., ["sY"] of 25 pages. *)
Definition sectionIds : list string :=
  (λ n, "s" +:+ String (ascii_of_nat (65 + n)) "") <$> seq 0 25.

(** A remote side whose root page ["r"] has the 25 child pages
    [sectionIds], each of which has one child page of its own. *)
Definition crowdedClient : Client :=
  let child (pageId : string) :=
    {| child_object := "block"; child_type := "child_page";
       child_id := pageId;
       child_payload := ""; child_has_children := false |} in
  {| pages_retrieve := pages_retrieve cyclicClient;
     pages_create := pages_create cyclicClient;
     pages_update_archived := pages_update_archived cyclicClient;
     blocks_children_list := λ _ pageId,
       Ok (child <$> (if bool_decide (pageId = "r") then sectionIds
                      else [pageId +:+ "/1"]));
     blocks_children_append := blocks_children_append cyclicClient;
     blocks_delete := blocks_delete cyclicClient;
     existing_blocks := existing_blocks cyclicClient |}.

(** A remote side that accepts the first append of a run and is down
    from then on. *)
Definition downAfterFirst : Client :=
  {| pages_retrieve := pages_retrieve quietClient;
     pages_create := pages_create quietClient;
     pages_update_archived := pages_update_archived quietClient;
     blocks_children_list := blocks_children_list quietClient;
     blocks_children_append := λ h pageId chunk after,
       if bool_decide (h = [])
       then blocks_children_append quietClient h pageId chunk after
       else Throw (Error (Some 500) "Internal Server Error");
     blocks_delete := blocks_delete quietClient;
     existing_blocks := existing_blocks quietClient |}.

(** * Properties *)

(** Membership in a list given by its elements. *)
Ltac listed := repeat first [by left | right].

(** ** [retryWithBackoff] *)

Section Retry.
Context {A : Type} (fn : async A) (maxAttempts initialDelay : Z).

Lemma retryLoop_step iters attempt lastError h :
  attempt ≤ maxAttempts →
  retryLoop fn maxAttempts initialDelay (S iters) attempt lastError h =
  match fn h with
  | (es, Ok a) => (es, Ok a)
  | (es, Throw e) =>
    if bool_decide (attempt = maxAttempts) || negb (isRateLimit e)
    then (es, Throw e)
    else
      let delay := initialDelay * 2 ^ (attempt - 1) in
      let '(es', r) :=
        retryLoop fn maxAttempts initialDelay iters (attempt + 1) (Some e)
          ((h ++ es) ++ [Sleep delay]) in
      (es ++ Sleep delay :: es', r)
  end.
Proof.
  intros Hle. simpl. rewrite bool_decide_eq_true_2 by done.
  unfold tryCatch. destruct (fn h) as [es [a|e]]; [done|].
  destruct (bool_decide (attempt = maxAttempts) || negb (isRateLimit e)).
  - simpl. by rewrite app_nil_r.
  - unfold mbind, async_bind, sleep, emit.
    by destruct (retryLoop _ _ _ _ _ _ _).
Qed.

(** More iterations than the loop can use change nothing. *)
Lemma retryLoop_iters iters attempt lastError h :
  (Z.to_nat (maxAttempts + 1 - attempt) ≤ iters)%nat →
  retryLoop fn maxAttempts initialDelay iters attempt lastError h =
  retryLoop fn maxAttempts initialDelay
    (Z.to_nat (maxAttempts + 1 - attempt)) attempt lastError h.
Proof.
  revert attempt lastError h.
  induction iters as [|iters IH]; intros attempt lastError h Hle.
  { by replace (Z.to_nat (maxAttempts + 1 - attempt)) with O by lia. }
  destruct (decide (attempt ≤ maxAttempts)) as [Hin|Hout].
  - replace (Z.to_nat (maxAttempts + 1 - attempt))
      with (S (Z.to_nat (maxAttempts + 1 - (attempt + 1)))) by lia.
    rewrite !retryLoop_step by done.
    destruct (fn h) as [es [a|e]]; [done|].
    destruct (bool_decide (attempt = maxAttempts) || negb (isRateLimit e));
      [done|].
    simpl. rewrite IH by lia. done.
  - replace (Z.to_nat (maxAttempts + 1 - attempt)) with O by lia.
    simpl. by rewrite bool_decide_eq_false_2.
Qed.

(** The operation fails [k] times with the rate-limit signal and then
    fails with [e], which ends the loop. *)
Lemma retryLoop_failures k : ∀ iters attempt lastError h es e,
  (k < iters)%nat →
  attempt + Z.of_nat k ≤ maxAttempts →
  (∀ j, (j < k)%nat → ∃ e',
      (fn (attemptHistory fn initialDelay attempt h j)).2 = Throw e'
      ∧ isRateLimit e' = true) →
  fn (attemptHistory fn initialDelay attempt h k) = (es, Throw e) →
  attempt + Z.of_nat k = maxAttempts ∨ isRateLimit e = false →
  ∃ es', retryLoop fn maxAttempts initialDelay iters attempt lastError h
         = (es', Throw e)
         ∧ h ++ es' = attemptHistory fn initialDelay attempt h k ++ es.
Proof.
  induction k as [|k IH]; intros iters attempt lastError h es e
    Hk Hle Hfirst Hlast Hstop.
  - destruct iters as [|iters]; [lia|].
    rewrite retryLoop_step by lia. simpl in Hlast. rewrite Hlast.
    exists es. split; [|done].
    destruct Hstop as [Heq|Hnot].
    + rewrite bool_decide_eq_true_2 by lia. done.
    + rewrite Hnot. by rewrite orb_true_r.
  - destruct iters as [|iters]; [lia|].
    rewrite retryLoop_step by lia.
    destruct (Hfirst O ltac:(lia)) as (e0 & He0 & Hrate). simpl in He0.
    destruct (fn h) as [es0 r0] eqn:Hfn. simpl in He0. subst r0.
    rewrite bool_decide_eq_false_2 by lia. rewrite Hrate. simpl.
    destruct (IH iters (attempt + 1) (Some e0)
                ((h ++ es0) ++ [Sleep (initialDelay * 2 ^ (attempt - 1))])
                es e) as (es' & Hrun & Hhist).
    + lia.
    + lia.
    + intros j Hj. destruct (Hfirst (S j) ltac:(lia)) as (e' & He' & Hr').
      simpl in He'. rewrite Hfn in He'. eauto.
    + simpl in Hlast. by rewrite Hfn in Hlast.
    + destruct Hstop; [left; lia|by right].
    + rewrite Hrun.
      exists (es0 ++ Sleep (initialDelay * 2 ^ (attempt - 1)) :: es').
      split; [done|]. rewrite Hfn. simpl. rewrite <- Hhist, <- !app_assoc.
      done.
Qed.
End Retry.

Lemma attemptHistory_call {A} (r : request) (answer : history → result A)
    (initialDelay : Z) (k : nat) : ∀ (a : nat) (h : history),
  attemptHistory (notionCall r answer) initialDelay (Z.of_nat a) h k =
  h ++ flat_map (λ attempt : nat,
                   [Call r; Sleep (initialDelay * 2 ^ (Z.of_nat attempt - 1))])
                (seq a k).
Proof.
  induction k as [|k IH]; intros a h; simpl.
  - by rewrite app_nil_r.
  - replace (Z.of_nat a + 1) with (Z.of_nat (S a)) by lia.
    rewrite IH. by rewrite <- !app_assoc.
Qed.

Lemma backoffTrace_snoc (r : request) (initialDelay : Z) (k : nat) :
  ∀ a : nat,
  flat_map (λ attempt : nat,
              [Call r; Sleep (initialDelay * 2 ^ (Z.of_nat attempt - 1))])
           (seq a k) ++ [Call r] =
  Call r ::
  flat_map (λ attempt : nat,
              [Sleep (initialDelay * 2 ^ (Z.of_nat attempt - 1)); Call r])
           (seq a k).
Proof.
  induction k as [|k IH]; intros a; simpl; [done|].
  by rewrite IH.
Qed.

(** C2. An operation that fails with the rate-limit signal (status 429
    or 503) on every invocation is invoked exactly [maxAttempts] times
    by [retryWithBackoff], with a pause of
    [initialDelay * 2 ^ (attempt - 1)] after every failed attempt but the
    last, whose error is then thrown: the run ends in the history of
    [maxAttempts - 1] failed attempts followed by one more invocation,
    and for an operation that is one client call the trace is
    [backoffTrace].  A failure that is not a rate-limit signal, at
    whichever attempt it occurs, is thrown at once: nothing follows the
    events of that invocation. *)
Theorem retryWithBackoff_ceiling {A} (fn : async A)
    (maxAttempts initialDelay : Z) (h : history) :
  1 ≤ maxAttempts →
  ((∀ h', ∃ e, (fn h').2 = Throw e ∧ isRateLimit e = true) →
   let last :=
     attemptHistory fn initialDelay 1 h (Z.to_nat maxAttempts - 1) in
   ∃ es e,
     retryWithBackoff fn maxAttempts initialDelay h = (es, Throw e)
     ∧ (fn last).2 = Throw e
     ∧ h ++ es = last ++ (fn last).1
     ∧ ∀ r answer, fn = notionCall r answer →
         es = backoffTrace r initialDelay (Z.to_nat maxAttempts))
  ∧ (∀ (k : nat) es e,
       Z.of_nat k < maxAttempts →
       (∀ j, (j < k)%nat → ∃ e',
           (fn (attemptHistory fn initialDelay 1 h j)).2 = Throw e'
           ∧ isRateLimit e' = true) →
       fn (attemptHistory fn initialDelay 1 h k) = (es, Throw e) →
       isRateLimit e = false →
       ∃ es',
         retryWithBackoff fn maxAttempts initialDelay h = (es', Throw e)
         ∧ h ++ es' = attemptHistory fn initialDelay 1 h k ++ es).
Proof.
  intros Hmax. split.
  - intros Halways last.
    destruct (Halways last) as (e & He & Hrate).
    destruct (fn last) as [es r] eqn:Hlast. simpl in He. subst r.
    destruct (retryLoop_failures fn maxAttempts initialDelay
                (Z.to_nat maxAttempts - 1) (Z.to_nat maxAttempts) 1 None
                h es e) as (es' & Hrun & Hhist).
    + lia.
    + lia.
    + intros j _. apply Halways.
    + exact Hlast.
    + left. lia.
    + exists es', e. split; [exact Hrun|]. split; [done|].
      split; [exact Hhist|].
      intros r answer ->. simpl in Hhist.
      change 1 with (Z.of_nat 1) in Hhist.
      rewrite attemptHistory_call in Hhist.
      unfold last in Hlast. change 1 with (Z.of_nat 1) in Hlast.
      unfold notionCall in Hlast at 1. injection Hlast as <- _.
      rewrite <- app_assoc in Hhist. apply app_inv_head in Hhist.
      rewrite backoffTrace_snoc in Hhist. subst es'.
      unfold backoffTrace.
      by replace (Z.to_nat maxAttempts) with (S (Z.to_nat maxAttempts - 1))
        at 2 by lia.
  - intros k es e Hk Hfirst Hlast Hnot.
    apply (retryLoop_failures fn maxAttempts initialDelay k
             (Z.to_nat maxAttempts) 1 None h es e); auto; lia.
Qed.

(** C2 at a remote side that always answers 429, with three attempts and
    an initial delay of one second, and at one that answers 500. *)
Lemma retryWithBackoff_ceiling_witness :
  let busy : async unit :=
    notionCall (PagesRetrieve "p") (λ _, Throw (Error (Some 429) "busy")) in
  let broken : async unit :=
    notionCall (PagesRetrieve "p") (λ _, Throw (Error (Some 500) "broken")) in
  1 ≤ 3
  ∧ (∀ h', ∃ e, (busy h').2 = Throw e ∧ isRateLimit e = true)
  ∧ retryWithBackoff busy 3 1000 [] =
      ([Call (PagesRetrieve "p"); Sleep 1000;
        Call (PagesRetrieve "p"); Sleep 2000;
        Call (PagesRetrieve "p")], Throw (Error (Some 429) "busy"))
  ∧ retryWithBackoff broken 3 1000 [] =
      ([Call (PagesRetrieve "p")], Throw (Error (Some 500) "broken")).
Proof.
  intros busy broken.
  assert (Halways : ∀ h', ∃ e, (busy h').2 = Throw e ∧ isRateLimit e = true).
  { intros h'. by exists (Error (Some 429) "busy"). }
  split; [lia|]. split; [exact Halways|]. split.
  - destruct (retryWithBackoff_ceiling busy 3 1000 [] ltac:(lia))
      as [Hbusy _].
    destruct (Hbusy Halways) as (es & e & Hrun & He & _ & Htrace).
    rewrite Hrun. rewrite (Htrace _ _ eq_refl).
    simpl in He. injection He as <-. reflexivity.
  - destruct (retryWithBackoff_ceiling broken 3 1000 [] ltac:(lia))
      as [_ Hbroken].
    destruct (Hbroken O [Call (PagesRetrieve "p")]
                (Error (Some 500) "broken") ltac:(lia)) as (es' & Hrun & Hes).
    + intros j Hj. lia.
    + reflexivity.
    + reflexivity.
    + rewrite Hrun. simpl in Hes. by rewrite Hes.
Defined.

(** ** What a computation emits *)

Lemma emits_ret {A} P (a : A) : emits P (mret a).
Proof. intros h. constructor. Qed.

Lemma emits_throw {A} P e : emits P (@throw A e).
Proof. intros h. constructor. Qed.

Lemma emits_emit P ev : P ev → emits P (emit ev).
Proof. intros Hev h. by repeat constructor. Qed.

Lemma emits_bind {A B} P (m : async A) (k : A → async B) :
  emits P m → (∀ a, emits P (k a)) → emits P (m ≫= k).
Proof.
  intros Hm Hk h. unfold mbind, async_bind.
  specialize (Hm h). destruct (m h) as [es [a|e]]; simpl in *; [|done].
  specialize (Hk a (h ++ es)). destruct (k a (h ++ es)) as [es' r].
  simpl in *. by apply Forall_app.
Qed.

Lemma emits_forEach {A} P (body : A → async unit) (l : list A) :
  (∀ x, x ∈ l → emits P (body x)) → emits P (forEach body l).
Proof.
  induction l as [|x l IH]; intros Hbody; simpl.
  - apply emits_ret.
  - apply emits_bind.
    + apply Hbody. by left.
    + intros _. apply IH. intros y Hy. apply Hbody. by right.
Qed.

Lemma emits_notionCall {A} P r (answer : history → result A) :
  P (Call r) → emits P (notionCall r answer).
Proof. intros Hr h. by repeat constructor. Qed.

Lemma emits_tryCatch {A} P (m : async A) (handler : error → async A) :
  emits P m → (∀ e, emits P (handler e)) → emits P (tryCatch m handler).
Proof.
  intros Hm Hhandler h. unfold tryCatch.
  specialize (Hm h). destruct (m h) as [es [a|e]]; simpl in *; [done|].
  specialize (Hhandler e (h ++ es)). destruct (handler e (h ++ es)) as [es' r].
  simpl in *. by apply Forall_app.
Qed.

Lemma emits_retryLoop {A} P (fn : async A) maxAttempts initialDelay iters :
  emits P fn → (∀ ms, P (Sleep ms)) →
  ∀ attempt lastError,
    emits P (retryLoop fn maxAttempts initialDelay iters attempt lastError).
Proof.
  intros Hfn Hsleep.
  induction iters as [|iters IH]; intros attempt lastError; simpl.
  { apply emits_throw. }
  destruct (bool_decide (attempt ≤ maxAttempts)); [|apply emits_throw].
  apply emits_tryCatch; [done|]. intros e.
  destruct (bool_decide (attempt = maxAttempts) || negb (isRateLimit e));
    [apply emits_throw|].
  apply emits_bind; [by apply emits_emit|]. intros _. apply IH.
Qed.

Lemma emits_retryWithBackoff {A} P (fn : async A) maxAttempts initialDelay :
  emits P fn → (∀ ms, P (Sleep ms)) →
  emits P (retryWithBackoff fn maxAttempts initialDelay).
Proof. intros. by apply emits_retryLoop. Qed.

(** ** [appendBlocksInChunks] *)

Lemma elem_of_slice {A} (i j : nat) (l : list A) x : x ∈ slice i j l → x ∈ l.
Proof.
  unfold slice. intros Hx.
  apply (subseteq_drop i l). by apply (subseteq_take (j - i) (drop i l)).
Qed.

Lemma length_chunkOf limitChild sl : length (chunkOf limitChild sl) = length sl.
Proof. unfold chunkOf. by rewrite length_fmap. Qed.

Lemma length_chunk limitChild i (blocks : list block) :
  (length (chunkOf limitChild (slice i (i + NOTION_BLOCK_LIMIT) blocks))
   ≤ NOTION_BLOCK_LIMIT)%nat.
Proof.
  rewrite length_chunkOf. unfold slice. rewrite length_take. lia.
Qed.

Lemma elem_of_detachedChildren limitChild sl index cs :
  (index, cs) ∈ detachedChildren limitChild sl ↔
  limitChild = true ∧ ∃ b, sl !! index = Some b ∧ bulletedChildren b = Some cs.
Proof.
  unfold detachedChildren. rewrite list_elem_of_omap. split.
  - intros ([j b] & Hin & Hsome).
    apply elem_of_lookup_imap in Hin as (j' & b' & Heq & Hlook).
    injection Heq as -> ->.
    destruct limitChild; [|done]. split; [done|].
    destruct (bulletedChildren b') as [cs'|] eqn:Hb; [|done].
    simpl in Hsome. injection Hsome as -> ->. eauto.
  - intros (-> & b & Hlook & Hb). exists (index, b). split.
    + apply elem_of_lookup_imap. eauto.
    + by rewrite Hb.
Qed.

Lemma nestingOf_le b (blocks : list block) :
  b ∈ blocks → (nestingOf b ≤ nesting blocks)%nat.
Proof.
  induction 1 as [b l|b c l _ IH]; simpl; lia.
Qed.

Lemma nestingOf_children b cs :
  children b = Some cs → nestingOf b = S (nesting cs).
Proof. destruct b as [i t p c]. simpl. by intros ->. Qed.

Lemma nesting_detached limitChild i j (blocks : list block) index cs :
  (index, cs) ∈ detachedChildren limitChild (slice i j blocks) →
  (nesting cs < nesting blocks)%nat.
Proof.
  rewrite elem_of_detachedChildren. intros (_ & b & Hlook & Hb).
  apply list_elem_of_lookup_2, elem_of_slice, nestingOf_le in Hlook.
  unfold bulletedChildren in Hb. case_bool_decide; [|done].
  apply nestingOf_children in Hb. lia.
Qed.

Lemma forEach_ext {A} (f g : A → async unit) (l : list A) :
  (∀ x h, x ∈ l → f x h = g x h) → ∀ h, forEach f l h = forEach g l h.
Proof.
  induction l as [|x l IH]; intros Hfg h; simpl; [done|].
  unfold mbind, async_bind. rewrite Hfg by left.
  destruct (g x h) as [es [[]|e]]; [|done].
  rewrite IH; [done|]. intros y h' Hy. apply Hfg. by right.
Qed.

Section AppendingProperties.
Variable notion : Client.
Variable maxRetryAttempts : Z.

Lemma appendChunk_ext (f g : string → list block → async unit)
    pageId limitChild sl afterId :
  (∀ index cs newId h, (index, cs) ∈ detachedChildren limitChild sl →
     f newId cs h = g newId cs h) →
  ∀ h, appendChunk notion maxRetryAttempts f pageId limitChild sl afterId h =
       appendChunk notion maxRetryAttempts g pageId limitChild sl afterId h.
Proof.
  intros Hfg h. unfold appendChunk, mbind, async_bind.
  destruct (retryWithBackoff _ _ _ h) as [es [response|e]]; [|done].
  rewrite (forEach_ext _
    (λ '(index, cs), match response !! index with
                     | Some newId => g newId cs
                     | None => throw typeError
                     end)); [done|].
  intros [index cs] h' Hin. destruct (response !! index); [|done].
  by eapply Hfg.
Qed.

(** The follow-up calls never exhaust the levels of
    [appendBlocksInChunks]. *)
Lemma appendBlocksInChunksAux_levels levels : ∀ pageId blocks afterId h,
  (nesting blocks < levels)%nat →
  appendBlocksInChunksAux notion maxRetryAttempts levels pageId blocks afterId h
  = appendBlocksInChunks notion maxRetryAttempts pageId blocks afterId h.
Proof.
  unfold appendBlocksInChunks.
  induction levels as [levels IH] using lt_wf_ind.
  intros pageId blocks afterId h Hlt.
  destruct levels as [|levels]; [lia|]. simpl.
  apply forEach_ext. intros i h' _. apply appendChunk_ext.
  intros index cs newId h'' Hin. apply nesting_detached in Hin.
  rewrite (IH levels) by lia. rewrite (IH (nesting blocks)) by lia. done.
Qed.

(** The loop of [appendBlocksInChunks], its follow-up calls being calls
    of [appendBlocksInChunks] itself. *)
Lemma appendBlocksInChunks_unfold pageId blocks afterId h :
  appendBlocksInChunks notion maxRetryAttempts pageId blocks afterId h =
  forEach (λ i,
    appendChunk notion maxRetryAttempts
      (λ newId cs,
         appendBlocksInChunks notion maxRetryAttempts newId cs None)
      pageId (bool_decide (3 < findMaxDepth (Some blocks) 0))
      (slice i (i + NOTION_BLOCK_LIMIT) blocks) afterId)
    (chunkStarts (length blocks)) h.
Proof.
  unfold appendBlocksInChunks at 1. simpl.
  apply forEach_ext. intros i h' _. apply appendChunk_ext.
  intros index cs newId h'' Hin. apply nesting_detached in Hin.
  by apply appendBlocksInChunksAux_levels.
Qed.

Lemma emits_appendBlocksInChunksAux (P : event → Prop) levels :
  (∀ ms, P (Sleep ms)) →
  (∀ block_id chunk after, (length chunk ≤ NOTION_BLOCK_LIMIT)%nat →
     P (Call (BlocksChildrenAppend block_id chunk after))) →
  ∀ pageId blocks afterId,
    emits P (appendBlocksInChunksAux notion maxRetryAttempts levels
               pageId blocks afterId).
Proof.
  intros Hsleep Happend.
  induction levels as [|levels IH]; intros pageId blocks afterId; simpl.
  { apply emits_ret. }
  apply emits_forEach. intros i _. unfold appendChunk.
  apply emits_bind.
  - apply emits_retryWithBackoff; [|done].
    apply emits_notionCall, Happend, length_chunk.
  - intros response. apply emits_forEach. intros [index cs] _.
    destruct (response !! index); [apply IH|apply emits_throw].
Qed.

Lemma emits_appendBlocksInChunks (P : event → Prop) :
  (∀ ms, P (Sleep ms)) →
  (∀ block_id chunk after, (length chunk ≤ NOTION_BLOCK_LIMIT)%nat →
     P (Call (BlocksChildrenAppend block_id chunk after))) →
  ∀ pageId blocks afterId,
    emits P (appendBlocksInChunks notion maxRetryAttempts
               pageId blocks afterId).
Proof. intros. by apply emits_appendBlocksInChunksAux. Qed.
End AppendingProperties.

(** ** [updateBlocks] *)

Lemma elem_of_setAdd {A} `{EqDecision A} (x y : A) (s : list A) :
  y ∈ setAdd x s ↔ y = x ∨ y ∈ s.
Proof.
  unfold setAdd. case_bool_decide as Hx.
  - split; [by right|]. by intros [->|].
  - rewrite elem_of_app, list_elem_of_singleton. tauto.
Qed.



Section UpdatingProperties.
Variable notion : Client.
Variable maxRetryAttempts : Z.

Lemma emits_runEdits (P : event → Prop) pageId existingBlocks edits :
  (∀ ms, P (Sleep ms)) →
  (∀ block_id chunk after, (length chunk ≤ NOTION_BLOCK_LIMIT)%nat →
     P (Call (BlocksChildrenAppend block_id chunk after))) →
  ∀ toDelete,
    emits P (runEdits notion maxRetryAttempts pageId existingBlocks
               edits toDelete).
Proof.
  intros Hsleep Happend.
  induction edits as [|[blocks after|b] edits IH]; intros toDelete; simpl.
  - apply emits_ret.
  - apply emits_bind; [|done]. unfold appendCallback.
    destruct (appendPlan _ _ _ _) as [[appendBlocks afterId] toDelete'].
    apply emits_bind; [|intros; apply emits_ret].
    by apply emits_appendBlocksInChunks.
  - apply IH.
Qed.

Lemma emits_deleteBlocks (P : event → Prop) toDelete :
  (∀ ms, P (Sleep ms)) →
  (∀ block_id, P (Call (BlocksDelete block_id))) →
  emits P (deleteBlocks notion maxRetryAttempts toDelete).
Proof.
  intros Hsleep Hdelete. apply emits_forEach. intros blockId _.
  apply emits_retryWithBackoff; [|done]. by apply emits_notionCall.
Qed.

Lemma emits_updateBlocks (P : event → Prop) mergeBlocks pageId newBlocks :
  (∀ ms, P (Sleep ms)) →
  (∀ block_id chunk after, (length chunk ≤ NOTION_BLOCK_LIMIT)%nat →
     P (Call (BlocksChildrenAppend block_id chunk after))) →
  (∀ block_id, P (Call (BlocksDelete block_id))) →
  P (GetExistingBlocks pageId) →
  emits P (updateBlocks notion maxRetryAttempts mergeBlocks pageId newBlocks).
Proof.
  intros Hsleep Happend Hdelete Hget. unfold updateBlocks.
  apply emits_bind.
  { intros h. by repeat constructor. }
  intros existingBlocks. apply emits_bind.
  - by apply emits_runEdits.
  - intros toDelete. by apply emits_deleteBlocks.
Qed.

End UpdatingProperties.

Lemma filter_fmap_seq (P : nat → Prop) `{∀ i, Decision (P i)}
    (f : nat → nat) (n : nat) : ∀ m,
  (m ≤ n)%nat →
  (∀ k, (k < m)%nat → P (f k)) →
  (∀ k, (m ≤ k < n)%nat → ¬ P (f k)) →
  filter P (f <$> seq 0 n) = f <$> seq 0 m.
Proof.
  induction n as [|n IH]; intros m Hm Hin Hout.
  { by replace m with O by lia. }
  rewrite seq_S, fmap_app, filter_app. simpl.
  destruct (decide (m ≤ n)%nat) as [Hle|Hgt].
  - rewrite (IH m) by (done || intros; apply Hout; lia).
    rewrite filter_cons_False by (apply Hout; lia).
    by rewrite filter_nil, app_nil_r.
  - replace m with (S n) by lia.
    rewrite (IH n) by (done || intros; (apply Hin || apply Hout); lia).
    rewrite filter_cons_True by (apply Hin; lia).
    by rewrite filter_nil, seq_S, fmap_app.
Qed.

(** The loop variable takes the values [0], [100], ... below the
    length: one per started hundred of blocks. *)
Lemma chunkStarts_eq len :
  chunkStarts len
  = (λ k, k * NOTION_BLOCK_LIMIT)%nat <$> seq 0 ((len + 99) / 100).
Proof.
  unfold chunkStarts, NOTION_BLOCK_LIMIT.
  pose proof (Nat.div_mod_eq (len + 99) 100) as Hdiv.
  pose proof (Nat.mod_upper_bound (len + 99) 100 ltac:(lia)) as Hmod.
  apply filter_fmap_seq; intros; lia.
Qed.






(** The blocks that [getExistingBlocks] returns carry the ids that the
    listing of the page hands out, in its order: none is without id. *)
Lemma attachChildren_ids (existingBlocks : list ChildBlock) :
  ∀ fetched,
    id <$> attachChildren existingBlocks fetched
    = (λ c, Some (child_id c)) <$> existingBlocks.
Proof.
  induction existingBlocks as [|c existingBlocks IH]; intros fetched; [done|].
  cbn [attachChildren]. rewrite fmap_cons.
  destruct (child_has_children c); [destruct fetched as [|cs fetched]|];
    rewrite fmap_cons, IH; done.
Qed.

Lemma getExistingBlocks_ids blocks_children_list_from parallelLimit
    requestDelay maxRetryAttempts turns eventLoop deeper pageId h es blocks :
  Read.getExistingBlocksFrom blocks_children_list_from parallelLimit
    requestDelay maxRetryAttempts turns eventLoop deeper pageId h
  = (es, Ok (Some blocks)) →
  ∃ es0 existingBlocks,
    getAllBlockPages blocks_children_list_from maxRetryAttempts turns
      pageId h = (es0, Ok (Some existingBlocks))
    ∧ id <$> blocks = (λ c, Some (child_id c)) <$> existingBlocks.
Proof.
  destruct deeper as [|deeper]; cbn [Read.getExistingBlocksFrom];
    unfold mbind at 1, async_bind at 1;
    destruct (getAllBlockPages _ _ _ _ h) as [es0 [[existingBlocks|]|e]];
    try done.
  - intros [= <- <-]. exists es0, existingBlocks. split; [done|].
    by rewrite <- list_fmap_compose.
  - case_bool_decide.
    + unfold mbind, async_bind.
      destruct (processInParallelUnder _ _ _ _ _ _) as [es1 [fetched|e]];
        [|done].
      destruct fetched as [children|]; [|done].
      case_bool_decide; [|done].
      intros [= <- <-]. exists es0, existingBlocks. split; [done|].
      apply attachChildren_ids.
    + intros [= <- <-]. exists es0, existingBlocks. split; [done|].
      by rewrite <- list_fmap_compose.
Qed.

(** A page of two blocks, the first with two children of which one has
    a child of its own: under the schedule that lets each processor
    complete in turn, the blocks come back with their children
    attached, after one listing per level. *)
Lemma getExistingBlocks_nested :
  let item (blockId : string) (nested : bool) :=
    {| child_object := "block"; child_type := "paragraph";
       child_id := blockId; child_payload := "text of " +:+ blockId;
       child_has_children := nested |} in
  let listing (h : history) (parent : string) (cursor : option string) :=
    Ok {| results :=
            if bool_decide (parent = "page")
            then [item "b1" true; item "b2" false]
            else if bool_decide (parent = "b1")
            then [item "c1" false; item "c2" true]
            else [item "d1" false];
          has_more := false; next_cursor := None |} in
  let eventLoop (h : history) (parent : string) :=
    [Parallel.Finish 0; Parallel.Continue] in
  let paragraph (blockId : string) (cs : option (list block)) :=
    Block (Some blockId) "paragraph" ("text of " +:+ blockId) cs in
  Read.getExistingBlocks listing DEFAULT_PARALLEL_LIMIT
    DEFAULT_REQUEST_DELAY MAX_RETRY_ATTEMPTS 4 eventLoop "page" 10 0 []
  = ([Call (BlocksChildrenList "page"); Call (BlocksChildrenList "b1");
      Call (BlocksChildrenList "c2")],
     Ok (Some [paragraph "b1"
                 (Some [paragraph "c1" None;
                        paragraph "c2" (Some [paragraph "d1" None])]);
               paragraph "b2" None])).
Proof. vm_compute. reflexivity. Qed.

(** C6.  When the merge asks for an append without anchor and the page
    has existing blocks, [updateBlocks] appends the requested blocks
    followed by a copy of the first existing block with its id cleared,
    anchored after the id of the first block, and adds this id to the
    set of deletions; when the id is in the set already, the copy is
    left out.  The existing blocks are block objects read from the
    remote side, so the first one has an id that is not empty: this is
    what the third conjunct [existingBlocks[0]?.id] of the guard
    asks. *)
Theorem appendCallback_without_anchor (notion : Client) (maxRetryAttempts : Z)
    (pageId : string) (firstBlock : block) (others : list block)
    (blockIdSetToDelete : list (option string)) (blocks : list block) :
  truthy (id firstBlock) = true →
  let appendBlocks :=
    if bool_decide (id firstBlock ∈ blockIdSetToDelete) then blocks
    else blocks ++ [clearId firstBlock] in
  appendCallback notion maxRetryAttempts pageId (firstBlock :: others)
    blockIdSetToDelete blocks None =
  (appendBlocksInChunks notion maxRetryAttempts pageId appendBlocks
     (id firstBlock);;
   mret (setAdd (id firstBlock) blockIdSetToDelete))
  ∧ id firstBlock ∈ setAdd (id firstBlock) blockIdSetToDelete
  ∧ id (clearId firstBlock) = None
  ∧ type (clearId firstBlock) = type firstBlock
  ∧ payload (clearId firstBlock) = payload firstBlock
  ∧ children (clearId firstBlock) = children firstBlock.
Proof.
  intros Hid appendBlocks. split; [|split; [|done]].
  - unfold appendCallback, appendPlan. by rewrite Hid.
  - apply elem_of_setAdd. by left.
Qed.

(** C6 on a page whose first block is ["b1"]: the new block and the copy
    of the first block are appended after ["b1"], which is then deleted;
    a second request leaves the copy out. *)
Lemma appendCallback_without_anchor_witness :
  let firstBlock := Block (Some "b1") "paragraph" "old" None in
  truthy (id firstBlock) = true
  ∧ (appendCallback quietClient 3 "page" [firstBlock] []
       [bulleted "new" None] None []) =
      ([Call (BlocksChildrenAppend "page"
                [bulleted "new" None; Block None "paragraph" "old" None]
                (Some "b1"))], Ok [Some "b1"])
  ∧ (appendCallback quietClient 3 "page" [firstBlock] [Some "b1"]
       [bulleted "new" None] None []) =
      ([Call (BlocksChildrenAppend "page" [bulleted "new" None] (Some "b1"))],
       Ok [Some "b1"]).
Proof.
  intros firstBlock. split; [reflexivity|]. split.
  - rewrite (proj1 (appendCallback_without_anchor quietClient 3 "page"
                      firstBlock [] [] [bulleted "new" None] eq_refl)).
    reflexivity.
  - rewrite (proj1 (appendCallback_without_anchor quietClient 3 "page"
                      firstBlock [] [Some "b1"] [bulleted "new" None]
                      eq_refl)).
    reflexivity.
Defined.



(** ** Sorting the page index *)

Lemma insertByLength_Permutation {V} (x : string * V) l :
  insertByLength x l ≡ₚ x :: l.
Proof.
  induction l as [|y l IH]; simpl; [done|].
  case_bool_decide; [done|]. rewrite IH. apply Permutation_swap.
Qed.

Lemma sortByKeyLength_Permutation {V} (entries : list (string * V)) :
  sortByKeyLength entries ≡ₚ entries.
Proof.
  induction entries as [|x l IH]; simpl; [done|].
  rewrite insertByLength_Permutation. by rewrite IH.
Qed.

Lemma insertByLength_sorted {V} (x : string * V) l :
  StronglySorted byKeyLength l → StronglySorted byKeyLength (insertByLength x l).
Proof.
  induction 1 as [|y l Hl IH Hy]; simpl.
  - repeat constructor.
  - case_bool_decide as Hxy.
    + constructor; [by constructor|]. constructor; [done|].
      eapply Forall_impl; [exact Hy|]. unfold byKeyLength. intros z. lia.
    + constructor; [done|].
      rewrite insertByLength_Permutation. constructor; [|done].
      unfold byKeyLength. lia.
Qed.

Lemma sortByKeyLength_sorted {V} (entries : list (string * V)) :
  StronglySorted byKeyLength (sortByKeyLength entries).
Proof.
  induction entries as [|x l IH]; simpl; [constructor|].
  by apply insertByLength_sorted.
Qed.

(** The length is counted in UTF-16 code units: a key of three
    accented letters, six bytes long, is shorter than one of five
    ASCII letters and sorts before it. *)
Lemma sortByKeyLength_code_units :
  jsLength "./ééé" = 5%nat
  ∧ String.length "./ééé" = 8%nat
  ∧ jsLength "./😀" = 4%nat
  ∧ sortByKeyLength [("./abcde", 1%nat); ("./ééé", 2%nat)]
    = [("./ééé", 2%nat); ("./abcde", 1%nat)].
Proof. repeat split; reflexivity. Qed.

Lemma StronglySorted_filter {A} (R : relation A) (P : A → Prop)
    `{∀ x, Decision (P x)} l :
  StronglySorted R l → StronglySorted R (filter P l).
Proof.
  induction 1 as [|x l Hl IH Hx]; [constructor|].
  rewrite filter_cons. case_decide; [|done].
  constructor; [done|]. apply Forall_forall. intros y Hy.
  apply list_elem_of_filter in Hy as [_ Hy].
  by eapply Forall_forall in Hx.
Qed.

Lemma StronglySorted_lookup {A} (R : relation A) l i j x y :
  StronglySorted R l → (i < j)%nat →
  l !! i = Some x → l !! j = Some y → R x y.
Proof.
  intros Hl. revert i j. induction Hl as [|z l Hl IH Hz]; intros i j Hij Hi Hj.
  { by rewrite lookup_nil in Hi. }
  destruct j as [|j]; [lia|]. destruct i as [|i]; simpl in *.
  - injection Hi as ->. eapply Forall_forall in Hz; [done|].
    by eapply list_elem_of_lookup_2.
  - eapply (IH i j); [lia|done..].
Qed.

(** ** Paths *)

Lemma length_append (a b : string) :
  jsLength (a +:+ b) = (jsLength a + jsLength b)%nat.
Proof.
  induction a as [|c a IH]; [done|].
  change (codeUnits c + jsLength (a +:+ b)
          = codeUnits c + jsLength a + jsLength b)%nat.
  rewrite IH. lia.
Qed.

Lemma append_assoc (a b c : string) : (a +:+ b) +:+ c = a +:+ b +:+ c.
Proof.
  induction a as [|x a IH]; [done|].
  change (String x ((a +:+ b) +:+ c) = String x (a +:+ b +:+ c)).
  by f_equal.
Qed.

Lemma splitSlash_not_nil s : splitSlash s ≠ [].
Proof.
  destruct s as [|c s]; simpl; [done|].
  case_bool_decide; [done|]. by destruct (splitSlash s).
Qed.

Lemma joinSlash_cons p ps :
  ps ≠ [] → joinSlash (p :: ps) = p +:+ "/" +:+ joinSlash ps.
Proof. by destruct ps. Qed.

Lemma joinSlash_splitSlash s : joinSlash (splitSlash s) = s.
Proof.
  induction s as [|c s IH]; [done|]. simpl splitSlash.
  case_bool_decide as Hc.
  - rewrite joinSlash_cons by apply splitSlash_not_nil.
    simpl. by rewrite IH, Hc.
  - pose proof (splitSlash_not_nil s) as Hne.
    destruct (splitSlash s) as [|p ps]; [done|].
    destruct ps as [|q ps]; simpl in *; by rewrite <- IH.
Qed.

Lemma splitSlash_append a r :
  splitSlash (a +:+ "/" +:+ r) = splitSlash a ++ splitSlash r.
Proof.
  induction a as [|c a IH]; simpl.
  - done.
  - case_bool_decide; rewrite IH; [done|].
    pose proof (splitSlash_not_nil a) as Hne.
    by destruct (splitSlash a).
Qed.

Lemma joinSlash_app l1 l2 :
  l1 ≠ [] → l2 ≠ [] →
  joinSlash (l1 ++ l2) = joinSlash l1 +:+ "/" +:+ joinSlash l2.
Proof.
  intros Hl1 Hl2. induction l1 as [|p l1 IH]; [done|].
  destruct l1 as [|q l1].
  - simpl app. by rewrite joinSlash_cons.
  - change ((p :: q :: l1) ++ l2) with (p :: ((q :: l1) ++ l2)).
    rewrite !joinSlash_cons by done. rewrite IH by done.
    by rewrite !append_assoc.
Qed.

(** A key extended by ["/"] and more has the key among its ancestor
    paths. *)
Lemma ancestorPaths_prefix anc rest :
  anc ∈ ancestorPaths (anc +:+ "/" +:+ rest).
Proof.
  unfold ancestorPaths. rewrite splitSlash_append.
  apply list_elem_of_fmap. exists (length (splitSlash anc)). split.
  - by rewrite take_app_length, joinSlash_splitSlash.
  - apply elem_of_seq. rewrite length_app.
    pose proof (splitSlash_not_nil anc) as Ha.
    pose proof (splitSlash_not_nil rest) as Hr.
    destruct (splitSlash anc); [done|]. destruct (splitSlash rest); [done|].
    simpl. lia.
Qed.

(** An ancestor path is strictly shorter than the key. *)
Lemma ancestorPaths_shorter anc key :
  anc ∈ ancestorPaths key → (jsLength anc < jsLength key)%nat.
Proof.
  unfold ancestorPaths.
  intros (i & -> & Hi%elem_of_seq)%list_elem_of_fmap.
  rewrite <- (joinSlash_splitSlash key) at 2.
  rewrite <- (take_drop i (splitSlash key)) at 2.
  rewrite joinSlash_app.
  - rewrite !length_append. change (jsLength "/") with 1%nat. lia.
  - intros Hnil%(f_equal length). rewrite length_take in Hnil.
    simpl in Hnil. lia.
  - intros Hnil%(f_equal length). rewrite length_drop in Hnil.
    simpl in Hnil. lia.
Qed.

Lemma ancestorPaths_inv anc key :
  anc ∈ ancestorPaths key → ∃ rest, key = anc +:+ "/" +:+ rest.
Proof.
  unfold ancestorPaths.
  intros (i & -> & Hi%elem_of_seq)%list_elem_of_fmap.
  exists (joinSlash (drop i (splitSlash key))).
  rewrite <- (joinSlash_splitSlash key) at 1.
  rewrite <- (take_drop i (splitSlash key)) at 1.
  apply joinSlash_app.
  - intros Hnil%(f_equal length). rewrite length_take in Hnil.
    simpl in Hnil. lia.
  - intros Hnil%(f_equal length). rewrite length_drop in Hnil.
    simpl in Hnil. lia.
Qed.

(** The ancestor paths of an ancestor path are ancestor paths. *)
Lemma ancestorPaths_trans a b c :
  a ∈ ancestorPaths b → b ∈ ancestorPaths c → a ∈ ancestorPaths c.
Proof.
  intros [r1 ->]%ancestorPaths_inv [r2 ->]%ancestorPaths_inv.
  rewrite !append_assoc. apply ancestorPaths_prefix.
Qed.

Lemma hasArchivedAncestor_true key archivedPages :
  hasArchivedAncestor key archivedPages = true ↔
  ∃ anc, anc ∈ ancestorPaths key ∧ anc ∈ archivedPages.
Proof.
  unfold hasArchivedAncestor. rewrite existsb_exists. split.
  - intros (anc & Hin%list_elem_of_In & Hmem%bool_decide_eq_true). eauto.
  - intros (anc & Hin & Hmem). exists anc.
    by rewrite <- list_elem_of_In, bool_decide_eq_true.
Qed.

(** ** [syncToNotion] *)

Lemma Folder_ind' (P : Folder → Prop) :
  (∀ n fs subs, Forall P subs → P (MkFolder n fs subs)) → ∀ folder, P folder.
Proof.
  intros Hstep. fix IH 1. intros [n fs subs]. apply Hstep.
  induction subs as [|sub subs IHsubs]; constructor; [apply IH|exact IHsubs].
Qed.

Section SyncingProperties.
Variable notion : Client.
Variable maxRetryAttempts : Z.
Variable mergeBlocks : list block → list block → list edit.

Lemma emits_createOrUpdatePage (P : event → Prop)
    folderName parentId parentName linkMap :
  (∀ ms, P (Sleep ms)) →
  (∀ parent title, P (Call (PagesCreate parent title))) →
  emits P (createOrUpdatePage notion maxRetryAttempts folderName parentId
             parentName linkMap).
Proof.
  intros Hsleep Hcreate. unfold createOrUpdatePage.
  destruct (mapGet _ linkMap); [apply emits_ret|].
  apply emits_bind; [|intros; apply emits_ret].
  apply emits_retryWithBackoff; [|done]. by apply emits_notionCall.
Qed.

Lemma emits_syncFolder (P : event → Prop) dirName :
  (∀ ms, P (Sleep ms)) →
  (∀ parent title, P (Call (PagesCreate parent title))) →
  ∀ folder parentId parentName createFolder st,
    emits P (syncFolder notion maxRetryAttempts dirName folder parentId
               parentName createFolder st).
Proof.
  intros Hsleep Hcreate.
  induction folder as [n fs subs IH] using Folder_ind'.
  intros parentId parentName createFolder st. simpl.
  apply emits_bind.
  { destruct createFolder; [|apply emits_ret].
    by apply emits_createOrUpdatePage. }
  intros [folderPageId linkMap1]. apply emits_bind.
  - generalize ({| linkMapOf := linkMap1; pagesOf := pagesOf st;
                   folderPageIdsOf := {[folderPageId]} ∪ folderPageIdsOf st |}).
    induction fs as [|file fs IHfs]; intros st'; [apply emits_ret|].
    apply emits_bind; [by apply emits_createOrUpdatePage|].
    intros [pageId linkMap']. apply IHfs.
  - intros st2. revert st2.
    induction IH as [|sub subs Hsub _ IHsubs]; intros st2; [apply emits_ret|].
    apply emits_bind; [apply Hsub|]. intros st'. apply IHsubs.
Qed.

Lemma emits_syncPages (P : event → Prop) linkUrlMap syncStateManager pages :
  (∀ ms, P (Sleep ms)) →
  (∀ block_id chunk after, (length chunk ≤ NOTION_BLOCK_LIMIT)%nat →
     P (Call (BlocksChildrenAppend block_id chunk after))) →
  (∀ block_id, P (Call (BlocksDelete block_id))) →
  (∀ pageId, P (GetExistingBlocks pageId)) →
  (∀ fileName, P (SaveFileState fileName)) →
  emits P (syncPages notion maxRetryAttempts mergeBlocks linkUrlMap
             syncStateManager pages).
Proof.
  intros Hsleep Happend Hdelete Hget Hsave. apply emits_forEach.
  intros [pageId file] _. case_bool_decide; [apply emits_ret|].
  apply emits_bind; [by apply emits_updateBlocks|].
  intros _. destruct syncStateManager; [by apply emits_emit|apply emits_ret].
Qed.

Lemma emits_archivePage (P : event → Prop) archived :
  (∀ ms, P (Sleep ms)) → P (Call (PagesUpdateArchived archived)) →
  emits P (archivePage notion archived).
Proof.
  intros Hsleep Hcall. apply emits_retryWithBackoff; [|done].
  by apply emits_notionCall.
Qed.

Lemma emits_archiveOrphans (P : event → Prop) pageId processed entries :
  (∀ ms, P (Sleep ms)) →
  (∀ entry, entry ∈ entries → orphan pageId processed entry →
     P (Call (PagesUpdateArchived (link_id entry.2)))) →
  ∀ archivedPages,
    emits P (archiveOrphans notion pageId processed entries archivedPages).
Proof.
  intros Hsleep. induction entries as [|[key pageLink] entries IH];
    intros Hcall archivedPages; simpl; [apply emits_ret|].
  assert (∀ A, emits P (archiveOrphans notion pageId processed entries A))
    as IH'.
  { apply IH. intros entry Hin. apply Hcall. by right. }
  case_bool_decide as Hroot; [apply IH'|].
  case_bool_decide as Hproc; [apply IH'|].
  destruct (hasArchivedAncestor key archivedPages); [apply IH'|].
  apply emits_bind; [|intros; apply IH'].
  apply emits_archivePage; [done|].
  apply (Hcall (key, pageLink)); [by left|]. by split.
Qed.

(** The archival pass passes over the entries that are no orphans. *)
Lemma archiveOrphans_orphans pageId processed entries :
  ∀ archivedPages h,
    archiveOrphans notion pageId processed entries archivedPages h =
    archiveOrphans notion pageId processed
      (filter (orphan pageId processed) entries) archivedPages h.
Proof.
  induction entries as [|[key pageLink] entries IH]; intros A h; [done|].
  rewrite filter_cons. simpl archiveOrphans at 1.
  destruct (decide (orphan pageId processed (key, pageLink))) as [[Hr Hp]|Hno].
  - simpl in Hr, Hp. simpl.
    rewrite !bool_decide_eq_false_2 by done.
    destruct (hasArchivedAncestor key A); [apply IH|].
    unfold mbind, async_bind.
    destruct (archivePage notion (link_id pageLink) h) as [es [[]|e]]; [|done].
    by rewrite IH.
  - unfold orphan in Hno. simpl in Hno.
    case_bool_decide; [apply IH|]. case_bool_decide; [apply IH|]. tauto.
Qed.
End SyncingProperties.

Section ArchivalProperties.
Variable notion : Client.
Variable pageId : string.
Variable processed : gset string.

Lemma archiveOrphans_archive key pageLink others archivedPages h :
  orphan pageId processed (key, pageLink) →
  hasArchivedAncestor key archivedPages = false →
  archiveOrphans notion pageId processed ((key, pageLink) :: others)
    archivedPages h =
  (archivePage notion (link_id pageLink);;
   archiveOrphans notion pageId processed others ({[key]} ∪ archivedPages)) h.
Proof.
  intros [Hroot Hproc] Hanc. simpl in *.
  by rewrite !bool_decide_eq_false_2, Hanc by done.
Qed.

Lemma archiveOrphans_skip key pageLink others archivedPages h :
  hasArchivedAncestor key archivedPages = true →
  archiveOrphans notion pageId processed ((key, pageLink) :: others)
    archivedPages h =
  archiveOrphans notion pageId processed others archivedPages h.
Proof.
  intros Hanc. simpl. rewrite Hanc. by repeat case_bool_decide.
Qed.

End ArchivalProperties.

(** C8.  No run of [syncToNotion] with the archival pass enabled issues
    an archive call on the root page: every archive call is on a page
    whose id differs from [pageId] once the dashes are removed, whatever
    the page index contains. *)
Theorem syncToNotion_spares_root (notion : Client) (maxRetryAttempts : Z)
    (mergeBlocks : list block → list block → list edit)
    (pageId : string) (dir : Folder) (linkMap : PageIndex)
    (syncStateManager : bool) :
  emits (sparesRootPage pageId)
    (syncToNotion notion maxRetryAttempts mergeBlocks pageId dir linkMap
       true syncStateManager).
Proof.
  assert (∀ ev, isArchiveCall ev = false → sparesRootPage pageId ev) as Hother.
  { intros ev Hev archived ->. done. }
  unfold syncToNotion. apply emits_bind.
  { apply emits_syncFolder; intros; by apply Hother. }
  intros st. apply emits_bind.
  { apply emits_syncPages; intros; by apply Hother. }
  intros _. apply emits_bind.
  { destruct syncStateManager; [apply emits_emit; by apply Hother|].
    apply emits_ret. }
  intros _. apply emits_bind; [|intros; apply emits_ret].
  apply emits_bind; [|intros; apply emits_ret].
  apply emits_archiveOrphans.
  - intros ms. by apply Hother.
  - intros entry _ [Hroot _] archived [= <-]. done.
Qed.

(** C8 on an index that lists the root page under its dashed id next to
    an orphan: the orphan is archived, the root page is not. *)
Lemma syncToNotion_spares_root_witness :
  let linkMap : PageIndex :=
    [("./Root", {| link_id := "ab-cd"; link := "" |});
     ("./old", {| link_id := "x1"; link := "" |})] in
  let run := syncToNotion quietClient 3 mergeBlocks "abcd"
               (MkFolder "." [] []) linkMap true false [] in
  run.1 = [Call (PagesUpdateArchived "x1")]
  ∧ Forall (sparesRootPage "abcd") run.1.
Proof.
  intros linkMap run. split.
  - vm_compute. reflexivity.
  - apply (syncToNotion_spares_root quietClient 3 mergeBlocks "abcd"
             (MkFolder "." [] []) linkMap false []).
Defined.

(** C3.  When the page index holds orphans under the keys [./docs],
    [./docs/a] and [./docs/b] and no other orphan, the archival pass
    does what one [archivePage] of the page of [./docs] does and nothing
    else: the other two are passed over, [./docs] being archived by
    then. *)
Theorem archiveOrphans_docs (notion : Client) (pageId : string)
    (processed : gset string) (linkMap : PageIndex)
    (docs a b : NotionPageLink) (h : history) :
  NoDup linkMap.*1 →
  ("./docs", docs) ∈ linkMap →
  ("./docs/a", a) ∈ linkMap →
  ("./docs/b", b) ∈ linkMap →
  orphan pageId processed ("./docs", docs) →
  orphan pageId processed ("./docs/a", a) →
  orphan pageId processed ("./docs/b", b) →
  (∀ entry, entry ∈ linkMap →
     entry.1 ∉ ["./docs"; "./docs/a"; "./docs/b"] →
     ¬ orphan pageId processed entry) →
  archiveOrphans notion pageId processed (sortByKeyLength linkMap) ∅ h =
  (archivePage notion (link_id docs);; mret {["./docs"]}) h.
Proof.
  intros Hkeys Hdocs Ha Hb Odocs Oa Ob Hothers.
  rewrite archiveOrphans_orphans.
  set (L := filter (orphan pageId processed) (sortByKeyLength linkMap)).
  assert (StronglySorted byKeyLength L) as Hsorted.
  { apply StronglySorted_filter, sortByKeyLength_sorted. }
  assert (∀ key pl pl', (key, pl) ∈ linkMap → (key, pl') ∈ linkMap → pl = pl')
    as Hfun.
  { intros key pl pl' [i Hi]%list_elem_of_lookup_1 [j Hj]%list_elem_of_lookup_1.
    assert (i = j) as ->; [|congruence].
    eapply NoDup_lookup; [exact Hkeys| |];
      rewrite list_lookup_fmap; [by rewrite Hi|by rewrite Hj]. }
  assert (L ≡ₚ [("./docs", docs); ("./docs/a", a); ("./docs/b", b)]) as Hperm.
  { apply NoDup_Permutation.
    - apply NoDup_filter. rewrite sortByKeyLength_Permutation.
      by eapply NoDup_fmap_1.
    - apply (NoDup_fmap_1 fst). simpl.
      apply (bool_decide_unpack _). by vm_compute.
    - intros [key pl]. unfold L.
      rewrite list_elem_of_filter, sortByKeyLength_Permutation. split.
      + intros [Horphan Hin].
        destruct (decide (key ∈ ["./docs"; "./docs/a"; "./docs/b"]))
          as [Hkey|Hkey]; [|by destruct (Hothers _ Hin Hkey)].
        rewrite !elem_of_cons in Hkey.
        destruct Hkey as [->|[->|[->|Hnil]]].
        * rewrite (Hfun _ _ _ Hin Hdocs). listed.
        * rewrite (Hfun _ _ _ Hin Ha). listed.
        * rewrite (Hfun _ _ _ Hin Hb). listed.
        * by apply elem_of_nil in Hnil.
      + rewrite !elem_of_cons.
        intros [[= -> ->]|[[= -> ->]|[[= -> ->]|Hnil]]]; [done..|].
        by apply elem_of_nil in Hnil. }
  clearbody L.
  destruct L as [|first L'].
  { by apply Permutation_nil_l in Hperm. }
  apply StronglySorted_inv in Hsorted as [Hsorted' Hfirst].
  assert (first = ("./docs", docs)) as ->.
  { assert (first ∈ [("./docs", docs); ("./docs/a", a); ("./docs/b", b)])
      as Hin by (rewrite <- Hperm; by left).
    assert (("./docs", docs) ∈ first :: L') as Hd by (rewrite Hperm; by left).
    apply elem_of_cons in Hd as [Hd|Hd]; [done|].
    eapply Forall_forall in Hfirst; [|exact Hd]. unfold byKeyLength in Hfirst.
    rewrite !elem_of_cons in Hin.
    destruct Hin as [->|[->|[->|Hnil]]]; [done|simpl in Hfirst; lia..|].
    by apply elem_of_nil in Hnil. }
  apply Permutation.Permutation_cons_inv in Hperm.
  assert (hasArchivedAncestor "./docs" ∅ = false) as Hnone.
  { destruct (hasArchivedAncestor "./docs" ∅) eqn:Hanc; [|done].
    apply hasArchivedAncestor_true in Hanc as (anc & _ & Hin).
    by apply elem_of_empty in Hin. }
  assert (∀ leaf, hasArchivedAncestor ("./docs" +:+ "/" +:+ leaf)
                    ({["./docs"]} ∪ ∅) = true) as Hunder.
  { intros leaf. apply hasArchivedAncestor_true. exists "./docs".
    split; [apply ancestorPaths_prefix|].
    apply elem_of_union. left. by apply elem_of_singleton. }
  rewrite archiveOrphans_archive by done.
  unfold mbind, async_bind.
  destruct (archivePage notion (link_id docs) h) as [es [[]|e]]; [|done].
  apply Permutation_sym, Permutation_length_2_inv in Hperm as [->| ->].
  - rewrite (archiveOrphans_skip _ _ _ "./docs/a") by apply (Hunder "a").
    rewrite (archiveOrphans_skip _ _ _ "./docs/b") by apply (Hunder "b").
    simpl. by rewrite union_empty_r_L.
  - rewrite (archiveOrphans_skip _ _ _ "./docs/b") by apply (Hunder "b").
    rewrite (archiveOrphans_skip _ _ _ "./docs/a") by apply (Hunder "a").
    simpl. by rewrite union_empty_r_L.
Qed.

(** C3 on an index that also holds the root page and a page touched
    during the run, the three orphans being inserted children first. *)
Lemma archiveOrphans_docs_witness :
  let D := {| link_id := "d"; link := "" |} in
  let A := {| link_id := "a"; link := "" |} in
  let B := {| link_id := "b"; link := "" |} in
  let linkMap : PageIndex :=
    [("./docs/b", B); ("./Root", {| link_id := "ro-ot"; link := "" |});
     ("./docs/a", A); ("./kept", {| link_id := "k"; link := "" |});
     ("./docs", D)] in
  let processed : gset string := {["k"]} in
  NoDup linkMap.*1
  ∧ orphan "root" processed ("./docs", D)
  ∧ orphan "root" processed ("./docs/a", A)
  ∧ orphan "root" processed ("./docs/b", B)
  ∧ archiveOrphans quietClient "root" processed (sortByKeyLength linkMap) ∅ []
    = ([Call (PagesUpdateArchived "d")], Ok {["./docs"]}).
Proof.
  intros D A B linkMap processed.
  assert (NoDup linkMap.*1) as Hkeys.
  { apply (bool_decide_unpack _). by vm_compute. }
  assert (∀ key pl, orphan "root" processed
            (key, {| link_id := pl; link := "" |}) ↔
            removeDashes pl ≠ "root" ∧ pl ≠ "k") as Horphan.
  { intros key pl. unfold orphan, processed. simpl.
    by rewrite elem_of_singleton. }
  assert (orphan "root" processed ("./docs", D)) as OD.
  { by apply Horphan. }
  assert (orphan "root" processed ("./docs/a", A)) as OA.
  { by apply Horphan. }
  assert (orphan "root" processed ("./docs/b", B)) as OB.
  { by apply Horphan. }
  split; [done|]. split; [done|]. split; [done|]. split; [done|].
  rewrite (archiveOrphans_docs quietClient "root" processed linkMap D A B []
             Hkeys ltac:(unfold linkMap; listed) ltac:(unfold linkMap; listed)
             ltac:(unfold linkMap; listed) OD OA OB); [reflexivity|].
  intros entry Hin Hkey. unfold linkMap in Hin.
  rewrite !elem_of_cons in Hin.
  destruct Hin as [->|[->|[->|[->|[->|Hnil]]]]].
  - destruct Hkey. simpl. listed.
  - rewrite Horphan. simpl. tauto.
  - destruct Hkey. simpl. listed.
  - rewrite Horphan. tauto.
  - destruct Hkey. simpl. listed.
  - by apply elem_of_nil in Hnil.
Defined.

Section TopOrphans.
Variable notion : Client.
Variable pageId : string.
Variable processed : gset string.
Variable linkMap : PageIndex.

(** An orphan that is not on top lies below an orphan that is. *)
Lemma topOrphan_above (n : nat) : ∀ entry,
  (jsLength entry.1 < n)%nat →
  entry ∈ linkMap →
  orphan pageId processed entry →
  ¬ topOrphan pageId processed linkMap entry →
  ∃ above, above ∈ linkMap
           ∧ topOrphan pageId processed linkMap above
           ∧ above.1 ∈ ancestorPaths entry.1.
Proof.
  induction n as [|n IH]; intros entry Hlen Hin Horphan Hnot; [lia|].
  assert (∃ anc above, anc ∈ ancestorPaths entry.1 ∧ above ∈ linkMap
                       ∧ above.1 = anc ∧ orphan pageId processed above)
    as (anc & above & Hanc & Habove & Hkey & Oabove).
  { destruct (decide (Exists (λ anc,
        Exists (λ above : string * NotionPageLink,
                  above.1 = anc ∧ orphan pageId processed above) linkMap)
        (ancestorPaths entry.1))) as [Hex|Hno].
    - apply Exists_exists in Hex as (anc & Hanc & Hex).
      apply Exists_exists in Hex as (above & Habove & Hkey & Oabove).
      by eauto 10.
    - destruct Hnot. split; [done|].
      apply Forall_forall. intros anc Hanc.
      apply Forall_forall. intros above Habove Hkey Oabove.
      apply Hno, Exists_exists. exists anc. split; [done|].
      apply Exists_exists. by eauto. }
  subst anc.
  destruct (decide (topOrphan pageId processed linkMap above)) as [Htop|Hlow].
  { by eauto. }
  pose proof (ancestorPaths_shorter _ _ Hanc) as Hshort.
  destruct (IH above ltac:(lia) Habove Oabove Hlow)
    as (top & Hin' & Htop & Hanc').
  exists top. split; [done|]. split; [done|].
  by eapply ancestorPaths_trans.
Qed.

(** The pass over the entries that are left, when the archived keys are
    those of the top orphans passed so far. *)
Lemma archiveOrphans_top (rest : list (string * NotionPageLink)) :
  ∀ (passed : list (string * NotionPageLink)) (archivedPages : gset string)
    (h : history),
    StronglySorted byKeyLength rest →
    (∀ entry, entry ∈ linkMap ↔ entry ∈ passed ++ rest) →
    (∀ key, key ∈ archivedPages ↔
            ∃ entry, entry ∈ passed
                     ∧ topOrphan pageId processed linkMap entry
                     ∧ entry.1 = key) →
    archiveOrphans notion pageId processed rest archivedPages h
    = (forEach (λ entry, archivePage notion (link_id entry.2))
         (filter (topOrphan pageId processed linkMap) rest);;
       mret (archivedPages
             ∪ list_to_set
                 (filter (topOrphan pageId processed linkMap) rest).*1)) h.
Proof.
  induction rest as [|[key pageLink] rest IH];
    intros passed A h Hsorted Hall Harchived.
  { simpl. unfold mbind, async_bind, mret, async_ret. simpl.
    by rewrite union_empty_r_L. }
  apply StronglySorted_inv in Hsorted as [Hsorted Hfirst].
  assert (∀ entry, entry ∈ linkMap ↔ entry ∈ (passed ++ [(key, pageLink)]) ++ rest)
    as Hall'.
  { intros entry. by rewrite Hall, <- app_assoc. }
  rewrite filter_cons.
  destruct (decide (topOrphan pageId processed linkMap (key, pageLink)))
    as [[Horphan Htop]|Hlow].
  - assert (hasArchivedAncestor key A = false) as Hnone.
    { destruct (hasArchivedAncestor key A) eqn:Hanc; [|done].
      apply hasArchivedAncestor_true in Hanc as (anc & Hanc & HA).
      apply Harchived in HA as (above & Habove & [Oabove _] & Hkey).
      eapply Forall_forall in Htop; [|exact Hanc].
      eapply Forall_forall in Htop;
        [|apply Hall, elem_of_app; left; exact Habove].
      by destruct (Htop Hkey). }
    rewrite archiveOrphans_archive by done.
    cbn [forEach fmap list_fmap list_to_set foldr fst snd].
    unfold mbind, async_bind.
    destruct (archivePage notion (link_id pageLink) h) as [es [[]|e]]; [|done].
    rewrite (IH (passed ++ [(key, pageLink)]) ({[key]} ∪ A) (h ++ es)
               Hsorted Hall').
    + unfold mbind, async_bind.
      destruct (forEach _ _ (h ++ es)) as [es' [[]|e']]; [|done].
      unfold mret, async_ret. simpl. rewrite !app_nil_r. do 2 f_equal.
      by rewrite (union_comm_L {[key]} A), <- union_assoc_L.
    + intros k. rewrite elem_of_union, elem_of_singleton, Harchived. split.
      * intros [->|(entry & Hin & Htop' & Hkey)].
        -- exists (key, pageLink). rewrite elem_of_app.
           split; [right; by left|]. by split.
        -- exists entry. rewrite elem_of_app. by eauto.
      * intros (entry & [Hin|Hin%list_elem_of_singleton]%elem_of_app
                & Htop' & Hkey).
        -- right. by eauto.
        -- left. by subst.
  - assert (archiveOrphans notion pageId processed ((key, pageLink) :: rest) A h
            = archiveOrphans notion pageId processed rest A h) as ->.
    { destruct (decide (orphan pageId processed (key, pageLink)))
        as [Horphan|Hno].
      - apply archiveOrphans_skip, hasArchivedAncestor_true.
        destruct (topOrphan_above (S (jsLength key)) (key, pageLink))
          as (above & Habove & Htop & Hanc); [simpl; lia| |done|done|].
        { apply Hall, elem_of_app. right. by left. }
        exists above.1. split; [done|]. apply Harchived.
        exists above. split; [|done].
        apply Hall, elem_of_app in Habove as [Habove|Habove]; [done|].
        apply ancestorPaths_shorter in Hanc. simpl in Hanc.
        apply elem_of_cons in Habove as [->|Habove]; [simpl in Hanc; lia|].
        eapply Forall_forall in Hfirst; [|exact Habove].
        unfold byKeyLength in Hfirst. simpl in Hfirst. lia.
      - unfold orphan in Hno. simpl in *.
        case_bool_decide; [done|]. case_bool_decide; [done|]. tauto. }
    apply (IH (passed ++ [(key, pageLink)])); [done..|].
    intros k. rewrite Harchived. split.
    + intros (entry & Hin & Htop & Hkey). exists entry.
      rewrite elem_of_app. by eauto.
    + intros (entry & [Hin|Hin%list_elem_of_singleton]%elem_of_app
              & Htop & Hkey); [by eauto|]. by subst.
Qed.
End TopOrphans.

(** C4.  The archival pass goes through the entries of the page index
    sorted by ascending key length, which puts an entry before every
    entry whose key extends its key by ["/"] and more.  What the pass
    then does is one [archivePage] after the other for the orphans that
    no orphan lies above, in that order, and nothing else: an orphaned
    folder's page is attempted when none of its descendants has been,
    and every orphan whose key extends an archived key is passed over
    without any call.  The pass ends with the first [archivePage] that
    throws, or with the keys of these top orphans as the archived
    ones. *)
Theorem archiveOrphans_ancestors_first (notion : Client) (pageId : string)
    (processed : gset string) (linkMap : PageIndex) (h : history) :
  let sortedEntries := sortByKeyLength linkMap in
  let attempted :=
    filter (topOrphan pageId processed linkMap) sortedEntries in
  (sortedEntries ≡ₚ linkMap ∧ StronglySorted byKeyLength sortedEntries)
  ∧ (∀ i j anc rest pageLink pageLink',
       sortedEntries !! i = Some (anc, pageLink) →
       sortedEntries !! j = Some (anc +:+ "/" +:+ rest, pageLink') →
       (i < j)%nat)
  ∧ archiveOrphans notion pageId processed sortedEntries ∅ h
    = (forEach (λ entry, archivePage notion (link_id entry.2)) attempted;;
       mret (list_to_set attempted.*1)) h
  ∧ (∀ entry anc rest,
       entry ∈ attempted → anc ∈ linkMap →
       orphan pageId processed anc →
       entry.1 ≠ anc.1 +:+ "/" +:+ rest)
  ∧ (∀ anc rest pageLink others archivedPages h',
       anc ∈ archivedPages →
       archiveOrphans notion pageId processed
         ((anc +:+ "/" +:+ rest, pageLink) :: others) archivedPages h' =
       archiveOrphans notion pageId processed others archivedPages h').
Proof.
  intros sortedEntries attempted.
  split; [|split; [|split; [|split]]].
  - split; [apply sortByKeyLength_Permutation|apply sortByKeyLength_sorted].
  - intros i j anc rest pageLink pageLink' Hi Hj.
    destruct (decide (i < j)%nat) as [|Hge]; [done|].
    pose proof (ancestorPaths_shorter _ _ (ancestorPaths_prefix anc rest))
      as Hshort.
    destruct (decide (i = j)) as [->|Hne].
    + rewrite Hi in Hj. injection Hj as Heq _. rewrite <- Heq in Hshort. lia.
    + pose proof (StronglySorted_lookup byKeyLength _ j i _ _
                    (sortByKeyLength_sorted linkMap) ltac:(lia) Hj Hi) as Hle.
      unfold byKeyLength in Hle. simpl in Hle. lia.
  - rewrite (archiveOrphans_top notion pageId processed linkMap
               sortedEntries [] ∅ h).
    + by rewrite union_empty_l_L.
    + apply sortByKeyLength_sorted.
    + intros entry. unfold sortedEntries.
      by rewrite app_nil_l, sortByKeyLength_Permutation.
    + intros key. split; [by intros ?%elem_of_empty|].
      by intros (entry & ?%elem_of_nil & _).
  - intros entry anc rest [[_ Htop] _]%list_elem_of_filter Hin Horphan Hkey.
    eapply Forall_forall in Htop.
    + eapply Forall_forall in Htop; [|exact Hin]. by destruct (Htop eq_refl).
    + rewrite Hkey. apply ancestorPaths_prefix.
  - intros anc rest pageLink others archivedPages h' Hanc.
    apply archiveOrphans_skip, hasArchivedAncestor_true.
    exists anc. split; [apply ancestorPaths_prefix|done].
Qed.

(** C4 on an index that holds two orphaned folders with pages below
    them, inserted children first, next to a page in use: the two
    folder pages are archived, the shorter key first, and nothing
    else. *)
Lemma archiveOrphans_ancestors_first_witness :
  let linkMap : PageIndex :=
    [("./docs/a/deep", {| link_id := "p4"; link := "" |});
     ("./docs/a", {| link_id := "p3"; link := "" |});
     ("./kept", {| link_id := "k"; link := "" |});
     ("./notes/b", {| link_id := "p2"; link := "" |});
     ("./notes", {| link_id := "p1"; link := "" |});
     ("./docs", {| link_id := "p0"; link := "" |})] in
  let processed : gset string := {["k"]} in
  archiveOrphans quietClient "root" processed (sortByKeyLength linkMap) ∅ []
  = ([Call (PagesUpdateArchived "p0"); Call (PagesUpdateArchived "p1")],
     Ok {["./docs"; "./notes"]}).
Proof.
  intros linkMap processed.
  destruct (archiveOrphans_ancestors_first quietClient "root" processed
              linkMap []) as (_ & _ & -> & _).
  vm_compute. reflexivity.
Defined.

(** ** The Block Merge Engine *)

Lemma sameTree_eq a b :
  sameTree a b = sameContent a b && sameTrees (childrenOf a) (childrenOf b).
Proof.
  destruct a as [i t p [cs|]]; simpl; [done|].
  f_equal. unfold childrenOf.
  by destruct (children b) as [[|x l]|].
Qed.

Lemma blocksSize_cons b (l : list block) :
  blocksSize (b :: l) = (blockSize b + blocksSize l)%nat.
Proof. done. Qed.

Lemma blockSize_children b :
  blockSize b = S (blocksSize (childrenOf b)).
Proof. by destruct b as [i t p [cs|]]. Qed.

Lemma blocksSize_drop n (l : list block) :
  (blocksSize (drop n l) ≤ blocksSize l)%nat.
Proof.
  revert n. induction l as [|b l IH]; intros [|n]; simpl drop; [lia..|].
  rewrite blocksSize_cons. specialize (IH n). lia.
Qed.

(** The walk always completes within the fuel [mergeBlocks] gives it. *)
Lemma mergeWalk_total fuel : ∀ existing desired last,
  (blocksSize existing + blocksSize desired < fuel)%nat →
  is_Some (mergeWalk fuel existing desired last).
Proof.
  induction fuel as [|fuel IH]; intros existing desired last Hfuel; [lia|].
  destruct existing as [|e es], desired as [|d ds]; simpl; [by eauto..|].
  rewrite !blocksSize_cons, (blockSize_children e), (blockSize_children d)
    in Hfuel.
  assert (∀ i, is_Some
            (rest ← mergeWalk fuel (drop i es) (d :: ds) last;
             Some ((DeleteEdit <$> e :: take i es) ++ rest))) as HskipE.
  { intros i. destruct (IH (drop i es) (d :: ds) last) as [rest ->];
      [|by eauto].
    pose proof (blocksSize_drop i es) as Hle.
    rewrite blocksSize_cons, (blockSize_children d). lia. }
  assert (∀ j, is_Some
            (rest ← mergeWalk fuel (e :: es) (drop j ds) last;
             Some (AppendEdit (d :: take j ds) last :: rest))) as HskipD.
  { intros j. destruct (IH (e :: es) (drop j ds) last) as [rest ->];
      [|by eauto].
    pose proof (blocksSize_drop j ds) as Hle.
    rewrite blocksSize_cons, (blockSize_children e). lia. }
  destruct (sameContent e d).
  - destruct (IH (childrenOf e) (childrenOf d) None) as [inner ->]; [lia|].
    destruct (IH es ds (Some e)) as [rest ->]; [lia|by eauto].
  - destruct (findSame d es) as [i|], (findSame e ds) as [j|].
    + case_bool_decide; [apply HskipE|apply HskipD].
    + apply HskipE.
    + apply HskipD.
    + by eauto.
Qed.

(** On content-equal lists the walk asks for nothing. *)
Lemma mergeWalk_same fuel : ∀ existing desired last,
  sameTrees existing desired = true →
  (blocksSize existing + blocksSize desired < fuel)%nat →
  mergeWalk fuel existing desired last = Some [].
Proof.
  induction fuel as [|fuel IH]; intros existing desired last Hsame Hfuel;
    [lia|].
  destruct existing as [|e es], desired as [|d ds]; simpl in Hsame;
    try done.
  rewrite !blocksSize_cons, (blockSize_children e), (blockSize_children d)
    in Hfuel.
  apply andb_true_iff in Hsame as [Hed Hrest].
  rewrite sameTree_eq in Hed. apply andb_true_iff in Hed as [Hcontent Hkids].
  simpl. rewrite Hcontent.
  rewrite (IH (childrenOf e) (childrenOf d) None Hkids) by lia.
  rewrite (IH es ds (Some e) Hrest) by lia. done.
Qed.

Lemma mergeBlocks_same existing desired :
  sameTrees existing desired = true → mergeBlocks existing desired = [].
Proof.
  intros Hsame. unfold mergeBlocks. by rewrite mergeWalk_same by (done || lia).
Qed.


(** C1, where it fails.  Two runs of [syncToNotion] in succession,
    without [syncStateManager] and without the archival pass, on a
    local tree of one file of 101 paragraphs and a remote side that
    starts empty and keeps what it is sent.  The first run creates the
    page and appends the paragraphs in two calls; the page then holds
    the 101 blocks of the file.  The second run reads them as 102
    blocks, [getAllBlockPages] having fetched the second page of the
    listing twice, and so the merge engine, which asks for nothing on
    content-equal lists, asks for the last block read to be deleted:
    the run issues a delete call, and the page is left with the first
    100 blocks of the file. *)
Theorem syncToNotion_twice_deletes :
  let first :=
    syncToNotion Store.client MAX_RETRY_ATTEMPTS mergeBlocks "root"
      (notesOf 101) [] false false [] in
  ∃ linkMap read,
    first.2 = Ok linkMap
    ∧ filter (λ ev, isAppendCall ev || isDeleteCall ev = true) first.1
      = [Call (BlocksChildrenAppend "root/notes" (paragraphs 100) None);
         Call (BlocksChildrenAppend "root/notes" (drop 100 (paragraphs 101))
                 None)]
    ∧ sameTrees (Store.under "root/notes" (Store.after first.1))
        (paragraphs 101) = true
    ∧ mergeBlocks (Store.under "root/notes" (Store.after first.1))
        (paragraphs 101) = []
    ∧ existing_blocks Store.client first.1 "root/notes" = Ok read
    ∧ length read = 102%nat
    ∧ let second :=
        syncToNotion Store.client MAX_RETRY_ATTEMPTS mergeBlocks "root"
          (notesOf 101) linkMap false false first.1 in
      second.2 = Ok linkMap
      ∧ filter (λ ev, isAppendCall ev || isDeleteCall ev = true) second.1
        = [Call (BlocksDelete (Some "b100"))]
      ∧ sameTrees
          (Store.under "root/notes" (Store.after (first.1 ++ second.1)))
          (paragraphs 100) = true.
Proof.
  intros first.
  destruct first.2 as [linkMap|e] eqn:Hfirst; [|by vm_compute in Hfirst].
  destruct (existing_blocks Store.client first.1 "root/notes")
    as [read|e] eqn:Hread; [|by vm_compute in Hread].
  exists linkMap, read. split; [reflexivity|].
  split; [vm_compute; reflexivity|].
  assert (sameTrees (Store.under "root/notes" (Store.after first.1))
            (paragraphs 101) = true) as Hsame by (vm_compute; reflexivity).
  split; [exact Hsame|]. split; [exact (mergeBlocks_same _ _ Hsame)|].
  split; [reflexivity|].
  vm_compute in Hfirst. injection Hfirst as <-.
  vm_compute in Hread. injection Hread as <-.
  split; [reflexivity|]. vm_compute. repeat split.
Qed.

(** With a file of 100 paragraphs the listing of the page has one page
    only, and the second run issues no append and no delete call. *)
Lemma syncToNotion_twice_short :
  let first :=
    syncToNotion Store.client MAX_RETRY_ATTEMPTS mergeBlocks "root"
      (notesOf 100) [] false false [] in
  ∃ linkMap,
    first.2 = Ok linkMap
    ∧ (syncToNotion Store.client MAX_RETRY_ATTEMPTS mergeBlocks "root"
         (notesOf 100) linkMap false false first.1).1
      = [GetExistingBlocks "root/notes"].
Proof.
  intros first.
  destruct first.2 as [linkMap|e] eqn:Hfirst; [|by vm_compute in Hfirst].
  exists linkMap. split; [reflexivity|].
  vm_compute in Hfirst. injection Hfirst as <-. vm_compute. reflexivity.
Qed.

(** What the second run reads is what the [getExistingBlocks] of the
    code returns on the listing of the page: the blocks of its first
    page, then those of its second page twice. *)
Lemma getExistingBlocks_reads_twice :
  let first :=
    syncToNotion Store.client MAX_RETRY_ATTEMPTS mergeBlocks "root"
      (notesOf 101) [] false false [] in
  let held := Store.under "root/notes" (Store.after first.1) in
  (Read.getExistingBlocks Store.list_from DEFAULT_PARALLEL_LIMIT
     DEFAULT_REQUEST_DELAY MAX_RETRY_ATTEMPTS 4 (λ _ _, []) "root/notes"
     10 0 first.1)
  = (replicate 3 (Call (BlocksChildrenList "root/notes")),
     Ok (Some (held ++ drop 100 held))).
Proof. vm_compute. reflexivity. Qed.

(** ** [collectCurrentFiles] *)

Lemma retryLoop_answer {A} (r : request) (answer : history → result A)
    maxAttempts initialDelay iters :
  ∀ attempt lastError h a,
    (retryLoop (notionCall r answer) maxAttempts initialDelay iters attempt
       lastError h).2 = Ok a →
    ∃ h', answer h' = Ok a.
Proof.
  induction iters as [|iters IH]; intros attempt lastError h a; [done|].
  destruct (decide (attempt ≤ maxAttempts)) as [Hle|Hgt].
  2:{ simpl. by rewrite bool_decide_eq_false_2. }
  rewrite retryLoop_step by done. unfold notionCall at 1.
  destruct (answer h) as [a'|e] eqn:Hanswer; simpl.
  { intros [= <-]. eauto. }
  destruct (bool_decide (attempt = maxAttempts) || negb (isRateLimit e));
    [done|].
  pose proof (IH (attempt + 1) (Some e)
                ((h ++ [Call r])
                 ++ [Sleep (initialDelay * 2 ^ (attempt - 1))]) a) as IH'.
  destruct (retryLoop _ _ _ _ _ _ _) as [es' r']. simpl in *. exact IH'.
Qed.

Lemma mapSet_elem_of {V} (key : string) (v : V) m entry :
  entry ∈ mapSet key v m → entry = (key, v) ∨ entry ∈ m.
Proof.
  induction m as [|[k w] m IH]; simpl.
  - intros ->%list_elem_of_singleton. by left.
  - case_bool_decide as Hk.
    + intros [->|Hin]%elem_of_cons; [left; by subst|right; by right].
    + intros [->|Hin]%elem_of_cons; [right; by left|].
      destruct (IH Hin); [by left|right; by right].
Qed.

Lemma list_elem_of_insert_inv {A} (l : list A) i x y :
  y ∈ <[i:=x]> l → y = x ∨ y ∈ l.
Proof.
  destruct (decide (i < length l)%nat) as [Hi|Hi].
  - rewrite insert_take_drop by done.
    intros [Hin|[->|Hin]%elem_of_cons]%elem_of_app; [right|by left|right].
    + by apply (subseteq_take i l).
    + by apply (subseteq_drop (S i) l).
  - rewrite list_insert_ge by lia. by right.
Qed.

Section CrawlProperties.
Variable notion : Client.
Variable rootPageId : string.
Variables parallelLimit requestDelay maxRetryAttempts : Z.
Variable maxDepth : option Z.

Abbreviation invariant := (Collect.invariant notion rootPageId maxDepth).
Abbreviation atDepth := (Collect.atDepth notion rootPageId).
Abbreviation step :=
  (Collect.step notion rootPageId parallelLimit requestDelay maxRetryAttempts
     maxDepth).
Abbreviation run :=
  (Collect.run notion rootPageId parallelLimit requestDelay maxRetryAttempts
     maxDepth).
Abbreviation start := (Collect.start rootPageId maxDepth).
Abbreviation fetchPage := (Collect.fetchPage notion maxRetryAttempts).

Lemma fetchPage_answers pageId h es pageResponse childrenResponse :
  fetchPage pageId h = (es, Ok (pageResponse, childrenResponse)) →
  (∃ h', pages_retrieve notion h' pageId = Ok pageResponse)
  ∧ (∃ h', blocks_children_list notion h' pageId = Ok childrenResponse).
Proof.
  unfold Collect.fetchPage.
  destruct (retryWithBackoff _ _ _ h) as [es1 [r1|e1]] eqn:Hpage.
  - destruct (retryWithBackoff _ _ _ (h ++ es1)) as [es2 [r2|e2]] eqn:Hlist;
      [|done].
    intros [= _ <- <-].
    apply (f_equal snd) in Hpage. apply (f_equal snd) in Hlist.
    split; by eapply retryLoop_answer.
  - by destruct (retryWithBackoff _ _ _ (h ++ es1)) as [es2 [r2|e2]].
Qed.

Lemma fetchPage_events pageId h :
  Forall (λ ev, (∃ ms, ev = Sleep ms)
                ∨ ev = Call (PagesRetrieve pageId)
                ∨ ev = Call (BlocksChildrenList pageId))
    (fetchPage pageId h).1.
Proof.
  set (P := λ ev, (∃ ms, ev = Sleep ms) ∨ ev = Call (PagesRetrieve pageId)
                  ∨ ev = Call (BlocksChildrenList pageId)).
  assert (∀ r (answer : history → result GetPageResponse), P (Call r) →
            emits P (retryWithBackoff (notionCall r answer) maxRetryAttempts
                       INITIAL_RETRY_DELAY)) as Hretrieve.
  { intros r answer Hr. apply emits_retryWithBackoff.
    - by apply emits_notionCall.
    - intros ms. left. eauto. }
  assert (∀ r (answer : history → result (list ChildBlock)), P (Call r) →
            emits P (retryWithBackoff (notionCall r answer) maxRetryAttempts
                       INITIAL_RETRY_DELAY)) as Hlist.
  { intros r answer Hr. apply emits_retryWithBackoff.
    - by apply emits_notionCall.
    - intros ms. left. eauto. }
  unfold Collect.fetchPage.
  pose proof (Hretrieve (PagesRetrieve pageId)
                (λ h, pages_retrieve notion h pageId)
                ltac:(right; by left) h) as H1.
  destruct (retryWithBackoff _ _ _ h) as [es1 r1].
  pose proof (Hlist (BlocksChildrenList pageId)
                (λ h, blocks_children_list notion h pageId)
                ltac:(right; by right) (h ++ es1)) as H2.
  destruct (retryWithBackoff _ _ _ (h ++ es1)) as [es2 r2].
  simpl in *. by apply Forall_app.
Qed.

Lemma fetchingOf_delete tasks i :
  match tasks !! i with
  | Some (Collect.Fetching pageId _ depth) =>
    Collect.fetchingOf tasks
      ≡ₚ (pageId, depth) :: Collect.fetchingOf (delete i tasks)
  | Some (Collect.Dispatching _ _ _) =>
    Collect.fetchingOf (delete i tasks) = Collect.fetchingOf tasks
  | None => True
  end.
Proof.
  destruct (tasks !! i) as [t|] eqn:Hi; [|done].
  assert (Collect.fetchingOf tasks =
          Collect.fetchingOf (take i tasks ++ t :: drop (S i) tasks)) as ->.
  { by rewrite take_drop_middle. }
  rewrite delete_take_drop. unfold Collect.fetchingOf. rewrite !omap_app.
  destruct t as [pageId parentTitle depth|newParentTitle depth ids]; simpl.
  - by rewrite Permutation_middle.
  - done.
Qed.

Lemma fetchingOf_insert tasks i newParentTitle depth childPageIds :
  Collect.fetchingOf
    (<[i := Collect.Dispatching newParentTitle depth childPageIds]> tasks)
  = Collect.fetchingOf (delete i tasks).
Proof.
  destruct (decide (i < length tasks)%nat) as [Hi|Hi].
  - rewrite insert_take_drop, delete_take_drop by done.
    unfold Collect.fetchingOf. by rewrite !omap_app.
  - rewrite list_insert_ge by lia.
    rewrite delete_take_drop, take_ge, drop_ge by lia.
    by rewrite app_nil_r.
Qed.
Lemma invariant_spawn s childId newParentTitle depth :
  invariant s → atDepth childId depth →
  invariant (Collect.processPageParallel maxDepth childId newParentTitle
               depth s).
Proof.
  intros [Hs Hp Ho Hf Hd Hr Hl Hpast Ha] Hdepth.
  unfold Collect.processPageParallel.
  case_bool_decide as Hseen; simpl; [by split|].
  destruct (Collect.tooDeep maxDepth depth) eqn:Hdeep; [by split|].
  split; simpl.
  - intros pageId depth' [Hin|Hin%list_elem_of_singleton]%elem_of_app;
      [by apply Hs|]. by injection Hin as -> ->.
  - intros pageId. rewrite fmap_app, elem_of_app, elem_of_union, <- Hp.
    simpl. rewrite list_elem_of_singleton, elem_of_singleton. tauto.
  - rewrite fmap_app. apply NoDup_app. split; [done|]. split.
    + intros pageId Hin ->%list_elem_of_singleton. by apply Hseen, Hp.
    + apply NoDup_singleton.
  - unfold Collect.fetchingOf. rewrite omap_app. simpl.
    rewrite Hf. by rewrite app_assoc.
  - intros npt d ids [Hin|Hin%list_elem_of_singleton]%elem_of_app;
      [by eapply Hd|done].
  - done.
  - done.
  - done.
  - done.
Qed.

Lemma invariant_settle s i newParentTitle depth childPageIds failure :
  invariant s →
  Collect.pendingTasks s !! i
    = Some (Collect.Dispatching newParentTitle depth childPageIds) →
  invariant (Collect.settle i [] failure s).
Proof.
  intros [Hs Hp Ho Hf Hd Hr Hl Hpast Ha] Hi.
  pose proof (fetchingOf_delete (Collect.pendingTasks s) i) as Hdel.
  rewrite Hi in Hdel.
  split; simpl; try done.
  - by rewrite Hdel.
  - intros npt d ids Hin%list_elem_of_delete_inv. by eapply Hd.
  - intros ev. rewrite app_nil_r. apply Hpast.
Qed.

Lemma invariant_afterFetch s i pageId parentTitle depth :
  invariant s →
  Collect.pendingTasks s !! i
    = Some (Collect.Fetching pageId parentTitle depth) →
  invariant (Collect.afterFetch notion rootPageId maxRetryAttempts i pageId
               parentTitle depth s).
Proof.
  intros [Hs Hp Ho Hf Hd Hr Hl Hpast Ha] Hi.
  pose proof (fetchingOf_delete (Collect.pendingTasks s) i) as Hdel.
  rewrite Hi in Hdel.
  assert ((pageId, depth) ∈ Collect.started s) as Hstarted.
  { rewrite Hf, Hdel. apply elem_of_app. right. by left. }
  destruct (Hs _ _ Hstarted) as [_ Hdepth].
  assert (Collect.started s ≡ₚ
          (Collect.fetched s ++ [(pageId, depth)])
          ++ Collect.fetchingOf (delete i (Collect.pendingTasks s))) as Hf'.
  { rewrite Hf, Hdel. rewrite <- app_assoc. done. }
  assert (∀ es ev,
            Forall (λ ev, (∃ ms, ev = Sleep ms)
                          ∨ ev = Call (PagesRetrieve pageId)
                          ∨ ev = Call (BlocksChildrenList pageId)) es →
            ev ∈ Collect.past s ++ es →
            (∃ ms, ev = Sleep ms)
            ∨ ∃ p d, (p, d) ∈ Collect.fetched s ++ [(pageId, depth)]
                ∧ (ev = Call (PagesRetrieve p)
                   ∨ ev = Call (BlocksChildrenList p))) as Hpast'.
  { intros es ev Hes [Hin|Hin]%elem_of_app.
    - destruct (Hpast ev Hin) as [?|(p & d & Hpd & Hev)]; [by left|].
      right. exists p, d. split; [|done]. apply elem_of_app. by left.
    - eapply Forall_forall in Hes; [|exact Hin].
      destruct Hes as [?|Hev]; [by left|].
      right. exists pageId, depth. split; [|done].
      apply elem_of_app. right. by left. }
  assert (∀ es failure,
            Forall (λ ev, (∃ ms, ev = Sleep ms)
                          ∨ ev = Call (PagesRetrieve pageId)
                          ∨ ev = Call (BlocksChildrenList pageId)) es →
            invariant
              (Collect.settle i es failure
                 {| Collect.linkMap := Collect.linkMap s;
                    Collect.processedIds := Collect.processedIds s;
                    Collect.pendingTasks := Collect.pendingTasks s;
                    Collect.processedCount := Collect.processedCount s;
                    Collect.discoveredCount := Collect.discoveredCount s;
                    Collect.past := Collect.past s;
                    Collect.rejected := Collect.rejected s;
                    Collect.started := Collect.started s;
                    Collect.fetched :=
                      Collect.fetched s ++ [(pageId, depth)];
                    Collect.registered := Collect.registered s |}))
    as Hsettle.
  { intros es failure Hes. split; simpl; try done.
    - intros npt d ids Hin%list_elem_of_delete_inv. by eapply Hd.
    - by apply sublist_inserts_r.
    - intros ev. by apply Hpast'. }
  unfold Collect.afterFetch.
  pose proof (fetchPage_events pageId (Collect.past s)) as Hevents.
  pose proof (fetchPage_answers pageId (Collect.past s)) as Hanswers.
  destruct (fetchPage pageId (Collect.past s))
    as [es [[pageResponse childrenResponse]|e]]; simpl in Hevents;
    [|by apply Hsettle].
  destruct (negb (bool_decide (object pageResponse = "page")));
    [by apply Hsettle|].
  destruct (getPageTitle pageResponse) as [pageTitle|e]; [|by apply Hsettle].
  destruct (Hanswers _ _ _ eq_refl) as [[h1 Hh1] [h' Hh']].
  split; simpl; try done.
  - by rewrite fetchingOf_insert.
  - intros npt d ids [Heq|Hin]%list_elem_of_insert_inv childId Hchild.
    + injection Heq as -> -> ->. by eapply Collect.atDepth_child.
    + by eapply Hd.
  - rewrite !fmap_app. simpl. apply sublist_app; [done|]. done.
  - intros entry [->|Hin]%mapSet_elem_of; rewrite fmap_app, elem_of_app.
    + right. by left.
    + left. by apply Hl.
  - intros ev. by apply Hpast'.
  - intros p d entry [Hin|Hin%list_elem_of_singleton]%elem_of_app;
      [by eapply Ha|].
    injection Hin as -> -> ->. eauto.
Qed.

Lemma invariant_dispatch s s' i newParentTitle depth childId rest :
  invariant s →
  Collect.pendingTasks s !! i
    = Some (Collect.Dispatching newParentTitle depth (childId :: rest)) →
  Collect.dispatch parallelLimit requestDelay maxDepth i newParentTitle depth
    childId rest s = Some s' →
  invariant s'.
Proof.
  intros Hinv Hi. unfold Collect.dispatch.
  case_bool_decide; [done|]. intros [= <-].
  destruct Hinv as [Hs Hp Ho Hf Hd Hr Hl Hpast Ha].
  pose proof (fetchingOf_delete (Collect.pendingTasks s) i) as Hdel.
  rewrite Hi in Hdel.
  apply invariant_spawn.
  - split; simpl; try done.
    + by rewrite fetchingOf_insert, Hdel.
    + intros npt d ids [Heq|Hin]%list_elem_of_insert_inv c Hc.
      * injection Heq as -> -> ->.
        eapply Hd; [by eapply list_elem_of_lookup_2|by right].
      * by eapply Hd.
    + intros ev [Hin|Hin]%elem_of_app; [by apply Hpast|].
      left. case_bool_decide; [|by apply elem_of_nil in Hin].
      apply list_elem_of_singleton in Hin. eauto.
  - eapply Hd; [by eapply list_elem_of_lookup_2|by left].
Qed.

Lemma invariant_step s s' m :
  invariant s → step m s = Some s' → invariant s'.
Proof.
  intros Hinv. destruct m as [i|i]; simpl.
  - destruct (Collect.pendingTasks s !! i)
      as [[pageId parentTitle depth|npt depth [|childId rest]]|] eqn:Hi;
      [| | |done].
    + intros [= <-]. by apply invariant_afterFetch.
    + intros [= <-]. by eapply invariant_settle.
    + by eapply invariant_dispatch.
  - destruct (Collect.pendingTasks s !! i)
      as [[pageId parentTitle depth|npt depth [|childId rest]]|] eqn:Hi;
      try done.
    destruct (Collect.rejected s); [|done].
    intros [= <-]. by eapply invariant_settle.
Qed.

Lemma invariant_run schedule : ∀ s s',
  invariant s → run schedule s = Some s' → invariant s'.
Proof.
  induction schedule as [|m schedule IH]; intros s s' Hinv; simpl.
  - by intros [= <-].
  - destruct (step m s) as [s1|] eqn:Hstep; [|done]. simpl.
    apply IH. by eapply invariant_step.
Qed.

Lemma invariant_start : invariant start.
Proof.
  apply invariant_spawn; [|constructor].
  split; simpl; try done.
  - intros pageId depth Hin. by apply elem_of_nil in Hin.
  - intros pageId. by rewrite elem_of_empty, elem_of_nil.
  - constructor.
  - intros npt d ids Hin. by apply elem_of_nil in Hin.
  - intros ev Hin. by apply elem_of_nil in Hin.
  - intros p d entry Hin. by apply elem_of_nil in Hin.
Qed.
End CrawlProperties.

Lemma atDepth_nonneg notion rootPageId pageId depth :
  Collect.atDepth notion rootPageId pageId depth → 0 ≤ depth.
Proof. induction 1; lia. Qed.

(** C5.  With a finite [maxDepth], every entry of the page index was
    registered by the task of a page reached from the root page through
    [depth <= maxDepth] listings of child pages, the root page being at
    depth 0; the two requests of a page are only issued for such pages;
    and a call of [processPageParallel] at a greater depth does nothing
    at all. *)
Theorem collectCurrentFiles_depth_bound (notion : Client)
    (rootPageId : string) (parallelLimit requestDelay maxRetryAttempts : Z)
    (maxDepth : Z) (schedule : list Collect.move) (s : Collect.state) :
  Collect.run notion rootPageId parallelLimit requestDelay maxRetryAttempts
    (Some maxDepth) schedule (Collect.start rootPageId (Some maxDepth))
    = Some s →
  (∀ entry, entry ∈ Collect.linkMap s →
     ∃ pageId depth h pageResponse,
       (pageId, depth, entry) ∈ Collect.registered s
       ∧ 0 ≤ depth ≤ maxDepth
       ∧ Collect.atDepth notion rootPageId pageId depth
       ∧ pages_retrieve notion h pageId = Ok pageResponse
       ∧ entry.2 = newNotionPageLink pageResponse)
  ∧ (∀ pageId,
       Call (PagesRetrieve pageId) ∈ Collect.past s
       ∨ Call (BlocksChildrenList pageId) ∈ Collect.past s →
       ∃ depth, 0 ≤ depth ≤ maxDepth
                ∧ Collect.atDepth notion rootPageId pageId depth)
  ∧ (∀ s0 pageId parentTitle depth,
       maxDepth < depth →
       Collect.processPageParallel (Some maxDepth) pageId parentTitle depth s0
         = s0).
Proof.
  intros Hrun.
  pose proof (invariant_run _ _ _ _ _ _ _ _ _
                (invariant_start notion rootPageId (Some maxDepth)) Hrun)
    as [Hs Hp Ho Hf Hd Hr Hl Hpast Ha].
  assert (∀ pageId depth, (pageId, depth) ∈ Collect.fetched s →
            0 ≤ depth ≤ maxDepth
            ∧ Collect.atDepth notion rootPageId pageId depth) as Hfetched.
  { intros pageId depth Hin.
    destruct (Hs pageId depth) as [Hdeep Hat].
    { rewrite Hf. apply elem_of_app. by left. }
    split; [|done]. apply atDepth_nonneg in Hat as Hge.
    simpl in Hdeep. apply bool_decide_eq_false in Hdeep. lia. }
  split; [|split].
  - intros entry Hin.
    apply Hl, list_elem_of_fmap in Hin as ([[pageId depth] entry'] & -> & Hin).
    destruct (Ha _ _ _ Hin) as (h & pageResponse & Hanswer & Hlink).
    destruct (Hfetched pageId depth) as [Hle Hat].
    { apply (sublist_subseteq _ _ Hr).
      apply list_elem_of_fmap. by exists (pageId, depth, entry'). }
    exists pageId, depth, h, pageResponse. done.
  - intros pageId Hcall.
    assert (∃ depth, (pageId, depth) ∈ Collect.fetched s) as [depth Hin].
    { destruct Hcall as [Hcall|Hcall];
        destruct (Hpast _ Hcall) as [[ms [=]]|(p & d & Hin & [[=]|[=]])];
        subst; eauto. }
    exists depth. by apply Hfetched.
  - intros s0 pageId parentTitle depth Hdeep.
    unfold Collect.processPageParallel. simpl.
    rewrite (bool_decide_eq_true_2 (maxDepth < depth)) by done.
    by rewrite orb_true_r.
Qed.

(** C5 on the two pages that list each other, with [maxDepth = 0]: only
    the root page is fetched and registered. *)
Lemma collectCurrentFiles_depth_bound_witness :
  ∃ s,
    Collect.run cyclicClient "r" 25 50 3 (Some 0)
      [Collect.Resume 0; Collect.Resume 0; Collect.Resume 0]
      (Collect.start "r" (Some 0)) = Some s
    ∧ Collect.linkMap s = [("./Page r", {| link_id := "r"; link := "" |})]
    ∧ Collect.pendingTasks s = []
    ∧ ∀ pageId, Call (PagesRetrieve pageId) ∈ Collect.past s →
        ∃ depth, 0 ≤ depth ≤ 0
                 ∧ Collect.atDepth cyclicClient "r" pageId depth.
Proof.
  destruct (Collect.run cyclicClient "r" 25 50 3 (Some 0)
              [Collect.Resume 0; Collect.Resume 0; Collect.Resume 0]
              (Collect.start "r" (Some 0))) as [s|] eqn:Hrun;
    [|by vm_compute in Hrun].
  exists s. split; [done|].
  pose proof (collectCurrentFiles_depth_bound cyclicClient "r" 25 50 3 0 _ _
                Hrun) as (_ & Hcalls & _).
  vm_compute in Hrun. injection Hrun as <-.
  split; [reflexivity|]. split; [reflexivity|].
  intros pageId Hcall. apply Hcalls. by left.
Defined.

Section CrawlTermination.
Variable notion : Client.
Variable rootPageId : string.
Variables parallelLimit requestDelay maxRetryAttempts : Z.
Variable maxDepth : option Z.
Variable universe : gset string.
Variable maxChildren : nat.
Hypothesis listings :
  ∀ h parent results,
    blocks_children_list notion h parent = Ok results →
    (length (childPageIdsOf results) ≤ maxChildren)%nat
    ∧ ∀ childId, childId ∈ childPageIdsOf results → childId ∈ universe.

Abbreviation remaining := (Collect.remaining universe maxChildren).
Abbreviation listedIn := (Collect.listedIn universe).
Abbreviation weights := (sum_list_with (Collect.weight maxChildren)).

Lemma weights_delete tasks i t :
  tasks !! i = Some t →
  weights tasks = (Collect.weight maxChildren t + weights (delete i tasks))%nat.
Proof.
  intros Hi. rewrite delete_take_drop.
  rewrite <- (take_drop_middle _ _ _ Hi) at 1.
  rewrite !sum_list_with_app. simpl. lia.
Qed.

Lemma weights_insert tasks i t t' :
  tasks !! i = Some t →
  weights (<[i:=t']> tasks)
  = (Collect.weight maxChildren t' + weights (delete i tasks))%nat.
Proof.
  intros Hi. rewrite delete_take_drop, insert_take_drop
    by (by eapply lookup_lt_Some).
  rewrite !sum_list_with_app. simpl. lia.
Qed.

Lemma size_visit (visited : gset string) childId :
  childId ∈ universe → childId ∉ visited →
  size (universe ∖ visited) = S (size (universe ∖ ({[childId]} ∪ visited))).
Proof.
  intros Hin Hnew.
  assert (universe ∖ visited
          = {[childId]} ∪ universe ∖ ({[childId]} ∪ visited)) as ->.
  { apply set_eq. intros x.
    rewrite elem_of_union, !elem_of_difference, elem_of_union,
      elem_of_singleton.
    destruct (decide (x = childId)) as [->|]; tauto. }
  rewrite size_union, size_singleton; [done|].
  intros x ->%elem_of_singleton [_ Hout]%elem_of_difference.
  apply Hout, elem_of_union. left. by apply elem_of_singleton.
Qed.

Lemma remaining_spawn s childId newParentTitle depth :
  childId ∈ universe →
  listedIn s →
  listedIn (Collect.processPageParallel maxDepth childId newParentTitle
              depth s)
  ∧ (remaining (Collect.processPageParallel maxDepth childId newParentTitle
                  depth s) < remaining s + 1)%nat.
Proof.
  intros Hin Hlisted. unfold Collect.processPageParallel.
  case_bool_decide as Hseen; simpl; [split; [done|lia]|].
  destruct (Collect.tooDeep maxDepth depth); [split; [done|lia]|]. split.
  - intros npt d ids [Hold|Hnew%list_elem_of_singleton]%elem_of_app;
      [by eapply Hlisted|done].
  - unfold Collect.remaining. simpl.
    rewrite (size_visit (Collect.processedIds s) childId) by done.
    rewrite sum_list_with_app. simpl. lia.
Qed.

(** Every resumption uses up some of the work left. *)
Lemma remaining_step s s' m :
  listedIn s →
  Collect.step notion rootPageId parallelLimit requestDelay maxRetryAttempts
    maxDepth m s = Some s' →
  listedIn s' ∧ (remaining s' < remaining s)%nat.
Proof.
  intros Hlisted.
  assert (∀ i es failure t,
            Collect.pendingTasks s !! i = Some t →
            listedIn (Collect.settle i es failure s)
            ∧ (remaining (Collect.settle i es failure s) < remaining s)%nat)
    as Hsettle.
  { intros i es failure t Hi. split.
    - intros npt d ids Hin%list_elem_of_delete_inv. by eapply Hlisted.
    - unfold Collect.remaining. simpl.
      rewrite (weights_delete _ _ _ Hi). destruct t; simpl; lia. }
  destruct m as [i|i]; simpl.
  - destruct (Collect.pendingTasks s !! i)
      as [[pageId parentTitle depth|npt depth [|childId rest]]|] eqn:Hi;
      [| | |done].
    + intros [= <-]. unfold Collect.afterFetch.
      pose proof (fetchPage_answers notion maxRetryAttempts pageId
                    (Collect.past s)) as Hanswers.
      destruct (Collect.fetchPage notion maxRetryAttempts pageId
                  (Collect.past s))
        as [es [[pageResponse childrenResponse]|e]];
        [|by apply (Hsettle i es (Some e) _ Hi)].
      destruct (negb (bool_decide (object pageResponse = "page")));
        [by apply (Hsettle i es None _ Hi)|].
      destruct (getPageTitle pageResponse) as [pageTitle|e];
        [|by apply (Hsettle i es (Some e) _ Hi)].
      destruct (Hanswers _ _ _ eq_refl) as [_ [h' Hh']].
      destruct (listings _ _ _ Hh') as [Hlen Hall]. split.
      * intros npt d ids [Heq|Hin]%list_elem_of_insert_inv; simpl in *.
        -- by injection Heq as -> -> ->.
        -- by eapply Hlisted.
      * unfold Collect.remaining. simpl.
        rewrite (weights_insert _ _ _ _ Hi), (weights_delete _ _ _ Hi).
        simpl. lia.
    + intros [= <-]. by apply (Hsettle i [] None _ Hi).
    + unfold Collect.dispatch. case_bool_decide; [done|]. intros [= <-].
      set (s1 := {| Collect.linkMap := Collect.linkMap s;
                    Collect.pendingTasks :=
                      <[i:=Collect.Dispatching npt depth rest]>
                        (Collect.pendingTasks s) |}).
      assert (listedIn s1) as Hlisted1.
      { intros npt' d ids [Heq|Hin]%list_elem_of_insert_inv c Hc; simpl in *.
        - injection Heq as -> -> ->.
          eapply Hlisted; [by eapply list_elem_of_lookup_2|by right].
        - by eapply Hlisted. }
      assert (remaining s1 + 1 = remaining s)%nat as Hless.
      { unfold Collect.remaining, s1. simpl.
        rewrite (weights_insert _ _ _ _ Hi), (weights_delete _ _ _ Hi).
        simpl. lia. }
      destruct (remaining_spawn s1 childId npt (depth + 1)) as [Hl Hr];
        [|done|].
      { eapply Hlisted; [by eapply list_elem_of_lookup_2|by left]. }
      split; [done|]. lia.
  - destruct (Collect.pendingTasks s !! i)
      as [[pageId parentTitle depth|npt depth [|childId rest]]|] eqn:Hi;
      try done.
    destruct (Collect.rejected s) as [e|]; [|done].
    intros [= <-]. by apply (Hsettle i [] (Some e) _ Hi).
Qed.

Lemma remaining_run schedule : ∀ s s',
  listedIn s →
  Collect.run notion rootPageId parallelLimit requestDelay maxRetryAttempts
    maxDepth schedule s = Some s' →
  (length schedule + remaining s' ≤ remaining s)%nat.
Proof.
  induction schedule as [|m schedule IH]; intros s s' Hlisted; simpl.
  - intros [= <-]. lia.
  - destruct (Collect.step _ _ _ _ _ _ m s) as [s1|] eqn:Hstep; [|done].
    simpl. intros Hrun.
    destruct (remaining_step _ _ _ Hlisted Hstep) as [Hlisted1 Hless].
    specialize (IH _ _ Hlisted1 Hrun). lia.
Qed.

Lemma remaining_start :
  Collect.listedIn universe (Collect.start rootPageId maxDepth)
  ∧ (remaining (Collect.start rootPageId maxDepth)
     ≤ size universe * (maxChildren + 3) + maxChildren + 2)%nat.
Proof.
  unfold Collect.start, Collect.processPageParallel. simpl.
  rewrite (bool_decide_eq_false_2 (rootPageId ∈ (∅ : gset string)))
    by apply not_elem_of_empty.
  destruct (Collect.tooDeep maxDepth 0); simpl.
  - split; [by intros npt d ids Hin%elem_of_nil|].
    unfold Collect.remaining. simpl.
    pose proof (subseteq_size (universe ∖ ∅) universe) as Hsize.
    specialize (Hsize ltac:(apply subseteq_difference_l; done)). nia.
  - split.
    + intros npt d ids Hin%list_elem_of_singleton. done.
    + unfold Collect.remaining. simpl.
      pose proof (subseteq_size (universe ∖ ({[rootPageId]} ∪ ∅)) universe)
        as Hsize.
      specialize (Hsize ltac:(apply subseteq_difference_l; done)). nia.
Qed.
End CrawlTermination.

(** X25.  In every state the crawl reaches, no page id has passed the
    guard of [processPageParallel] twice, been fetched twice or been
    registered twice: a call on a page id already in [processedIds]
    does nothing.  Cycles among the pages cannot keep the crawl going:
    when the child pages the remote side ever lists lie in a finite set
    and no listing has more than [maxChildren] of them, no schedule is
    longer than [size universe * (maxChildren + 3) + maxChildren + 2]
    resumptions.  As long as fewer than [parallelLimit] tasks are
    pending every pending task can resume. *)
Theorem collectCurrentFiles_once (notion : Client) (rootPageId : string)
    (parallelLimit requestDelay maxRetryAttempts : Z) (maxDepth : option Z)
    (schedule : list Collect.move) (s : Collect.state) :
  Collect.run notion rootPageId parallelLimit requestDelay maxRetryAttempts
    maxDepth schedule (Collect.start rootPageId maxDepth) = Some s →
  (NoDup (Collect.started s).*1
   ∧ NoDup (Collect.fetched s).*1
   ∧ NoDup (Collect.registered s).*1.*1)
  ∧ (∀ s0 pageId parentTitle depth,
       pageId ∈ Collect.processedIds s0 →
       Collect.processPageParallel maxDepth pageId parentTitle depth s0 = s0)
  ∧ (∀ (universe : gset string) (maxChildren : nat),
       (∀ h parent results,
          blocks_children_list notion h parent = Ok results →
          (length (childPageIdsOf results) ≤ maxChildren)%nat
          ∧ ∀ childId, childId ∈ childPageIdsOf results →
                       childId ∈ universe) →
       (length schedule
        ≤ size universe * (maxChildren + 3) + maxChildren + 2)%nat)
  ∧ (∀ i t,
       Collect.pendingTasks s !! i = Some t →
       Z.of_nat (length (Collect.pendingTasks s)) < parallelLimit →
       is_Some (Collect.step notion rootPageId parallelLimit requestDelay
                  maxRetryAttempts maxDepth (Collect.Resume i) s)).
Proof.
  intros Hrun.
  pose proof (invariant_run _ _ _ _ _ _ _ _ _
                (invariant_start notion rootPageId maxDepth) Hrun)
    as [Hs Hp Ho Hf Hd Hr Hl Hpast Ha].
  assert (NoDup (Collect.fetched s).*1) as Hfetched.
  { rewrite Hf, fmap_app in Ho. by apply NoDup_app in Ho as [Ho _]. }
  split; [|split; [|split]].
  - split; [done|]. split; [done|].
    exact (sublist_NoDup _ _ Hfetched (fmap_sublist fst _ _ Hr)).
  - intros s0 pageId parentTitle depth Hseen.
    unfold Collect.processPageParallel.
    by rewrite (bool_decide_eq_true_2 _ Hseen).
  - intros universe maxChildren Hlistings.
    destruct (remaining_start rootPageId maxDepth universe maxChildren)
      as [Hlisted Hbound].
    pose proof (remaining_run notion rootPageId parallelLimit requestDelay
                  maxRetryAttempts maxDepth universe maxChildren Hlistings
                  schedule _ _ Hlisted Hrun). lia.
  - intros i t Hi Hfree. simpl. rewrite Hi.
    destruct t as [pageId parentTitle depth|npt depth [|childId rest]];
      [by eauto..|].
    unfold Collect.dispatch. rewrite bool_decide_eq_false_2 by lia. by eauto.
Qed.

(** X25 on the two pages that list each other: the crawl is over after
    six resumptions, each page fetched and registered once. *)
Lemma collectCurrentFiles_once_witness :
  ∃ s,
    Collect.run cyclicClient "r" 25 50 3 None
      (replicate 6 (Collect.Resume 0)) (Collect.start "r" None) = Some s
    ∧ Collect.pendingTasks s = []
    ∧ Collect.fetched s = [("r", 0); ("a", 1)]
    ∧ Collect.linkMap s
      = [("./Page r", {| link_id := "r"; link := "" |});
         ("./Page a", {| link_id := "a"; link := "" |})]
    ∧ NoDup (Collect.fetched s).*1
    ∧ (6 ≤ size ({["r"; "a"]} : gset string) * (1 + 3) + 1 + 2)%nat.
Proof.
  destruct (Collect.run cyclicClient "r" 25 50 3 None
              (replicate 6 (Collect.Resume 0)) (Collect.start "r" None))
    as [s|] eqn:Hrun; [|by vm_compute in Hrun].
  exists s. split; [done|].
  pose proof (collectCurrentFiles_once cyclicClient "r" 25 50 3 None _ _
                Hrun) as ((_ & Hfetched & _) & _ & Hbound & _).
  specialize (Hbound {["r"; "a"]} 1%nat).
  assert (∀ (h : history) parent results,
            blocks_children_list cyclicClient h parent = Ok results →
            (length (childPageIdsOf results) ≤ 1)%nat
            ∧ ∀ childId, childId ∈ childPageIdsOf results →
                childId ∈ ({["r"; "a"]} : gset string)) as Hlistings.
  { intros h parent results [= <-]. split; [done|].
    intros childId. simpl. rewrite elem_of_union, !elem_of_singleton.
    case_bool_decide; intros ->%list_elem_of_singleton; tauto. }
  specialize (Hbound Hlistings).
  vm_compute in Hrun. injection Hrun as <-.
  split; [reflexivity|]. split; [reflexivity|]. split; [reflexivity|].
  split; [exact Hfetched|exact Hbound].
Defined.

(** ** A crawl that waits for itself *)

Lemma run_app notion rootPageId parallelLimit requestDelay maxRetryAttempts
    maxDepth (schedule more : list Collect.move) (s : Collect.state) :
  Collect.run notion rootPageId parallelLimit requestDelay maxRetryAttempts
    maxDepth (schedule ++ more) s
  = Collect.run notion rootPageId parallelLimit requestDelay maxRetryAttempts
      maxDepth schedule s
    ≫= Collect.run notion rootPageId parallelLimit requestDelay
         maxRetryAttempts maxDepth more.
Proof.
  revert s. induction schedule as [|m schedule IH]; intros s; [done|].
  simpl. destruct (Collect.step _ _ _ _ _ _ m s) as [s1|]; [|done].
  simpl. apply IH.
Qed.

(** Once every pending task awaits a slot and none has rejected, no
    task can go on. *)
Lemma awaitsSlot_stuck notion rootPageId parallelLimit requestDelay
    maxRetryAttempts maxDepth (s : Collect.state) (m : Collect.move) :
  Collect.rejected s = None →
  parallelLimit ≤ Z.of_nat (length (Collect.pendingTasks s)) →
  Forall (λ t, awaitsSlot t = true) (Collect.pendingTasks s) →
  Collect.step notion rootPageId parallelLimit requestDelay maxRetryAttempts
    maxDepth m s = None.
Proof.
  intros Hnone Hfull Hwait.
  assert (∀ i t, Collect.pendingTasks s !! i = Some t → awaitsSlot t = true)
    as Hlook.
  { intros i t Hi. eapply Forall_forall in Hwait; [done|].
    by eapply list_elem_of_lookup_2. }
  destruct m as [i|i]; simpl.
  - destruct (Collect.pendingTasks s !! i)
      as [[pageId parentTitle depth|npt depth [|childId rest]]|] eqn:Hi;
      [by apply Hlook in Hi..| |done].
    unfold Collect.dispatch. by rewrite bool_decide_eq_true_2.
  - rewrite Hnone.
    by destruct (Collect.pendingTasks s !! i) as [[?|? ? [|? ?]]|].
Qed.

(** From there no schedule goes on. *)
Lemma awaitsSlot_for_good notion rootPageId parallelLimit requestDelay
    maxRetryAttempts maxDepth (schedule more : list Collect.move)
    (s s' : Collect.state) :
  Collect.run notion rootPageId parallelLimit requestDelay maxRetryAttempts
    maxDepth schedule (Collect.start rootPageId maxDepth) = Some s →
  Collect.pendingTasks s ≠ [] →
  Collect.rejected s = None →
  parallelLimit ≤ Z.of_nat (length (Collect.pendingTasks s)) →
  Forall (λ t, awaitsSlot t = true) (Collect.pendingTasks s) →
  Collect.run notion rootPageId parallelLimit requestDelay maxRetryAttempts
    maxDepth (schedule ++ more) (Collect.start rootPageId maxDepth)
    = Some s' →
  more = [] ∧ Collect.pendingTasks s' ≠ [].
Proof.
  intros Hrun Hpending Hnone Hfull Hwait. rewrite run_app, Hrun. simpl.
  destruct more as [|m more]; simpl.
  - by intros [= <-].
  - by rewrite awaitsSlot_stuck.
Qed.

(** C10, the part of it that fails.  The crawl need not terminate: a
    task that waits for a slot is itself one of [pendingTasks], so once
    [parallelLimit] tasks are pending and each of them has a child page
    left to start, every one of them is suspended on
    [Promise.race(pendingTasks)] and none is ever resumed.  From such a
    state no schedule goes on, and [pendingTasks] never empties: the
    [Promise.all(pendingTasks)] of [collectCurrentFiles] is never
    fulfilled. *)
Theorem collectCurrentFiles_stuck (notion : Client) (rootPageId : string)
    (parallelLimit requestDelay maxRetryAttempts : Z) (maxDepth : option Z)
    (schedule : list Collect.move) (s : Collect.state) :
  Collect.run notion rootPageId parallelLimit requestDelay maxRetryAttempts
    maxDepth schedule (Collect.start rootPageId maxDepth) = Some s →
  Collect.pendingTasks s ≠ [] →
  Collect.rejected s = None →
  parallelLimit ≤ Z.of_nat (length (Collect.pendingTasks s)) →
  Forall (λ t, awaitsSlot t = true) (Collect.pendingTasks s) →
  (∀ m, Collect.step notion rootPageId parallelLimit requestDelay
          maxRetryAttempts maxDepth m s = None)
  ∧ ∀ more s',
      Collect.run notion rootPageId parallelLimit requestDelay
        maxRetryAttempts maxDepth (schedule ++ more)
        (Collect.start rootPageId maxDepth) = Some s' →
      more = [] ∧ Collect.pendingTasks s' ≠ [].
Proof.
  intros Hrun Hpending Hnone Hfull Hwait. split.
  - intros m. by apply awaitsSlot_stuck.
  - intros more s'. by apply (awaitsSlot_for_good _ _ _ _ _ _ _ _ s).
Qed.

(** C10 with room for one task only, on two pages that list each
    other: the one step the crawl can take is the resumption of the
    root page with its two answers; the root page then waits for a slot
    that it holds itself. *)
Lemma collectCurrentFiles_stuck_witness :
  ∃ s,
    Collect.run cyclicClient "r" 1 DEFAULT_REQUEST_DELAY MAX_RETRY_ATTEMPTS
      None [Collect.Resume 0] (Collect.start "r" None) = Some s
    ∧ Collect.pendingTasks s = [Collect.Dispatching "." 0 ["a"]]
    ∧ Collect.linkMap s = [("./Page r", {| link_id := "r"; link := "" |})]
    ∧ (∀ m, Collect.step cyclicClient "r" 1 DEFAULT_REQUEST_DELAY
              MAX_RETRY_ATTEMPTS None m s = None)
    ∧ ∀ more s',
        Collect.run cyclicClient "r" 1 DEFAULT_REQUEST_DELAY
          MAX_RETRY_ATTEMPTS None ([Collect.Resume 0] ++ more)
          (Collect.start "r" None) = Some s' →
        more = [] ∧ Collect.pendingTasks s' ≠ [].
Proof.
  destruct (Collect.run cyclicClient "r" 1 DEFAULT_REQUEST_DELAY
              MAX_RETRY_ATTEMPTS None [Collect.Resume 0]
              (Collect.start "r" None)) as [s|] eqn:Hrun;
    [|by vm_compute in Hrun].
  exists s. split; [done|].
  assert (Collect.pendingTasks s = [Collect.Dispatching "." 0 ["a"]]
          ∧ Collect.linkMap s
            = [("./Page r", {| link_id := "r"; link := "" |})]
          ∧ Collect.rejected s = None) as (Hpending & Hmap & Hnone).
  { vm_compute in Hrun. by injection Hrun as <-. }
  split; [done|]. split; [done|].
  apply (collectCurrentFiles_stuck cyclicClient "r" 1 DEFAULT_REQUEST_DELAY
           MAX_RETRY_ATTEMPTS None [Collect.Resume 0] s Hrun).
  - by rewrite Hpending.
  - done.
  - by rewrite Hpending.
  - rewrite Hpending. by repeat constructor.
Defined.

(** The same with the default options on the root page of
    [crowdedClient]: when the root page has started 24 of its 25 child
    pages before any of them resumes, and these have been fetched, 25
    tasks are pending, the limit, and each has a child page left to
    start.  Nothing can go on from there. *)
Lemma collectCurrentFiles_stuck_default :
  let schedule :=
    replicate 25 (Collect.Resume 0) ++ (Collect.Resume <$> seq 1 24) in
  ∃ s,
    Collect.run crowdedClient "r" DEFAULT_PARALLEL_LIMIT
      DEFAULT_REQUEST_DELAY MAX_RETRY_ATTEMPTS None schedule
      (Collect.start "r" None) = Some s
    ∧ length (Collect.pendingTasks s) = 25%nat
    ∧ Collect.processedCount s = 0
    ∧ Collect.discoveredCount s = 50
    ∧ (∀ m, Collect.step crowdedClient "r" DEFAULT_PARALLEL_LIMIT
              DEFAULT_REQUEST_DELAY MAX_RETRY_ATTEMPTS None m s = None)
    ∧ ∀ more s',
        Collect.run crowdedClient "r" DEFAULT_PARALLEL_LIMIT
          DEFAULT_REQUEST_DELAY MAX_RETRY_ATTEMPTS None (schedule ++ more)
          (Collect.start "r" None) = Some s' →
        more = [] ∧ Collect.pendingTasks s' ≠ [].
Proof.
  intros schedule.
  destruct (Collect.run crowdedClient "r" DEFAULT_PARALLEL_LIMIT
              DEFAULT_REQUEST_DELAY MAX_RETRY_ATTEMPTS None schedule
              (Collect.start "r" None)) as [s|] eqn:Hrun;
    [|by vm_compute in Hrun].
  exists s. split; [done|].
  assert (length (Collect.pendingTasks s) = 25%nat
          ∧ Collect.processedCount s = 0
          ∧ Collect.discoveredCount s = 50
          ∧ Collect.rejected s = None
          ∧ forallb awaitsSlot (Collect.pendingTasks s) = true)
    as (Hlen & Hprocessed & Hdiscovered & Hnone & Hwait).
  { vm_compute in Hrun. injection Hrun as <-. by vm_compute. }
  assert (Forall (λ t, awaitsSlot t = true) (Collect.pendingTasks s))
    as Hall.
  { apply Forall_forall. intros t Ht.
    rewrite forallb_forall in Hwait. by apply Hwait, list_elem_of_In. }
  assert (DEFAULT_PARALLEL_LIMIT
          ≤ Z.of_nat (length (Collect.pendingTasks s))) as Hfull.
  { rewrite Hlen. by vm_compute. }
  split; [done|]. split; [done|]. split; [done|]. split.
  - intros m. by apply awaitsSlot_stuck.
  - intros more s'. apply (awaitsSlot_for_good _ _ _ _ _ _ _ _ s);
      [done| |done..].
    intros Hnil. by rewrite Hnil in Hlen.
Qed.

(** * Further properties of the code *)

(** ** [retryWithBackoff] *)

(** The operation fails [k] times with the rate-limit signal and then
    returns [a]. *)
Lemma retryLoop_success {A} (fn : async A) maxAttempts initialDelay k :
  ∀ iters attempt lastError h es a,
    (k < iters)%nat →
    attempt + Z.of_nat k ≤ maxAttempts →
    (∀ j, (j < k)%nat → ∃ e',
        (fn (attemptHistory fn initialDelay attempt h j)).2 = Throw e'
        ∧ isRateLimit e' = true) →
    fn (attemptHistory fn initialDelay attempt h k) = (es, Ok a) →
    ∃ es', retryLoop fn maxAttempts initialDelay iters attempt lastError h
           = (es', Ok a)
           ∧ h ++ es' = attemptHistory fn initialDelay attempt h k ++ es.
Proof.
  induction k as [|k IH]; intros iters attempt lastError h es a
    Hk Hle Hfirst Hlast.
  - destruct iters as [|iters]; [lia|].
    rewrite retryLoop_step by lia. simpl in Hlast. rewrite Hlast. eauto.
  - destruct iters as [|iters]; [lia|].
    rewrite retryLoop_step by lia.
    destruct (Hfirst O ltac:(lia)) as (e0 & He0 & Hrate). simpl in He0.
    destruct (fn h) as [es0 r0] eqn:Hfn. simpl in He0. subst r0.
    rewrite bool_decide_eq_false_2 by lia. rewrite Hrate. simpl.
    destruct (IH iters (attempt + 1) (Some e0)
                ((h ++ es0) ++ [Sleep (initialDelay * 2 ^ (attempt - 1))])
                es a) as (es' & Hrun & Hhist).
    + lia.
    + lia.
    + intros j Hj. destruct (Hfirst (S j) ltac:(lia)) as (e' & He' & Hr').
      simpl in He'. rewrite Hfn in He'. eauto.
    + simpl in Hlast. by rewrite Hfn in Hlast.
    + rewrite Hrun.
      exists (es0 ++ Sleep (initialDelay * 2 ^ (attempt - 1)) :: es').
      split; [done|]. rewrite Hfn. simpl. rewrite <- Hhist, <- !app_assoc.
      done.
Qed.

(** A call that is answered at once is issued once. *)
Lemma retryWithBackoff_answered {A} (r : request)
    (answer : history → result A) maxAttempts initialDelay h a :
  1 ≤ maxAttempts → answer h = Ok a →
  retryWithBackoff (notionCall r answer) maxAttempts initialDelay h
  = ([Call r], Ok a).
Proof.
  intros Hmax Hanswer. unfold retryWithBackoff.
  destruct (Z.to_nat maxAttempts) as [|iters] eqn:Hiters; [lia|].
  rewrite retryLoop_step by done. unfold notionCall. by rewrite Hanswer.
Qed.

(** A call that is refused for another reason than a rate limit is
    issued once. *)
Lemma retryWithBackoff_refused {A} (r : request)
    (answer : history → result A) maxAttempts initialDelay h e :
  1 ≤ maxAttempts → answer h = Throw e → isRateLimit e = false →
  retryWithBackoff (notionCall r answer) maxAttempts initialDelay h
  = ([Call r], @Throw A e).
Proof.
  intros Hmax Hanswer Hrate. unfold retryWithBackoff.
  destruct (Z.to_nat maxAttempts) as [|iters] eqn:Hiters; [lia|].
  rewrite retryLoop_step by done. unfold notionCall.
  by rewrite Hanswer, Hrate, orb_true_r.
Qed.

(** X1.  [retryWithBackoff] returns the first answer of the operation:
    when the operation fails [k] times with the rate-limit signal, with
    [k < maxAttempts], and returns [a] at the next invocation, the run
    returns [a] and consists of the [k] failed invocations, each
    followed by its pause, and of the successful one; for an operation
    that is one client call the trace is [k + 1] calls with the pauses
    [initialDelay * 2 ^ (attempt - 1)] in between. *)
Theorem retryWithBackoff_recovers {A} (fn : async A)
    (maxAttempts initialDelay : Z) (h : history) (k : nat)
    (es : list event) (a : A) :
  Z.of_nat k < maxAttempts →
  (∀ j, (j < k)%nat → ∃ e',
      (fn (attemptHistory fn initialDelay 1 h j)).2 = Throw e'
      ∧ isRateLimit e' = true) →
  fn (attemptHistory fn initialDelay 1 h k) = (es, Ok a) →
  ∃ es',
    retryWithBackoff fn maxAttempts initialDelay h = (es', Ok a)
    ∧ h ++ es' = attemptHistory fn initialDelay 1 h k ++ es
    ∧ ∀ r answer, fn = notionCall r answer →
        es' = backoffTrace r initialDelay (S k).
Proof.
  intros Hk Hfirst Hlast.
  destruct (retryLoop_success fn maxAttempts initialDelay k
              (Z.to_nat maxAttempts) 1 None h es a)
    as (es' & Hrun & Hhist); [lia|lia|done|done|].
  exists es'. split; [exact Hrun|]. split; [exact Hhist|].
  intros r answer ->.
  change 1 with (Z.of_nat 1) in Hhist, Hlast.
  rewrite attemptHistory_call in Hhist, Hlast.
  unfold notionCall in Hlast at 1. injection Hlast as <- _.
  rewrite <- app_assoc in Hhist. apply app_inv_head in Hhist.
  by rewrite backoffTrace_snoc in Hhist.
Qed.

(** X1 at a remote side that answers 429 to the first two calls and
    accepts the third. *)
Lemma retryWithBackoff_recovers_witness :
  let flaky : async string :=
    notionCall (PagesRetrieve "p")
      (λ h, if bool_decide (length h < 4)%nat
            then Throw (Error (Some 429) "busy") else Ok "page") in
  retryWithBackoff flaky 3 1000 [] =
    ([Call (PagesRetrieve "p"); Sleep 1000;
      Call (PagesRetrieve "p"); Sleep 2000;
      Call (PagesRetrieve "p")], Ok "page").
Proof.
  intros flaky.
  destruct (retryWithBackoff_recovers flaky 3 1000 [] 2
              [Call (PagesRetrieve "p")] "page")
    as (es' & Hrun & _ & Htrace).
  - lia.
  - intros j Hj. exists (Error (Some 429) "busy").
    destruct j as [|[|j]]; [done|done|lia].
  - reflexivity.
  - rewrite Hrun. by rewrite (Htrace _ _ eq_refl).
Defined.

(** X2.  With [maxAttempts] below 1 the loop of [retryWithBackoff] is
    never entered: the operation is not invoked at all, nothing is
    emitted, and the error thrown is the fallback
    ["Unknown error occurred"], whatever the operation would have
    done. *)
Theorem retryWithBackoff_no_attempt {A} (fn : async A)
    (maxAttempts initialDelay : Z) (h : history) :
  maxAttempts ≤ 0 →
  retryWithBackoff fn maxAttempts initialDelay h = ([], Throw unknownError).
Proof.
  intros Hmax. unfold retryWithBackoff.
  by replace (Z.to_nat maxAttempts) with O by lia.
Qed.

(** X2 with no attempt allowed, on a remote side that would have
    answered. *)
Lemma retryWithBackoff_no_attempt_witness :
  0 ≤ 0
  ∧ retryWithBackoff
      (notionCall (PagesRetrieve "p") (λ h, pages_retrieve quietClient h "p"))
      0 1000 []
    = ([], Throw (Error None "Unknown error occurred")).
Proof.
  split; [lia|].
  by apply (retryWithBackoff_no_attempt _ 0 1000 []).
Defined.

(** ** The page index and [createOrUpdatePage] *)

Lemma mapGet_mapSet {V} (key key' : string) (v : V) m :
  mapGet key' (mapSet key v m)
  = if bool_decide (key = key') then Some v else mapGet key' m.
Proof.
  induction m as [|[k w] m IH]; simpl.
  - by repeat case_bool_decide.
  - destruct (decide (k = key)) as [->|Hk].
    + rewrite bool_decide_eq_true_2 by done. simpl.
      by repeat case_bool_decide.
    + rewrite bool_decide_eq_false_2 by done. simpl. rewrite IH.
      repeat case_bool_decide; congruence.
Qed.

Lemma extends_refl m : extends m m.
Proof. by intros key pageLink. Qed.

Lemma extends_trans m1 m2 m3 : extends m1 m2 → extends m2 m3 → extends m1 m3.
Proof. intros H12 H23 key pageLink Hget. by apply H23, H12. Qed.

Section Reconciliation.
Variable notion : Client.
Variable maxRetryAttempts : Z.

Abbreviation createOrUpdatePage' :=
  (createOrUpdatePage notion maxRetryAttempts).
Abbreviation syncFiles' := (syncFiles notion maxRetryAttempts).
Abbreviation syncSubfolders' := (syncSubfolders notion maxRetryAttempts).
Abbreviation syncFolder' := (syncFolder notion maxRetryAttempts).

(** What a completed [createOrUpdatePage] leaves: the index holds the
    entries it held, the key of the page is bound to the id returned,
    and a later call for the same names on an index that holds these
    entries returns this id without any request. *)
Lemma createOrUpdatePage_outcome folderName parentId parentName linkMap
    h es pageId linkMap' :
  createOrUpdatePage' folderName parentId parentName linkMap h
    = (es, Ok (pageId, linkMap')) →
  extends linkMap linkMap'
  ∧ (∃ pageLink,
       mapGet (commonPageKey parentName folderName) linkMap' = Some pageLink
       ∧ link_id pageLink = pageId)
  ∧ (∀ key, key ≠ commonPageKey parentName folderName →
       mapGet key linkMap' = mapGet key linkMap)
  ∧ ∀ linkMap2 parentId' h2,
      extends linkMap' linkMap2 →
      createOrUpdatePage' folderName parentId' parentName linkMap2 h2
      = ([], Ok (pageId, linkMap2)).
Proof.
  unfold createOrUpdatePage.
  destruct (mapGet (commonPageKey parentName folderName) linkMap)
    as [pageLink|] eqn:Hget.
  - intros [= <- <- <-]. split; [apply extends_refl|].
    split; [by eauto|]. split; [done|].
    intros linkMap2 parentId' h2 Hext. by rewrite (Hext _ _ Hget).
  - unfold mbind, async_bind.
    destruct (retryWithBackoff _ _ _ h) as [es1 [response|e]]; [|done].
    intros [= <- <- <-].
    assert (mapGet (commonPageKey parentName folderName)
              (mapSet (commonPageKey parentName folderName)
                 (newNotionPageLink response) linkMap)
            = Some (newNotionPageLink response)) as Hnew.
    { rewrite mapGet_mapSet. by rewrite bool_decide_eq_true_2. }
    split; [|split; [by eauto|split]].
    + intros key pageLink Hkey. rewrite mapGet_mapSet.
      case_bool_decide; [congruence|done].
    + intros key Hne. rewrite mapGet_mapSet.
      by rewrite bool_decide_eq_false_2.
    + intros linkMap2 parentId' h2 Hext. by rewrite (Hext _ _ Hnew).
Qed.
(** The body of [syncFolder], its two loops named. *)
Lemma syncFolder_body dirName folder parentId parentName createFolder st :
  syncFolder' dirName folder parentId parentName createFolder st =
  ('(folderPageId, linkMap1) ←
     (if createFolder
      then createOrUpdatePage' (name folder) parentId parentName (linkMapOf st)
      else mret (parentId, linkMapOf st));
   let childParentName :=
     if bool_decide (dirName = name folder) then parentName
     else parentName +:+ "/" +:+ name folder in
   st2 ← syncFiles' folderPageId childParentName (files folder)
           {| linkMapOf := linkMap1; pagesOf := pagesOf st;
              folderPageIdsOf := {[folderPageId]} ∪ folderPageIdsOf st |};
   syncSubfolders' dirName folderPageId childParentName (subfolders folder)
     st2).
Proof. by destruct folder. Qed.

Lemma filesOf_body folder :
  filesOf folder = files folder ++ flat_map filesOf (subfolders folder).
Proof. by destruct folder. Qed.

(** What a completed loop over the files leaves, and what the loop does
    when it is run again on an index that holds what it left. *)
Lemma syncFiles_outcome folderPageId childParentName fs :
  ∀ st h es st',
    syncFiles' folderPageId childParentName fs st h = (es, Ok st') →
    extends (linkMapOf st) (linkMapOf st')
    ∧ ∃ newPages,
        pagesOf st' = pagesOf st ++ newPages
        ∧ folderPageIdsOf st' = folderPageIdsOf st
        ∧ newPages.*2 = fs
        ∧ ∀ st2 h2,
            extends (linkMapOf st') (linkMapOf st2) →
            syncFiles' folderPageId childParentName fs st2 h2
            = ([], Ok {| linkMapOf := linkMapOf st2;
                         pagesOf := pagesOf st2 ++ newPages;
                         folderPageIdsOf := folderPageIdsOf st2 |}).
Proof.
  induction fs as [|file fs IH]; intros st h es st' Hrun; simpl in Hrun.
  - injection Hrun as <- <-. split; [apply extends_refl|].
    exists []. rewrite app_nil_r. do 3 (split; [done|]).
    intros [lm pg ids] h2 _. simpl. by rewrite app_nil_r.
  - unfold mbind, async_bind in Hrun.
    destruct (createOrUpdatePage _ _ _ _ _ _ h)
      as [es1 [[pageId linkMap']|e]] eqn:Hpage; [|done].
    destruct (syncFiles _ _ _ _ fs _ (h ++ es1)) as [es2 r2] eqn:Hrest.
    injection Hrun as <- ->.
    apply createOrUpdatePage_outcome in Hpage as (Hext1 & _ & _ & Hagain1).
    apply IH in Hrest as (Hext2 & newPages & Hpages & Hids & Hfiles & Hagain2).
    simpl in Hext2, Hpages, Hids. split; [by eapply extends_trans|].
    exists ((pageId, file) :: newPages).
    rewrite Hpages, <- app_assoc. do 2 (split; [done|]).
    split; [by rewrite fmap_cons, Hfiles|].
    intros st2 h2 Hext. simpl. unfold mbind, async_bind.
    rewrite Hagain1 by (by eapply extends_trans).
    rewrite Hagain2 by done. simpl.
    by rewrite <- app_assoc.
Qed.

(** What a completed [syncFolder] leaves: the index holds what it held,
    one page per file of the folder was added to [pages], in the order
    of [filesOf], and running [syncFolder] again on an index that holds
    what was left issues no request and adds the same pages and folder
    page ids. *)
Lemma syncFolder_outcome dirName folder :
  ∀ parentId parentName createFolder st h es st',
    syncFolder' dirName folder parentId parentName createFolder st h
      = (es, Ok st') →
    extends (linkMapOf st) (linkMapOf st')
    ∧ ∃ newPages newFolderPageIds,
        pagesOf st' = pagesOf st ++ newPages
        ∧ folderPageIdsOf st' = newFolderPageIds ∪ folderPageIdsOf st
        ∧ newPages.*2 = filesOf folder
        ∧ (createFolder = false → parentId ∈ newFolderPageIds)
        ∧ ∀ st2 h2 parentId',
            extends (linkMapOf st') (linkMapOf st2) →
            (createFolder = false → parentId' = parentId) →
            syncFolder' dirName folder parentId' parentName createFolder st2 h2
            = ([], Ok {| linkMapOf := linkMapOf st2;
                         pagesOf := pagesOf st2 ++ newPages;
                         folderPageIdsOf :=
                           newFolderPageIds ∪ folderPageIdsOf st2 |}).
Proof.
  induction folder as [n fs subs IH] using Folder_ind'.
  intros parentId parentName createFolder st h es st' Hrun.
  rewrite syncFolder_body in Hrun. rewrite filesOf_body.
  cbn [name files subfolders] in Hrun |- *.
  set (childParentName :=
         if bool_decide (dirName = n) then parentName
         else parentName +:+ "/" +:+ n) in *.
  unfold mbind at 1, async_bind at 1 in Hrun.
  destruct ((if createFolder
             then createOrUpdatePage' n parentId parentName (linkMapOf st)
             else mret (parentId, linkMapOf st)) h)
    as [es1 [[folderPageId linkMap1]|e]] eqn:Hfolder; [|done].
  assert (extends (linkMapOf st) linkMap1
          ∧ (createFolder = false → folderPageId = parentId)
          ∧ ∀ linkMap2 parentId' h2,
              extends linkMap1 linkMap2 →
              (createFolder = false → parentId' = parentId) →
              (if createFolder
               then createOrUpdatePage' n parentId' parentName linkMap2
               else mret (parentId', linkMap2)) h2
              = ([], Ok (folderPageId, linkMap2)))
    as (Hext1 & Hroot & Hagain1).
  { destruct createFolder.
    - apply createOrUpdatePage_outcome in Hfolder as (? & _ & _ & Hagain).
      split; [done|]. split; [done|]. intros. by apply Hagain.
    - injection Hfolder as <- <- <-. split; [apply extends_refl|].
      split; [done|]. intros linkMap2 parentId' h2 _ ->; done. }
  clear Hfolder. unfold mbind at 1, async_bind at 1 in Hrun.
  destruct (syncFiles _ _ _ _ fs _ (h ++ es1)) as [es2 [st2|e]] eqn:Hfs;
    [|by destruct (_ : list event * result Reconciled)].
  apply syncFiles_outcome in Hfs
    as (Hext2 & filePages & Hpages2 & Hids2 & Hfiles2 & Hagain2).
  simpl in Hext2, Hpages2, Hids2.
  destruct (syncSubfolders _ _ _ _ _ subs st2 ((h ++ es1) ++ es2))
    as [es3 r3] eqn:Hsubs.
  injection Hrun as <- ->.
  assert (extends (linkMapOf st2) (linkMapOf st')
          ∧ ∃ subPages subIds,
              pagesOf st' = pagesOf st2 ++ subPages
              ∧ folderPageIdsOf st' = subIds ∪ folderPageIdsOf st2
              ∧ subPages.*2 = flat_map filesOf subs
              ∧ ∀ st3 h3,
                  extends (linkMapOf st') (linkMapOf st3) →
                  syncSubfolders' dirName folderPageId childParentName subs
                    st3 h3
                  = ([], Ok {| linkMapOf := linkMapOf st3;
                               pagesOf := pagesOf st3 ++ subPages;
                               folderPageIdsOf :=
                                 subIds ∪ folderPageIdsOf st3 |}))
    as (Hext3 & subPages & subIds & Hpages3 & Hids3 & Hfiles3 & Hagain3).
  { clear Hagain1 Hagain2 Hext1 Hext2 Hpages2 Hids2 Hroot.
    revert Hsubs. generalize ((h ++ es1) ++ es2). revert st2 es3.
    induction IH as [|sub subs Hsub _ IHsubs]; intros st2 es3 h0 Hsubs.
    - simpl in Hsubs. injection Hsubs as <- <-.
      split; [apply extends_refl|]. exists [], ∅.
      rewrite app_nil_r, (left_id_L ∅ (∪)). do 3 (split; [done|]).
      intros [lm pg ids] h3 _. simpl.
      by rewrite app_nil_r, (left_id_L ∅ (∪)).
    - simpl in Hsubs. unfold mbind, async_bind in Hsubs.
      destruct (syncFolder _ _ _ sub _ _ _ st2 h0) as [esA [stA|e]] eqn:HA;
        [|done].
      destruct (syncSubfolders _ _ _ _ _ subs stA (h0 ++ esA))
        as [esB rB] eqn:HB.
      injection Hsubs as <- ->.
      apply Hsub in HA
        as (HextA & pagesA & idsA & HpA & HiA & HfA & _ & HagainA).
      apply IHsubs in HB
        as (HextB & pagesB & idsB & HpB & HiB & HfB & HagainB).
      split; [by eapply extends_trans|].
      exists (pagesA ++ pagesB), (idsB ∪ idsA).
      rewrite HpB, HpA, HiB, HiA, <- app_assoc, (assoc_L (∪)).
      do 2 (split; [done|]).
      split; [simpl; by rewrite fmap_app, HfA, HfB|].
      intros st3 h3 Hext. simpl. unfold mbind, async_bind.
      rewrite HagainA by (done || by eapply extends_trans).
      rewrite HagainB by done. simpl.
      by rewrite <- app_assoc, (assoc_L (∪)). }
  split; [eapply extends_trans; [|done]; by eapply extends_trans|].
  exists (filePages ++ subPages), (subIds ∪ {[folderPageId]}).
  rewrite Hpages3, Hpages2, Hids3, Hids2, <- app_assoc, (assoc_L (∪)).
  do 2 (split; [done|]).
  split; [by rewrite fmap_app, Hfiles2, Hfiles3|].
  split.
  { intros Hno. rewrite <- (Hroot Hno).
    apply elem_of_union_r. by apply elem_of_singleton. }
  intros st4 h4 parentId' Hext Hsame.
  rewrite syncFolder_body. cbn [name files subfolders].
  fold childParentName.
  unfold mbind at 1, async_bind at 1.
  rewrite Hagain1;
    [|exact (extends_trans _ _ _ Hext2 (extends_trans _ _ _ Hext3 Hext))
     |done].
  unfold mbind at 1, async_bind at 1.
  rewrite Hagain2 by exact (extends_trans _ _ _ Hext3 Hext).
  rewrite Hagain3 by done. simpl.
  by rewrite <- app_assoc, (assoc_L (∪)).
Qed.
End Reconciliation.

(** X3.  A completed [createOrUpdatePage] leaves the key
    [parentName/folderName] bound to a page link with the id it
    returns and every other key as it was; called again for the same
    names on the index it left (and whatever the parent id), it returns
    the same id and issues no request. *)
Theorem createOrUpdatePage_once (notion : Client) (maxRetryAttempts : Z)
    (folderName parentId parentName : string) (linkMap : PageIndex)
    (h : history) (es : list event) (pageId : string)
    (linkMap' : PageIndex) :
  createOrUpdatePage notion maxRetryAttempts folderName parentId parentName
    linkMap h = (es, Ok (pageId, linkMap')) →
  (∃ pageLink,
     mapGet (commonPageKey parentName folderName) linkMap' = Some pageLink
     ∧ link_id pageLink = pageId)
  ∧ (∀ key, key ≠ commonPageKey parentName folderName →
       mapGet key linkMap' = mapGet key linkMap)
  ∧ ∀ parentId' h2,
      createOrUpdatePage notion maxRetryAttempts folderName parentId'
        parentName linkMap' h2 = ([], Ok (pageId, linkMap')).
Proof.
  intros (_ & Hbound & Hothers & Hagain)%createOrUpdatePage_outcome.
  split; [done|]. split; [done|].
  intros parentId' h2. apply Hagain, extends_refl.
Qed.

(** X3 on an empty index: the page of ["notes"] is created under
    ["./notes"], and a second call finds it. *)
Lemma createOrUpdatePage_once_witness :
  createOrUpdatePage quietClient 3 "notes" "root" "." [] []
    = ([Call (PagesCreate "root" "notes")],
       Ok ("notes", [("./notes", {| link_id := "notes"; link := "" |})]))
  ∧ createOrUpdatePage quietClient 3 "notes" "elsewhere" "."
      [("./notes", {| link_id := "notes"; link := "" |})]
      [Call (PagesCreate "root" "notes")]
    = ([], Ok ("notes", [("./notes", {| link_id := "notes"; link := "" |})])).
Proof.
  assert (createOrUpdatePage quietClient 3 "notes" "root" "." [] []
          = ([Call (PagesCreate "root" "notes")],
             Ok ("notes", [("./notes", {| link_id := "notes"; link := "" |})])))
    as Hrun by reflexivity.
  split; [exact Hrun|].
  apply (createOrUpdatePage_once _ _ _ _ _ _ _ _ _ _ Hrun).
Defined.

(** X4.  [syncFolder] is idempotent on the page index: once a call has
    completed, the same call on the index it left issues no request,
    leaves the index as it is and collects the same pages and folder
    page ids. *)
Theorem syncFolder_again (notion : Client) (maxRetryAttempts : Z)
    (dirName : string) (folder : Folder) (parentId parentName : string)
    (createFolder : bool) (st : Reconciled) (h : history)
    (es : list event) (st' : Reconciled) :
  syncFolder notion maxRetryAttempts dirName folder parentId parentName
    createFolder st h = (es, Ok st') →
  ∀ h2,
    syncFolder notion maxRetryAttempts dirName folder parentId parentName
      createFolder
      {| linkMapOf := linkMapOf st'; pagesOf := pagesOf st;
         folderPageIdsOf := folderPageIdsOf st |} h2
    = ([], Ok st').
Proof.
  intros (_ & newPages & newIds & Hpages & Hids & _ & _ & Hagain)
    %syncFolder_outcome h2.
  rewrite (Hagain _ h2 parentId); [|apply extends_refl|done].
  simpl. rewrite <- Hpages, <- Hids. by destruct st'.
Qed.

(** X4 on a tree of one file in one subfolder: the first run creates
    two pages, the second none. *)
Lemma syncFolder_again_witness :
  let dir :=
    MkFolder "." []
      [MkFolder "guide"
         [{| fileName := "intro"; getContent := λ _, [];
             hasChanged := None |}] []] in
  let fresh := {| linkMapOf := []; pagesOf := []; folderPageIdsOf := ∅ |} in
  ∃ st',
    syncFolder quietClient 3 "." dir "root" "." false fresh []
      = ([Call (PagesCreate "root" "guide");
          Call (PagesCreate "guide" "intro")], Ok st')
    ∧ linkMapOf st'
      = [("./guide", {| link_id := "guide"; link := "" |});
         ("./guide/intro", {| link_id := "intro"; link := "" |})]
    ∧ syncFolder quietClient 3 "." dir "root" "." false
        {| linkMapOf := linkMapOf st'; pagesOf := [];
           folderPageIdsOf := ∅ |} []
      = ([], Ok st').
Proof.
  intros dir fresh. eexists. split; [reflexivity|]. split; [reflexivity|].
  apply (syncFolder_again quietClient 3 "." dir "root" "." false fresh []
           [Call (PagesCreate "root" "guide");
            Call (PagesCreate "guide" "intro")]).
  reflexivity.
Defined.

(** X5.  A completed [syncFolder] has added to [pages] exactly one
    page per file of the folder, in the order files first, then each
    subfolder in turn; it has kept every entry the page index held;
    and the call on the synchronised directory itself
    ([createFolder = false]) has put the page it was given among the
    folder page ids. *)
Theorem syncFolder_one_page_per_file (notion : Client) (maxRetryAttempts : Z)
    (dirName : string) (folder : Folder) (parentId parentName : string)
    (createFolder : bool) (st : Reconciled) (h : history)
    (es : list event) (st' : Reconciled) :
  syncFolder notion maxRetryAttempts dirName folder parentId parentName
    createFolder st h = (es, Ok st') →
  (pagesOf st').*2 = (pagesOf st).*2 ++ filesOf folder
  ∧ (∀ key pageLink,
       mapGet key (linkMapOf st) = Some pageLink →
       mapGet key (linkMapOf st') = Some pageLink)
  ∧ folderPageIdsOf st ⊆ folderPageIdsOf st'
  ∧ (createFolder = false → parentId ∈ folderPageIdsOf st').
Proof.
  intros (Hext & newPages & newIds & Hpages & Hids & Hfiles & Hroot & _)
    %syncFolder_outcome.
  split; [by rewrite Hpages, fmap_app, Hfiles|]. split; [exact Hext|].
  rewrite Hids. split.
  - apply union_subseteq_r.
  - intros Hno. by apply elem_of_union_l, Hroot.
Qed.

(** X5 on the sample tree with the index of an earlier run. *)
Lemma syncFolder_one_page_per_file_witness :
  let known : PageIndex := [("./old", {| link_id := "x1"; link := "" |})] in
  ∃ st',
    syncFolder quietClient 3 "." sampleDir "root" "." false
      {| linkMapOf := known; pagesOf := []; folderPageIdsOf := ∅ |} []
      = ([Call (PagesCreate "root" "notes")], Ok st')
    ∧ (pagesOf st').*2 = files sampleDir
    ∧ mapGet "./old" (linkMapOf st')
      = Some {| link_id := "x1"; link := "" |}
    ∧ "root" ∈ folderPageIdsOf st'.
Proof.
  intros known. eexists. split; [reflexivity|].
  match goal with
  | |- ((pagesOf ?st').*2 = _) ∧ _ =>
    destruct (syncFolder_one_page_per_file quietClient 3 "." sampleDir
                "root" "." false
                {| linkMapOf := known; pagesOf := []; folderPageIdsOf := ∅ |}
                [] [Call (PagesCreate "root" "notes")] st' eq_refl)
      as (Hfiles & Hkept & _ & Hroot)
  end.
  split; [exact Hfiles|]. split; [by apply Hkept|by apply Hroot].
Defined.

(** ** [syncToNotion] as a whole *)

(** X6.  Without [deleteNonExistentFiles] a run of [syncToNotion]
    archives no page, whatever the page index holds; without a
    [syncStateManager] it writes no synchronisation state. *)
Theorem syncToNotion_optional_passes (notion : Client) (maxRetryAttempts : Z)
    (mergeBlocks : list block → list block → list edit)
    (pageId : string) (dir : Folder) (linkMap : PageIndex) :
  (∀ syncStateManager,
     emits (λ ev, isArchiveCall ev = false)
       (syncToNotion notion maxRetryAttempts mergeBlocks pageId dir linkMap
          false syncStateManager))
  ∧ (∀ deleteNonExistentFiles,
       emits (λ ev, isStateSave ev = false)
         (syncToNotion notion maxRetryAttempts mergeBlocks pageId dir linkMap
            deleteNonExistentFiles false)).
Proof.
  split.
  - intros syncStateManager. unfold syncToNotion. apply emits_bind.
    { by apply emits_syncFolder. }
    intros st. apply emits_bind.
    { by apply emits_syncPages. }
    intros _. apply emits_bind.
    { destruct syncStateManager; [by apply emits_emit|apply emits_ret]. }
    intros _. apply emits_bind; [apply emits_ret|]. intros _. apply emits_ret.
  - intros deleteNonExistentFiles. unfold syncToNotion. apply emits_bind.
    { by apply emits_syncFolder. }
    intros st. apply emits_bind.
    { apply emits_forEach. intros [page file] _.
      case_bool_decide; [apply emits_ret|].
      apply emits_bind; [by apply emits_updateBlocks|].
      intros _. apply emits_ret. }
    intros _. apply emits_bind; [apply emits_ret|].
    intros _. apply emits_bind; [|intros; apply emits_ret].
    destruct deleteNonExistentFiles; [|apply emits_ret].
    apply emits_bind; [|intros; apply emits_ret].
    apply emits_archiveOrphans; done.
Qed.



(** ** The ancestor check of the archival pass *)

(** X8.  The archival pass passes over a key for an archived ancestor
    exactly when some archived key, followed by a slash, starts it: a
    key that merely shares its first characters with an archived key
    is not passed over. *)
Theorem hasArchivedAncestor_path_prefix (key : string)
    (archivedPages : gset string) :
  hasArchivedAncestor key archivedPages = true ↔
  ∃ anc rest, anc ∈ archivedPages ∧ key = anc +:+ "/" +:+ rest.
Proof.
  rewrite hasArchivedAncestor_true. split.
  - intros (anc & [rest ->]%ancestorPaths_inv & Harchived). eauto.
  - intros (anc & rest & Harchived & ->). exists anc.
    split; [apply ancestorPaths_prefix|done].
Qed.

(** ** [findMaxDepth] *)

Lemma block_ind' (P : block → Prop) :
  (∀ i t p, P (Block i t p None)) →
  (∀ i t p cs, Forall P cs → P (Block i t p (Some cs))) →
  ∀ b, P b.
Proof.
  intros Hleaf Hnode. fix IH 1. intros [i t p [cs|]]; [|apply Hleaf].
  apply Hnode.
  induction cs as [|c cs IHcs]; constructor; [apply IH|exact IHcs].
Qed.

Lemma foldl_max_le {A} (f : A → Z) (l : list A) : ∀ init x,
  x ≤ foldl (λ m c, Z.max m (f c)) init l ↔ x ≤ init ∨ ∃ c, c ∈ l ∧ x ≤ f c.
Proof.
  induction l as [|c l IH]; intros init x; simpl.
  - split; [by left|]. intros [?|(c & Hc & _)]; [done|].
    by apply elem_of_nil in Hc.
  - rewrite IH. split.
    + intros [Hmax|(c' & Hc' & Hle)].
      * destruct (Z.max_spec init (f c)) as [[_ Heq]|[_ Heq]];
          rewrite Heq in Hmax; [right|by left].
        exists c. split; [by left|done].
      * right. exists c'. split; [by right|done].
    + intros [Hinit|(c' & [->|Hc']%elem_of_cons & Hle)].
      * left. lia.
      * left. lia.
      * right. eauto.
Qed.

Lemma findMaxDepthNode_nestsTo b : ∀ depth n,
  depth + Z.of_nat n ≤ findMaxDepthNode b depth
  ↔ nestsTo n (default [] (children b)) = true.
Proof.
  induction b as [i t p|i t p cs IH] using block_ind'; intros depth n.
  - simpl. destruct n as [|n]; simpl; [split; [done|lia]|].
    split; [lia|done].
  - simpl. rewrite foldl_max_le. destruct n as [|n]; simpl.
    { split; [done|]. intros _. left. lia. }
    rewrite existsb_exists. split.
    + intros [Hle|(c & Hc & Hle)]; [lia|].
      exists c. split; [by apply list_elem_of_In|].
      eapply Forall_forall in IH; [|exact Hc].
      apply (IH (depth + 1) n). lia.
    + intros (c & Hc%list_elem_of_In & Hn). right. exists c.
      split; [done|].
      eapply Forall_forall in IH; [|exact Hc].
      apply (IH (depth + 1) n) in Hn. lia.
Qed.

(** X9.  [findMaxDepth({ children: blocks }, depth)] is [depth] plus
    the length of the longest chain of blocks nested in one another
    that starts in [blocks]; so [appendBlocksInChunks] limits the
    children exactly when some block of the list holds a block that
    holds a block that holds a block. *)
Theorem findMaxDepth_longest_chain (blocks : list block) (depth : Z)
    (n : nat) :
  (depth + Z.of_nat n ≤ findMaxDepth (Some blocks) depth
   ↔ nestsTo n blocks = true)
  ∧ (bool_decide (3 < findMaxDepth (Some blocks) 0) = nestsTo 4 blocks).
Proof.
  assert (∀ d m, d + Z.of_nat m ≤ findMaxDepth (Some blocks) d
                 ↔ nestsTo m blocks = true) as Hchain.
  { intros d m. simpl. rewrite foldl_max_le. destruct m as [|m]; simpl.
    { split; [done|]. intros _. left. lia. }
    rewrite existsb_exists. split.
    - intros [Hle|(c & Hc & Hle)]; [lia|].
      exists c. split; [by apply list_elem_of_In|].
      apply (findMaxDepthNode_nestsTo c (d + 1) m). lia.
    - intros (c & Hc%list_elem_of_In & Hm). right. exists c.
      split; [done|].
      apply (findMaxDepthNode_nestsTo c (d + 1) m) in Hm. lia. }
  split; [apply Hchain|].
  destruct (nestsTo 4 blocks) eqn:Hfour.
  - apply bool_decide_eq_true. apply (Hchain 0 4%nat) in Hfour. lia.
  - apply bool_decide_eq_false. intros Hdeep.
    assert (nestsTo 4 blocks = true); [|congruence].
    apply (Hchain 0 4%nat). lia.
Qed.

(** ** [appendBlocksInChunks] on blocks that need no limiting *)

Lemma concat_slices {A} (l : list A) (m : nat) :
  concat ((λ i, slice i (i + NOTION_BLOCK_LIMIT) l)
            <$> ((λ k, k * NOTION_BLOCK_LIMIT)%nat <$> seq 0 m))
  = take (m * NOTION_BLOCK_LIMIT) l.
Proof.
  induction m as [|m IH]; [done|].
  rewrite seq_S, !fmap_app, concat_app, IH, !fmap_cons, !fmap_nil.
  cbn [concat]. rewrite app_nil_r, Nat.add_0_l. unfold slice.
  replace (m * NOTION_BLOCK_LIMIT + NOTION_BLOCK_LIMIT
           - m * NOTION_BLOCK_LIMIT)%nat with NOTION_BLOCK_LIMIT by lia.
  rewrite take_take_drop. f_equal. lia.
Qed.

Lemma chunkOf_whole sl : chunkOf false sl = sl.
Proof. unfold chunkOf. simpl. apply list_fmap_id. Qed.

Lemma detachedChildren_none sl : detachedChildren false sl = [].
Proof.
  unfold detachedChildren.
  generalize (imap (λ index (b : block), (index, b)) sl).
  intros l. induction l as [|[index b] l IH]; [done|]. simpl. exact IH.
Qed.

(** A loop whose every turn is one accepted event. *)
Lemma forEach_events {A} (body : A → async unit) (ev : A → event)
    (l : list A) :
  (∀ x h, x ∈ l → body x h = ([ev x], Ok tt)) →
  ∀ h, forEach body l h = (ev <$> l, Ok tt).
Proof.
  induction l as [|x l IH]; intros Hbody h; [done|].
  simpl. unfold mbind, async_bind. rewrite Hbody by left.
  rewrite IH by (intros; apply Hbody; by right). done.
Qed.

(** X10.  When the blocks nest no deeper than 3 and the remote side
    accepts every append, [appendBlocksInChunks] issues one append call
    per started hundred of blocks and nothing else; the chunks are
    consecutive slices that together make up the blocks, in order; all
    calls go to the same page with the same [after] anchor (none when
    [afterId] is empty or absent). *)
Theorem appendBlocksInChunks_flat (notion : Client) (maxRetryAttempts : Z)
    (pageId : string) (blocks : list block) (afterId : option string)
    (h : history) :
  1 ≤ maxRetryAttempts →
  findMaxDepth (Some blocks) 0 ≤ 3 →
  (∀ h' chunk after,
     ∃ ids, blocks_children_append notion h' pageId chunk after = Ok ids) →
  let anchor := if truthy afterId then afterId else None in
  let chunks :=
    (λ i, slice i (i + NOTION_BLOCK_LIMIT) blocks)
      <$> chunkStarts (length blocks) in
  appendBlocksInChunks notion maxRetryAttempts pageId blocks afterId h
  = ((λ chunk, Call (BlocksChildrenAppend pageId chunk anchor)) <$> chunks,
     Ok tt)
  ∧ concat chunks = blocks
  ∧ length chunks = ((length blocks + 99) / 100)%nat.
Proof.
  intros Hmax Hflat Haccepts anchor chunks. split; [|split].
  - rewrite appendBlocksInChunks_unfold.
    rewrite bool_decide_eq_false_2 by lia.
    unfold chunks. rewrite <- list_fmap_compose.
    apply forEach_events. intros i h' _.
    unfold appendChunk. rewrite detachedChildren_none, chunkOf_whole.
    unfold mbind, async_bind.
    destruct (Haccepts h' (slice i (i + NOTION_BLOCK_LIMIT) blocks) anchor)
      as [ids Hids].
    by rewrite (retryWithBackoff_answered _ _ _ _ _ ids Hmax Hids).
  - unfold chunks. rewrite chunkStarts_eq, concat_slices.
    apply take_ge. unfold NOTION_BLOCK_LIMIT.
    pose proof (Nat.div_mod_eq (length blocks + 99) 100) as Hdiv.
    pose proof (Nat.mod_upper_bound (length blocks + 99) 100 ltac:(lia)).
    lia.
  - unfold chunks. by rewrite length_fmap, chunkStarts_eq, length_fmap, length_seq.
Qed.

(** X10 on 250 paragraphs appended after block ["b0"]: three calls, of
    100, 100 and 50 blocks, each anchored after ["b0"]. *)
Lemma appendBlocksInChunks_flat_witness :
  let blocks := replicate 250 (Block None "paragraph" "text" None) in
  1 ≤ 3
  ∧ findMaxDepth (Some blocks) 0 ≤ 3
  ∧ (appendBlocksInChunks quietClient 3 "page" blocks (Some "b0") []).1
    = [Call (BlocksChildrenAppend "page" (take 100 blocks) (Some "b0"));
       Call (BlocksChildrenAppend "page" (take 100 blocks) (Some "b0"));
       Call (BlocksChildrenAppend "page" (take 50 blocks) (Some "b0"))].
Proof.
  intros blocks.
  assert (findMaxDepth (Some blocks) 0 ≤ 3) as Hflat by (by vm_compute).
  split; [lia|]. split; [exact Hflat|].
  destruct (appendBlocksInChunks_flat quietClient 3 "page" blocks
              (Some "b0") [] ltac:(lia) Hflat) as (-> & _ & _).
  { intros h' chunk after. simpl. eauto. }
  vm_compute. reflexivity.
Defined.

(** ** [getPageTitle] *)

(** X11.  A title returned by [getPageTitle] is never empty, and it is
    read off the first property of type ["title"] and the first item of
    its title array only: it is that item's [plain_text], or its
    [text.content] when the [plain_text] is empty or absent.  In every
    other case an error without [status] is thrown, whose message asks
    for a title and names the page by its [url]. *)
Theorem getPageTitle_first_item (pageResponse : GetPageResponse) :
  (∀ title,
     getPageTitle pageResponse = Ok title →
     title ≠ ""
     ∧ ∃ i prop first rest,
         properties pageResponse !! i = Some prop
         ∧ prop_type prop = "title"
         ∧ (∀ j other, properties pageResponse !! j = Some other →
              (j < i)%nat → prop_type other ≠ "title")
         ∧ prop_title prop = Some (first :: rest)
         ∧ (plain_text first = Some title
            ∨ (truthy (plain_text first) = false
               ∧ text_content first = Some title)))
  ∧ (∀ e, getPageTitle pageResponse = Throw e →
       e = noTitleError pageResponse
       ∧ status e = None
       ∧ message e
         = "No title found. Please set a title for the page "
           +:+ url pageResponse +:+ " and try again.").
Proof.
  unfold getPageTitle. split.
  - intros title.
    destruct (list_find _ (properties pageResponse)) as [[i prop]|] eqn:Hfind;
      [|done].
    apply list_find_Some in Hfind as (Hprop & Htype & Hfirst).
    destruct (prop_title prop) as [[|first rest]|] eqn:Htitle; [done| |done].
    destruct (truthy (plain_text first)) eqn:Hplain.
    + destruct (plain_text first) as [t|] eqn:Ht; [|done].
      rewrite Hplain. intros [= ->]. split.
      * intros ->. done.
      * exists i, prop, first, rest. rewrite Ht. by eauto 10.
    + destruct (text_content first) as [t|] eqn:Ht; [|done].
      destruct (truthy (Some t)) eqn:Htruthy; [|done].
      intros [= ->]. split.
      * intros ->. done.
      * exists i, prop, first, rest. by eauto 10.
  - intros e.
    destruct (list_find _ (properties pageResponse)) as [[i prop]|];
      [|by intros [= <-]].
    destruct (prop_title prop) as [[|first rest]|]; try by intros [= <-].
    destruct (if truthy (plain_text first) then _ else _) as [t|];
      [|by intros [= <-]].
    destruct (truthy _); [done|by intros [= <-]].
Qed.

(** The error names the page by its [url]. *)
Lemma getPageTitle_untitled_url :
  getPageTitle {| object := "page"; page_id := "p";
                  url := "https://www.notion.so/p"; properties := [] |}
  = Throw (Error None
             "No title found. Please set a title for the page https://www.notion.so/p and try again.").
Proof. reflexivity. Qed.

(** X11 on a page whose title item has an empty [plain_text]. *)
Lemma getPageTitle_first_item_witness :
  let page :=
    {| object := "page"; page_id := "p"; url := "";
       properties :=
         [{| prop_type := "rich_text"; prop_title := None |};
          {| prop_type := "title";
             prop_title :=
               Some [{| plain_text := Some ""; text_content := Some "Guide" |};
                     {| plain_text := Some "more"; text_content := None |}] |}]
    |} in
  getPageTitle page = Ok "Guide" ∧ "Guide" ≠ "".
Proof.
  intros page. split; [reflexivity|].
  by apply (proj1 (getPageTitle_first_item page) "Guide").
Defined.

(** ** [archiveChildPages] *)

(** X12.  [archiveChildPages] lists the blocks of the page once and,
    when the remote side accepts the requests, archives the child pages
    of that listing one by one in its order, leaving every other block
    alone; when the listing fails for another reason than a rate limit,
    nothing is archived. *)
Theorem archiveChildPages_trace (notion : Client) (pageId : string)
    (h : history) :
  (∀ results,
     blocks_children_list notion h pageId = Ok results →
     (∀ h' archived, pages_update_archived notion h' archived = Ok tt) →
     archiveChildPages notion pageId h
     = (Call (BlocksChildrenList pageId)
        :: ((λ archived, Call (PagesUpdateArchived archived))
              <$> childPageIdsOf results),
        Ok tt))
  ∧ (∀ e,
       blocks_children_list notion h pageId = Throw e →
       isRateLimit e = false →
       archiveChildPages notion pageId h
       = ([Call (BlocksChildrenList pageId)], Throw e)).
Proof.
  unfold archiveChildPages, mbind, async_bind. split.
  - intros results Hlist Haccepts.
    rewrite (retryWithBackoff_answered _ _ _ _ _ results) by done.
    rewrite (forEach_events _ (λ archived, Call (PagesUpdateArchived archived)));
      [done|].
    intros archived h' _. unfold archivePage.
    by apply retryWithBackoff_answered.
  - intros e Hlist Hrate.
    by rewrite (retryWithBackoff_refused _ _ _ _ _ e) by done.
Qed.

(** X12 on a page that holds a paragraph between two child pages. *)
Lemma archiveChildPages_trace_witness :
  let results :=
    [{| child_object := "block"; child_type := "child_page";
        child_id := "c1";
        child_payload := ""; child_has_children := false |};
     {| child_object := "block"; child_type := "paragraph";
        child_id := "b1";
        child_payload := ""; child_has_children := false |};
     {| child_object := "block"; child_type := "child_page";
        child_id := "c2";
        child_payload := ""; child_has_children := false |}] in
  let notion :=
    {| pages_retrieve := pages_retrieve quietClient;
       pages_create := pages_create quietClient;
       pages_update_archived := pages_update_archived quietClient;
       blocks_children_list := λ _ _, Ok results;
       blocks_children_append := blocks_children_append quietClient;
       blocks_delete := blocks_delete quietClient;
       existing_blocks := existing_blocks quietClient |} in
  archiveChildPages notion "root" []
  = ([Call (BlocksChildrenList "root");
      Call (PagesUpdateArchived "c1");
      Call (PagesUpdateArchived "c2")], Ok tt).
Proof.
  intros results notion.
  by apply (proj1 (archiveChildPages_trace notion "root" []) results).
Defined.

(** ** [getAllBlockPages] *)

Section PagingProperties.
Variable blocks_children_list_from :
  history → string → option string → result ListBlockChildrenResponse.
Variable maxRetryAttempts : Z.
Variable pageId : string.
Hypothesis one_attempt : 1 ≤ maxRetryAttempts.

Abbreviation listFrom' := (listFrom blocks_children_list_from maxRetryAttempts).
Abbreviation servesPages' := (servesPages blocks_children_list_from pageId).
Abbreviation listing := (Call (BlocksChildrenList pageId)).

Lemma listFrom_answered cursor response h :
  (∀ h', blocks_children_list_from h' pageId cursor = Ok response) →
  listFrom' pageId cursor h = ([listing], Ok response).
Proof. intros Hserved. by apply retryWithBackoff_answered. Qed.

(** The loop follows the cursors through all the pages. *)
Lemma discoverPages_serves responses : ∀ turns cursor allBlocks pageRequests h,
  servesPages' cursor responses →
  (length responses ≤ turns)%nat →
  discoverPages blocks_children_list_from maxRetryAttempts turns pageId cursor
    allBlocks pageRequests h
  = (replicate (length responses) listing,
     Ok (Some (allBlocks ++ concat (blockObjects <$> responses),
               pageRequests
               ++ (cursorAfter
                     <$> take (length responses - 1) responses)))).
Proof.
  induction responses as [|response rest IH];
    intros turns cursor allBlocks pageRequests h Hserves Hturns; [done|].
  destruct turns as [|turns]; [simpl in Hturns; lia|].
  destruct Hserves as [Hfirst Hrest]. simpl discoverPages.
  unfold mbind, async_bind. rewrite (listFrom_answered _ response) by done.
  destruct rest as [|next rest].
  - rewrite Hrest. simpl. by rewrite !app_nil_r.
  - destruct Hrest as [Hcursor Hrest]. rewrite Hcursor.
    rewrite (IH turns) by (done || simpl in *; lia).
    replace (length (response :: next :: rest) - 1)%nat
      with (S (length (next :: rest) - 1)) by (simpl; lia).
    rewrite firstn_cons, (fmap_cons cursorAfter), (fmap_cons blockObjects).
    rewrite concat_cons, <- !app_assoc. done.
Qed.

(** The second round asks for every page but the first again. *)
Lemma promiseAll_serves responses : ∀ cursor h,
  servesPages' cursor responses →
  promiseAll
    ((λ pageCursor,
        response ← listFrom' pageId pageCursor; mret (blockObjects response))
       <$> (cursorAfter <$> take (length responses - 1) responses)) h
  = (replicate (length responses - 1) listing,
     Ok (blockObjects <$> drop 1 responses)).
Proof.
  induction responses as [|response rest IH]; intros cursor h Hserves; [done|].
  destruct Hserves as [Hfirst Hrest].
  destruct rest as [|next rest]; [done|].
  destruct Hrest as [Hcursor Hrest].
  specialize (IH (cursorAfter response)
                (h ++ [listing]) Hrest).
  destruct Hrest as [Hnext _].
  replace (length (response :: next :: rest) - 1)%nat
    with (S (length (next :: rest) - 1)) by (simpl; lia).
  rewrite firstn_cons, !fmap_cons. cbn [promiseAll].
  unfold mbind at 1, async_bind at 1.
  rewrite (listFrom_answered _ next) by done.
  cbn [mret async_ret app]. rewrite IH. simpl. done.
Qed.

Lemma getAllBlockPages_serves responses turns h :
  servesPages' None responses →
  (length responses ≤ turns)%nat →
  getAllBlockPages blocks_children_list_from maxRetryAttempts turns pageId h
  = (replicate (2 * length responses - 1) listing,
     Ok (Some (concat (blockObjects <$> responses)
               ++ concat (blockObjects <$> drop 1 responses)))).
Proof.
  intros Hserves Hturns. unfold getAllBlockPages.
  unfold mbind at 1, async_bind at 1.
  rewrite (discoverPages_serves responses) by done.
  destruct responses as [|response rest]; [done|].
  destruct rest as [|next rest].
  - simpl. by rewrite !app_nil_r.
  - rewrite bool_decide_eq_false_2 by (rewrite length_app, length_fmap; simpl; lia).
    unfold mbind at 1, async_bind at 1.
    match goal with
    | |- context [drop 1 ([None] ++ ?l)] =>
      change (drop 1 ([None] ++ l)) with l
    end.
    rewrite (promiseAll_serves _ None) by done.
    cbn [mret async_ret app]. rewrite app_nil_r.
    replace (2 * length (response :: next :: rest) - 1)%nat
      with (length (response :: next :: rest)
            + (length (response :: next :: rest) - 1))%nat by (simpl; lia).
    by rewrite replicate_add.
Qed.
End PagingProperties.

(** X13.  When the remote side holds the listing of a page as [n] pages
    chained by their cursors, [getAllBlockPages] asks for the first
    page once and for each of the others twice, [2 n - 1] requests in
    all, and returns the blocks of all the pages followed once more by
    the blocks of every page but the first; a listing of one page is
    returned as it is. *)
Theorem getAllBlockPages_refetches
    (blocks_children_list_from :
       history → string → option string → result ListBlockChildrenResponse)
    (maxRetryAttempts : Z) (pageId : string)
    (responses : list ListBlockChildrenResponse) (turns : nat)
    (h : history) :
  1 ≤ maxRetryAttempts →
  servesPages blocks_children_list_from pageId None responses →
  (length responses ≤ turns)%nat →
  getAllBlockPages blocks_children_list_from maxRetryAttempts turns pageId h
  = (replicate (2 * length responses - 1) (Call (BlocksChildrenList pageId)),
     Ok (Some (concat (blockObjects <$> responses)
               ++ concat (blockObjects <$> drop 1 responses))))
  ∧ (length responses = 1%nat →
     concat (blockObjects <$> responses)
     ++ concat (blockObjects <$> drop 1 responses)
     = concat (blockObjects <$> responses)).
Proof.
  intros Hmax Hserves Hturns. split.
  - by apply getAllBlockPages_serves.
  - destruct responses as [|response [|next rest]]; [done| |done].
    intros _. simpl. by rewrite !app_nil_r.
Qed.

(** X13 on a listing of two pages of one block each: three requests,
    and the block of the second page comes back twice. *)
Lemma getAllBlockPages_refetches_witness :
  let item (blockId : string) :=
    {| child_object := "block"; child_type := "paragraph";
       child_id := blockId;
       child_payload := ""; child_has_children := false |} in
  let first :=
    {| results := [item "b1"]; has_more := true;
       next_cursor := Some "c1" |} in
  let second :=
    {| results := [item "b2"]; has_more := false; next_cursor := None |} in
  let remote : history → string → option string
               → result ListBlockChildrenResponse :=
    λ _ _ cursor, if bool_decide (cursor = Some "c1") then Ok second
                  else Ok first in
  1 ≤ 3
  ∧ servesPages remote "page" None [first; second]
  ∧ getAllBlockPages remote 3 5 "page" []
    = (replicate 3 (Call (BlocksChildrenList "page")),
       Ok (Some [item "b1"; item "b2"; item "b2"])).
Proof.
  intros item first second remote.
  assert (servesPages remote "page" None [first; second]) as Hserves.
  { simpl. by repeat split. }
  split; [lia|]. split; [exact Hserves|].
  destruct (getAllBlockPages_refetches remote 3 "page" [first; second] 5 []
              ltac:(lia) Hserves ltac:(simpl; lia)) as [-> _].
  reflexivity.
Defined.

(** ** [readMarkdownFiles] *)

Lemma Dirent_ind' (P : Dirent → Prop) :
  (∀ entry_name content, P (RegularFile entry_name content)) →
  (∀ entry_name e, P (Directory entry_name (Throw e))) →
  (∀ entry_name below, Forall P below → P (Directory entry_name (Ok below))) →
  (∀ entry_name, P (OtherEntry entry_name)) →
  (∀ entry_name, P (BrokenEntry entry_name)) →
  ∀ entry, P entry.
Proof.
  intros Hfile Hlocked Hdir Hother Hbroken. fix IH 1.
  intros [n c|n [below|e]|n|n];
    [apply Hfile| |apply Hlocked|apply Hother|apply Hbroken].
  apply Hdir.
  induction below as [|entry below IHbelow]; constructor;
    [apply IH|exact IHbelow].
Qed.

Lemma foldersOf_body folder :
  foldersOf folder = folder :: flat_map foldersOf (subfolders folder).
Proof. by destruct folder. Qed.

Section ReadingProperties.
Variables shouldIgnorePath pathFilter : string → bool.
Variable hasFileChanged : option (string → string → bool).
Variable toBlocks : string → string → list (string * string) → list block.

Abbreviation visit' :=
  (visit shouldIgnorePath pathFilter hasFileChanged toBlocks).
Abbreviation eachEntry' :=
  (eachEntry shouldIgnorePath pathFilter hasFileChanged toBlocks).
Abbreviation walk' :=
  (walk shouldIgnorePath pathFilter hasFileChanged toBlocks).

(** The turn of the loop for a directory that can be read, in terms of
    [walk]. *)
Lemma visit_directory prefix entry_name below folder :
  visit' prefix (Directory entry_name (Ok below)) folder =
  let pathFromRoot := prefix +:+ entry_name in
  if shouldIgnorePath ("./" +:+ pathFromRoot) then Ok folder
  else if negb (pathFilter ("./" +:+ pathFromRoot)) then Ok folder
  else
    match walk' entry_name (pathFromRoot +:+ "/") below with
    | Throw e => Throw e
    | Ok None => Ok folder
    | Ok (Some subfolder) =>
      Ok (MkFolder (name folder) (files folder)
            (subfolders folder ++ [subfolder]))
    end.
Proof.
  unfold walk. simpl.
  destruct (shouldIgnorePath _); [done|]. destruct (pathFilter _); [|done].
  simpl.
  match goal with
  | |- match ?loop with Ok _ => _ | Throw _ => _ end = _ =>
    change loop
      with (eachEntry' ((prefix +:+ entry_name) +:+ "/") below
              (MkFolder entry_name [] []))
  end.
  by destruct (eachEntry _ _ _ _ _ _ _).
Qed.

(** A folder all of whose folders hold a file, in them or below them,
    and whose files have a known [hasChanged]. *)
Abbreviation solid folder :=
  ((∀ sub, sub ∈ foldersOf folder → filesOf sub ≠ [])
   ∧ Forall (changeKnown hasFileChanged) (filesOf folder)).

(** A folder being filled whose files and subfolders are as they should
    be. *)
Abbreviation filling folder :=
  (Forall (changeKnown hasFileChanged) (files folder)
   ∧ Forall (λ sub, solid sub) (subfolders folder)).

Lemma filling_solid folder :
  filling folder → files folder ≠ [] ∨ subfolders folder ≠ [] → solid folder.
Proof.
  intros [Hfiles Hsubs] Hsome. split.
  - intros sub. rewrite foldersOf_body.
    intros [->|Hin]%elem_of_cons.
    + rewrite filesOf_body. destruct Hsome as [Hsome|Hsome].
      * intros [Hnil _]%app_eq_nil. done.
      * destruct (subfolders folder) as [|first subs]; [done|].
        apply Forall_cons in Hsubs as [[Hfirst _] _].
        intros [_ Hnil]%app_eq_nil. simpl in Hnil.
        apply app_eq_nil in Hnil as [Hnil _].
        apply (Hfirst first); [|done]. rewrite foldersOf_body. by left.
    + apply list_elem_of_In, in_flat_map in Hin as (s0 & Hs0 & Hin).
      apply list_elem_of_In in Hs0, Hin.
      eapply Forall_forall in Hsubs; [|exact Hs0].
      by apply Hsubs.
  - rewrite filesOf_body. apply Forall_app. split; [done|].
    apply Forall_forall. intros file.
    intros (s0 & Hs0 & Hin)%list_elem_of_In%in_flat_map.
    apply list_elem_of_In in Hs0, Hin.
    eapply Forall_forall in Hsubs; [|exact Hs0].
    destruct Hsubs as [_ Hgood]. by eapply Forall_forall in Hgood.
Qed.

Lemma eachEntry_filling prefix entries :
  Forall (λ entry, ∀ prefix folder folder',
            filling folder → visit' prefix entry folder = Ok folder' →
            filling folder' ∧ name folder' = name folder) entries →
  ∀ folder folder',
    filling folder → eachEntry' prefix entries folder = Ok folder' →
    filling folder' ∧ name folder' = name folder.
Proof.
  induction 1 as [|entry entries Hentry _ IH]; intros folder folder' Hfolder.
  - simpl. by intros [= <-].
  - simpl. destruct (visit _ _ _ _ prefix entry folder) as [folder1|e] eqn:Hone;
      [|done].
    destruct (Hentry _ _ _ Hfolder Hone) as [Hfilling Hname].
    intros Hrest. destruct (IH _ _ Hfilling Hrest) as [? ?].
    split; [done|congruence].
Qed.

Lemma visit_filling entry : ∀ prefix folder folder',
  filling folder → visit' prefix entry folder = Ok folder' →
  filling folder' ∧ name folder' = name folder.
Proof.
  induction entry as [n content|n e|n below IH|n|n] using Dirent_ind';
    intros prefix folder folder' Hfolder.
  - simpl. destruct (shouldIgnorePath _); [by intros [= <-]|].
    destruct (pathFilter _); [|by intros [= <-]]. simpl.
    destruct (endsWith n ".md"); [|by intros [= <-]].
    destruct content as [content|e]; [|done]. intros [= <-]. simpl.
    split; [|done]. destruct Hfolder as [Hfiles Hsubs]. split; [|done].
    apply Forall_app. split; [done|]. constructor; [|done].
    eexists. split; [done|]. by intros ->.
  - simpl. destruct (shouldIgnorePath _); [by intros [= <-]|].
    by destruct (pathFilter _); [|intros [= <-]].
  - rewrite visit_directory. simpl.
    destruct (shouldIgnorePath _); [by intros [= <-]|].
    destruct (pathFilter _); [|by intros [= <-]]. simpl.
    unfold walk.
    destruct (eachEntry _ _ _ _ _ below _) as [sub|e] eqn:Hbelow; [|done].
    apply (eachEntry_filling _ _ IH) in Hbelow as [Hsub _];
      [|by split; constructor].
    unfold unlessEmpty. case_bool_decide as Hsome; [|by intros [= <-]].
    intros [= <-]. simpl. split; [|done].
    destruct Hfolder as [Hfiles Hsubs]. split; [done|].
    apply Forall_app. split; [done|]. constructor; [|done].
    by apply filling_solid.
  - simpl. destruct (shouldIgnorePath _); [by intros [= <-]|].
    by destruct (pathFilter _); intros [= <-].
  - simpl. destruct (shouldIgnorePath _); [by intros [= <-]|].
    by destruct (pathFilter _); intros [= <-].
Qed.
End ReadingProperties.

(** X14.  A tree returned by [readMarkdownFiles] is named ["."] and
    has no empty folder: every folder of it, at any depth, holds a
    markdown file in it or below it.  Every file of the tree has a
    defined [hasChanged], which is [true] when no [syncStateManager] was
    given. *)
Theorem readMarkdownFiles_no_empty_folder
    (shouldIgnorePath pathFilter : string → bool)
    (hasFileChanged : option (string → string → bool))
    (toBlocks : string → string → list (string * string) → list block)
    (root : result (list Dirent)) (folder : Folder) :
  readMarkdownFiles shouldIgnorePath pathFilter hasFileChanged toBlocks root
    = Ok (Some folder) →
  name folder = "."
  ∧ (∀ sub, sub ∈ foldersOf folder → filesOf sub ≠ [])
  ∧ Forall (changeKnown hasFileChanged) (filesOf folder).
Proof.
  unfold readMarkdownFiles, walk. destruct root as [entries|e]; [|done].
  destruct (eachEntry _ _ _ _ _ entries _) as [filled|e] eqn:Hentries; [|done].
  apply eachEntry_filling in Hentries as [Hfilled Hname].
  - unfold unlessEmpty. case_bool_decide as Hsome; [|done].
    intros [= <-]. split; [done|]. by apply filling_solid.
  - apply Forall_forall. intros entry _. apply visit_filling.
  - by split; constructor.
Qed.

(** X14 on a directory that holds a markdown file, a text file, an
    empty directory and a directory with one markdown file. *)
Lemma readMarkdownFiles_no_empty_folder_witness :
  let root :=
    Ok [RegularFile "readme.md" (Ok "# Readme");
        RegularFile "notes.txt" (Ok "notes");
        Directory "empty" (Ok [RegularFile "todo.txt" (Ok "")]);
        Directory "guide" (Ok [RegularFile "intro.md" (Ok "# Intro")])] in
  ∃ folder,
    readMarkdownFiles (λ _, false) (λ _, true) None (λ _ _ _, []) root
      = Ok (Some folder)
    ∧ fileName <$> files folder = ["readme"]
    ∧ name <$> subfolders folder = ["guide"]
    ∧ ∀ sub, sub ∈ foldersOf folder → filesOf sub ≠ [].
Proof.
  intros root. eexists. split; [reflexivity|].
  split; [reflexivity|]. split; [reflexivity|].
  eapply (readMarkdownFiles_no_empty_folder (λ _, false) (λ _, true) None
            (λ _ _ _, []) root).
  reflexivity.
Defined.

(** ** The counters of [collectCurrentFiles] *)

Lemma awaited_delete tasks i t :
  tasks !! i = Some t →
  awaited tasks = (awaited [t] + awaited (delete i tasks))%nat.
Proof.
  intros Hi. unfold awaited. rewrite delete_take_drop.
  rewrite <- (take_drop_middle _ _ _ Hi) at 1.
  rewrite !sum_list_with_app. simpl. lia.
Qed.

Lemma awaited_insert tasks i t t' :
  tasks !! i = Some t →
  awaited (<[i:=t']> tasks) = (awaited [t'] + awaited (delete i tasks))%nat.
Proof.
  intros Hi. unfold awaited.
  rewrite delete_take_drop, insert_take_drop by (by eapply lookup_lt_Some).
  rewrite !sum_list_with_app. simpl. lia.
Qed.

Section CrawlCounters.
Variable notion : Client.
Variable rootPageId : string.
Variables parallelLimit requestDelay maxRetryAttempts : Z.
Variable maxDepth : option Z.

(** A call of [processPageParallel] for a child page that was counted
    as discovered. *)
Lemma accounted_spawn s childId newParentTitle depth :
  0 ≤ Collect.processedCount s →
  Collect.processedCount s + Z.of_nat (length (Collect.pendingTasks s))
    = Z.of_nat (length (Collect.started s)) →
  Z.of_nat (length (Collect.started s))
    + Z.of_nat (awaited (Collect.pendingTasks s)) + 1
    ≤ Collect.discoveredCount s →
  accounted (Collect.processPageParallel maxDepth childId newParentTitle
               depth s).
Proof.
  intros Hpos Hcount Hfound. unfold Collect.processPageParallel, accounted.
  destruct (bool_decide _ || Collect.tooDeep maxDepth depth); simpl.
  - lia.
  - unfold awaited in *. rewrite !length_app, sum_list_with_app. simpl. lia.
Qed.

Lemma accounted_settle s i t es failure :
  accounted s → Collect.pendingTasks s !! i = Some t →
  accounted (Collect.settle i es failure s).
Proof.
  intros (Hpos & Hcount & Hfound) Hi. unfold accounted. simpl.
  rewrite length_delete by eauto.
  pose proof (lookup_lt_Some _ _ _ Hi) as Hlt.
  pose proof (awaited_delete _ _ _ Hi) as Hawaited. lia.
Qed.

Lemma accounted_afterFetch s i pageId parentTitle depth :
  accounted s →
  Collect.pendingTasks s !! i
    = Some (Collect.Fetching pageId parentTitle depth) →
  accounted (Collect.afterFetch notion rootPageId maxRetryAttempts i pageId
               parentTitle depth s).
Proof.
  intros Hacc Hi. unfold Collect.afterFetch.
  destruct (Collect.fetchPage notion maxRetryAttempts pageId (Collect.past s))
    as [es [[pageResponse childrenResponse]|e]];
    [|by eapply (accounted_settle _ i)].
  destruct (negb (bool_decide (object pageResponse = "page")));
    [by eapply (accounted_settle _ i)|].
  destruct (getPageTitle pageResponse) as [pageTitle|e];
    [|by eapply (accounted_settle _ i)].
  destruct Hacc as (Hpos & Hcount & Hfound). unfold accounted. simpl.
  rewrite length_insert, (awaited_insert _ _ _ _ Hi).
  pose proof (awaited_delete _ _ _ Hi) as Hawaited.
  unfold awaited in *. simpl in *. lia.
Qed.

Lemma accounted_dispatch s s' i newParentTitle depth childId rest :
  accounted s →
  Collect.pendingTasks s !! i
    = Some (Collect.Dispatching newParentTitle depth (childId :: rest)) →
  Collect.dispatch parallelLimit requestDelay maxDepth i newParentTitle depth
    childId rest s = Some s' →
  accounted s'.
Proof.
  intros (Hpos & Hcount & Hfound) Hi. unfold Collect.dispatch.
  case_bool_decide; [done|]. intros [= <-].
  apply accounted_spawn; simpl.
  - done.
  - by rewrite length_insert.
  - rewrite (awaited_insert _ _ _ _ Hi).
    pose proof (awaited_delete _ _ _ Hi) as Hawaited.
    unfold awaited in *. simpl in *. lia.
Qed.

Lemma accounted_step s s' m :
  accounted s →
  Collect.step notion rootPageId parallelLimit requestDelay maxRetryAttempts
    maxDepth m s = Some s' →
  accounted s'.
Proof.
  intros Hacc. destruct m as [i|i]; simpl.
  - destruct (Collect.pendingTasks s !! i)
      as [[pageId parentTitle depth|npt depth [|childId rest]]|] eqn:Hi;
      [| | |done].
    + intros [= <-]. by apply accounted_afterFetch.
    + intros [= <-]. by eapply accounted_settle.
    + by eapply accounted_dispatch.
  - destruct (Collect.pendingTasks s !! i)
      as [[pageId parentTitle depth|npt depth [|childId rest]]|] eqn:Hi;
      try done.
    destruct (Collect.rejected s); [|done].
    intros [= <-]. by eapply accounted_settle.
Qed.

Lemma accounted_run schedule : ∀ s s',
  accounted s →
  Collect.run notion rootPageId parallelLimit requestDelay maxRetryAttempts
    maxDepth schedule s = Some s' →
  accounted s'.
Proof.
  induction schedule as [|m schedule IH]; intros s s' Hacc; simpl.
  - by intros [= <-].
  - destruct (Collect.step _ _ _ _ _ _ m s) as [s1|] eqn:Hstep; [|done].
    simpl. apply IH. by eapply accounted_step.
Qed.

Lemma accounted_start : accounted (Collect.start rootPageId maxDepth).
Proof. by apply accounted_spawn. Qed.
End CrawlCounters.

(** X15.  In every state the crawl reaches, [processedCount] counts
    the calls of [processPageParallel] that passed the guard and have
    settled, and it never exceeds [discoveredCount]: the
    [Math.max(discoveredCount, processedCount)] handed to the progress
    callback is [discoveredCount].  When no task is pending any more,
    [processedCount] is the number of pages visited. *)
Theorem collectCurrentFiles_counters (notion : Client) (rootPageId : string)
    (parallelLimit requestDelay maxRetryAttempts : Z) (maxDepth : option Z)
    (schedule : list Collect.move) (s : Collect.state) :
  Collect.run notion rootPageId parallelLimit requestDelay maxRetryAttempts
    maxDepth schedule (Collect.start rootPageId maxDepth) = Some s →
  Collect.processedCount s + Z.of_nat (length (Collect.pendingTasks s))
    = Z.of_nat (length (Collect.started s))
  ∧ 0 ≤ Collect.processedCount s ≤ Collect.discoveredCount s
  ∧ Z.max (Collect.discoveredCount s) (Collect.processedCount s)
    = Collect.discoveredCount s
  ∧ (Collect.pendingTasks s = [] →
     Collect.processedCount s = Z.of_nat (size (Collect.processedIds s))).
Proof.
  intros Hrun.
  pose proof (accounted_run _ _ _ _ _ _ _ _ _
                (accounted_start rootPageId maxDepth) Hrun)
    as (Hpos & Hcount & Hfound).
  split; [done|]. split; [lia|]. split; [lia|].
  intros Hidle. rewrite Hidle in Hcount. simpl in Hcount.
  pose proof (invariant_run _ _ _ _ _ _ _ _ _
                (invariant_start notion rootPageId maxDepth) Hrun)
    as [_ Hp Ho _ _ _ _ _ _].
  assert (Collect.processedIds s = list_to_set (Collect.started s).*1) as ->.
  { apply set_eq. intros pageId. by rewrite Hp, elem_of_list_to_set. }
  rewrite size_list_to_set by done. rewrite length_fmap. lia.
Qed.

(** X15 on the two pages that list each other: both are counted once
    and two pages were discovered. *)
Lemma collectCurrentFiles_counters_witness :
  ∃ s,
    Collect.run cyclicClient "r" 25 50 3 None
      (replicate 6 (Collect.Resume 0)) (Collect.start "r" None) = Some s
    ∧ Collect.pendingTasks s = []
    ∧ Collect.processedCount s = 2
    ∧ Collect.discoveredCount s = 3
    ∧ Collect.processedCount s = Z.of_nat (size (Collect.processedIds s)).
Proof.
  destruct (Collect.run cyclicClient "r" 25 50 3 None
              (replicate 6 (Collect.Resume 0)) (Collect.start "r" None))
    as [s|] eqn:Hrun; [|by vm_compute in Hrun].
  exists s. split; [done|].
  pose proof (collectCurrentFiles_counters cyclicClient "r" 25 50 3 None _ _
                Hrun) as (_ & _ & _ & Hidle).
  vm_compute in Hrun. injection Hrun as <-.
  split; [reflexivity|]. split; [reflexivity|]. split; [reflexivity|].
  by apply Hidle.
Defined.

(** ** The requests of a retried call *)

Lemma retryLoop_trace {A} (r : request) (answer : history → result A)
    maxAttempts initialDelay iters : ∀ (a : nat) lastError h,
  Z.of_nat a ≤ maxAttempts →
  (Z.to_nat (maxAttempts + 1 - Z.of_nat a) ≤ iters)%nat →
  ∃ n : nat,
    Z.of_nat a + Z.of_nat n ≤ maxAttempts
    ∧ (retryLoop (notionCall r answer) maxAttempts initialDelay iters
         (Z.of_nat a) lastError h).1
      = Call r ::
        flat_map (λ attempt : nat,
                    [Sleep (initialDelay * 2 ^ (Z.of_nat attempt - 1)); Call r])
                 (seq a n).
Proof.
  induction iters as [|iters IH]; intros a lastError h Ha Hfuel; [lia|].
  rewrite retryLoop_step by done. unfold notionCall at 1.
  destruct (answer h) as [x|e].
  { exists O. split; [lia|done]. }
  destruct (bool_decide (Z.of_nat a = maxAttempts) || negb (isRateLimit e))
    eqn:Hstop.
  { exists O. split; [lia|done]. }
  apply orb_false_iff in Hstop as [Hlast%bool_decide_eq_false _].
  destruct (IH (S a) (Some e)
              ((h ++ [Call r])
               ++ [Sleep (initialDelay * 2 ^ (Z.of_nat a - 1))]))
    as (n & Hn & Htrace); [lia|lia|].
  replace (Z.of_nat (S a)) with (Z.of_nat a + 1) in Htrace by lia.
  simpl. destruct (retryLoop _ _ _ _ _ _ _) as [es' r']. simpl in *.
  exists (S n). split; [lia|]. by rewrite Htrace.
Qed.

(** X16.  Whatever the remote side answers, a client call under
    [retryWithBackoff] is issued at most [maxAttempts] times, and the
    trace of the run is these calls with the pause
    [initialDelay * 2 ^ (attempt - 1)] after each one but the last:
    nothing else is ever emitted, and no pause follows the last call. *)
Theorem retryWithBackoff_bounded {A} (r : request)
    (answer : history → result A) (maxAttempts initialDelay : Z)
    (h : history) :
  ∃ n : nat,
    (retryWithBackoff (notionCall r answer) maxAttempts initialDelay h).1
    = backoffTrace r initialDelay n
    ∧ Z.of_nat n ≤ Z.max maxAttempts 0
    ∧ (1 ≤ maxAttempts → (1 ≤ n)%nat).
Proof.
  destruct (decide (1 ≤ maxAttempts)) as [Hmax|Hmax].
  - destruct (retryLoop_trace r answer maxAttempts initialDelay
                (Z.to_nat maxAttempts) 1 None h) as (n & Hn & Htrace);
      [lia|lia|].
    exists (S n). split; [exact Htrace|]. split; lia.
  - exists O. unfold retryWithBackoff.
    replace (Z.to_nat maxAttempts) with O by lia.
    split; [done|]. split; lia.
Qed.

(** ** The phases of [syncToNotion] *)

Lemma filter_none {A} (P : A → Prop) `{∀ x, Decision (P x)} (l : list A) :
  Forall (λ x, ¬ P x) l → filter P l = [].
Proof.
  induction 1 as [|x l Hx _ IH]; [done|].
  by rewrite filter_cons_False.
Qed.

Lemma syncPages_saves (notion : Client) (maxRetryAttempts : Z)
    (mergeBlocks : list block → list block → list edit)
    (linkUrlMap : list (string * string))
    (pages : list (string * MarkdownFileData)) : ∀ h es r,
  syncPages notion maxRetryAttempts mergeBlocks linkUrlMap true pages h
    = (es, r) →
  ∃ saved,
    saved `prefix_of` filter (λ page, hasChanged page.2 ≠ Some false) pages
    ∧ filter (λ ev, isStateSave ev = true) es
      = (λ page, SaveFileState (fileName page.2)) <$> saved
    ∧ (r = Ok tt →
       saved = filter (λ page, hasChanged page.2 ≠ Some false) pages).
Proof.
  induction pages as [|[pageId file] pages IH]; intros h es r Hrun.
  { injection Hrun as <- <-. exists []. by repeat split. }
  unfold syncPages in *. cbn [forEach] in Hrun.
  rewrite filter_cons. unfold mbind at 1, async_bind at 1 in Hrun.
  case_bool_decide as Hsame.
  - cbn [mret async_ret app] in Hrun.
    rewrite decide_False by (simpl; tauto).
    destruct (forEach _ pages (h ++ [])) as [es' r'] eqn:Hrest.
    injection Hrun as <- <-. by apply (IH (h ++ [])).
  - rewrite decide_True by done.
    unfold mbind at 1, async_bind at 1 in Hrun.
    pose proof (emits_updateBlocks notion maxRetryAttempts
                  (λ ev, ¬ isStateSave ev = true) mergeBlocks pageId
                  (getContent file linkUrlMap)
                  ltac:(done) ltac:(done) ltac:(done) ltac:(done) h)
      as Hquiet.
    destruct (updateBlocks _ _ _ _ _ h) as [es1 [[]|e]]; simpl in Hquiet.
    2:{ injection Hrun as <- <-. exists [].
        rewrite (filter_none _ _ Hquiet).
        split; [apply prefix_nil|]. by split. }
    unfold emit in Hrun. cbn [app] in Hrun.
    destruct (forEach _ pages _) as [es' r'] eqn:Hrest.
    injection Hrun as <- <-.
    apply IH in Hrest as (saved & Hprefix & Hsaved & Hall).
    exists ((pageId, file) :: saved).
    split; [by apply prefix_cons|].
    rewrite !filter_app, (filter_none _ _ Hquiet), filter_cons_True by done.
    rewrite filter_nil. simpl. rewrite Hsaved.
    split; [done|]. intros Hok. by rewrite Hall.
Qed.

(** Where an event that the first part of a list cannot hold lies in
    the list. *)
Lemma app_cons_split {A} (P : A → Prop) (l1 : list A) x l2 : ∀ before y after,
  Forall (λ a, ¬ P a) l1 → P y →
  l1 ++ x :: l2 = before ++ y :: after →
  (before = l1 ∧ x = y ∧ after = l2)
  ∨ ∃ between, before = l1 ++ x :: between ∧ l2 = between ++ y :: after.
Proof.
  induction l1 as [|a l1 IH]; intros before y after Hl1 Hy Heq.
  - destruct before as [|b before]; simpl in Heq.
    + injection Heq as -> ->. by left.
    + injection Heq as -> ->. right. by eauto.
  - apply Forall_cons in Hl1 as [Ha Hl1].
    destruct before as [|b before]; simpl in Heq.
    + injection Heq as -> _. done.
    + injection Heq as -> Heq.
      destruct (IH before y after Hl1 Hy Heq)
        as [(-> & -> & ->)|(between & -> & ->)]; [by left|].
      right. by eauto.
Qed.

(** Every state save of the loop comes right after a completed update
    of the page of its file. *)
Lemma syncPages_save_follows (notion : Client) (maxRetryAttempts : Z)
    (mergeBlocks : list block → list block → list edit)
    (linkUrlMap : list (string * string))
    (pages : list (string * MarkdownFileData)) : ∀ h es r,
  syncPages notion maxRetryAttempts mergeBlocks linkUrlMap true pages h
    = (es, r) →
  ∀ before savedName after,
    es = before ++ SaveFileState savedName :: after →
    ∃ pageId file earlier update,
      (pageId, file) ∈ pages
      ∧ fileName file = savedName
      ∧ hasChanged file ≠ Some false
      ∧ before = earlier ++ update
      ∧ updateBlocks notion maxRetryAttempts mergeBlocks pageId
          (getContent file linkUrlMap) (h ++ earlier) = (update, Ok tt).
Proof.
  induction pages as [|[pageId file] pages IH];
    intros h es r Hrun before savedName after Hes.
  { injection Hrun as <- <-. by destruct before. }
  unfold syncPages in *. cbn [forEach] in Hrun.
  unfold mbind at 1, async_bind at 1 in Hrun.
  case_bool_decide as Hsame.
  - cbn [mret async_ret app] in Hrun.
    destruct (forEach _ pages (h ++ [])) as [es' r'] eqn:Hrest.
    injection Hrun as <- <-. rewrite app_nil_r in Hrest.
    destruct (IH h es' r' Hrest before savedName after Hes)
      as (pageId' & file' & earlier & update & Hin & Hrest').
    exists pageId', file', earlier, update. split; [by right|done].
  - unfold mbind at 1, async_bind at 1 in Hrun.
    pose proof (emits_updateBlocks notion maxRetryAttempts
                  (λ ev, ¬ isStateSave ev = true) mergeBlocks pageId
                  (getContent file linkUrlMap)
                  ltac:(done) ltac:(done) ltac:(done) ltac:(done) h)
      as Hquiet.
    destruct (updateBlocks _ _ _ _ _ h) as [es1 [[]|e]] eqn:Hupdate;
      simpl in Hquiet.
    2:{ injection Hrun as <- <-. subst es1.
        apply Forall_app in Hquiet as [_ Hquiet].
        apply Forall_cons in Hquiet as [Hquiet _]. by destruct Hquiet. }
    unfold emit in Hrun. cbn [app] in Hrun.
    destruct (forEach _ pages _) as [es' r'] eqn:Hrest.
    injection Hrun as <- <-.
    rewrite <- app_assoc in Hes. cbn [app] in Hes.
    apply (app_cons_split (λ ev, isStateSave ev = true)) in Hes
      as [(-> & [= <-] & ->)|(between & -> & ->)]; [| |done..].
    + exists pageId, file, [], es1.
      rewrite app_nil_r. split; [by left|done].
    + destruct (IH _ _ _ Hrest between savedName after eq_refl)
        as (pageId' & file' & earlier & update & Hin & Hname & Hchanged
            & -> & Hupdate').
      exists pageId', file', (es1 ++ SaveFileState (fileName file) :: earlier),
        update.
      split; [by right|]. split; [done|]. split; [done|]. split.
      * by rewrite <- app_assoc.
      * rewrite <- Hupdate'. f_equal. rewrite <- !app_assoc. done.
Qed.

(** X17.  With a [syncStateManager], the loop of [syncToNotion] over
    the pages saves the state of a file right after the update of its
    page has completed, and never otherwise.  Every [SaveFileState]
    of a run, which stands for the call of [saveFileState] with the path
    joined from the name of the file and [".md"], directly follows the
    events of an [updateBlocks] of the page of that file that has
    returned; and the states saved in a run are those of the files not
    marked unchanged, in the order of [pages], up to the first update
    that fails: all of them when the loop completes. *)
Theorem syncPages_saves_updated (notion : Client) (maxRetryAttempts : Z)
    (mergeBlocks : list block → list block → list edit)
    (linkUrlMap : list (string * string))
    (pages : list (string * MarkdownFileData)) (h : history) :
  let run :=
    syncPages notion maxRetryAttempts mergeBlocks linkUrlMap true pages h in
  let updated :=
    filter (λ page, hasChanged page.2 ≠ Some false) pages in
  (∃ saved,
     saved `prefix_of` updated
     ∧ filter (λ ev, isStateSave ev = true) run.1
       = (λ page, SaveFileState (fileName page.2)) <$> saved
     ∧ (run.2 = Ok tt → saved = updated))
  ∧ ∀ before savedName after,
      run.1 = before ++ SaveFileState savedName :: after →
      ∃ pageId file earlier update,
        (pageId, file) ∈ pages
        ∧ fileName file = savedName
        ∧ hasChanged file ≠ Some false
        ∧ before = earlier ++ update
        ∧ updateBlocks notion maxRetryAttempts mergeBlocks pageId
            (getContent file linkUrlMap) (h ++ earlier) = (update, Ok tt).
Proof.
  intros run updated. split.
  - apply (syncPages_saves notion maxRetryAttempts mergeBlocks linkUrlMap
             pages h).
    unfold run. by destruct (syncPages _ _ _ _ _ _ _).
  - apply (syncPages_save_follows notion maxRetryAttempts mergeBlocks
             linkUrlMap pages h run.1 run.2).
    unfold run. by destruct (syncPages _ _ _ _ _ _ _).
Qed.

(** A run over two files, the second update failing at its first
    deletion: the state of the first file is saved after its update,
    that of the second is not. *)
Lemma syncPages_saves_updated_example :
  let notion :=
    {| pages_retrieve := pages_retrieve settledClient;
       pages_create := pages_create settledClient;
       pages_update_archived := pages_update_archived settledClient;
       blocks_children_list := blocks_children_list settledClient;
       blocks_children_append := blocks_children_append settledClient;
       blocks_delete := λ _ _, Throw (Error (Some 500) "down");
       existing_blocks := existing_blocks settledClient |} in
  let file (title text : string) :=
    {| fileName := title;
       getContent := λ _, [Block None "paragraph" text None];
       hasChanged := Some true |} in
  syncPages notion 3 mergeBlocks [] true
    [("p1", file "one" "text"); ("p2", file "two" "new")] []
  = ([GetExistingBlocks "p1"; SaveFileState "one"; GetExistingBlocks "p2";
      Call (BlocksChildrenAppend "p2"
              [Block None "paragraph" "new" None;
               Block None "paragraph" "text" None] (Some "block of p2"));
      Call (BlocksDelete (Some "block of p2"))],
     Throw (Error (Some 500) "down")).
Proof. vm_compute. reflexivity. Qed.

Lemma bind_events {A B} (m : async A) (k : A → async B) h :
  ((m ≫= k) h).1
  = (m h).1 ++ match (m h).2 with
               | Ok a => (k a (h ++ (m h).1)).1
               | Throw _ => []
               end.
Proof.
  unfold mbind, async_bind. destruct (m h) as [es [a|e]]; simpl.
  - by destruct (k a (h ++ es)).
  - by rewrite app_nil_r.
Qed.

(** X18.  A run of [syncToNotion] works in three phases that do not
    overlap: first the pages of the folders and files are created,
    then the blocks of the pages are updated and the state is saved,
    then the orphans are archived.  No page is created once the first
    page has been read for its update, and nothing but archive calls
    and their pauses follows the first archive call. *)
Theorem syncToNotion_phases (notion : Client) (maxRetryAttempts : Z)
    (mergeBlocks : list block → list block → list edit)
    (pageId : string) (dir : Folder) (linkMap : PageIndex)
    (deleteNonExistentFiles syncStateManager : bool) (h : history) :
  ∃ creating updating archiving,
    (syncToNotion notion maxRetryAttempts mergeBlocks pageId dir linkMap
       deleteNonExistentFiles syncStateManager h).1
    = creating ++ updating ++ archiving
    ∧ Forall (λ ev, (∃ ms, ev = Sleep ms) ∨ isCreateCall ev = true) creating
    ∧ Forall (λ ev, isCreateCall ev = false ∧ isArchiveCall ev = false)
        updating
    ∧ Forall (λ ev, (∃ ms, ev = Sleep ms) ∨ isArchiveCall ev = true)
        archiving.
Proof.
  unfold syncToNotion. rewrite bind_events.
  assert (Forall (λ ev, (∃ ms, ev = Sleep ms) ∨ isCreateCall ev = true)
            (syncFolder notion maxRetryAttempts (name dir) dir pageId "."
               false
               {| linkMapOf := linkMap; pagesOf := [];
                  folderPageIdsOf := ∅ |} h).1) as Hcreating.
  { apply emits_syncFolder; intros; [left; by eauto|by right]. }
  destruct (syncFolder _ _ _ _ _ _ _ _ h) as [es1 [st|e]];
    simpl in Hcreating |- *.
  2:{ exists es1, [], []. rewrite !app_nil_r. by repeat split. }
  rewrite bind_events.
  assert (Forall (λ ev, isCreateCall ev = false ∧ isArchiveCall ev = false)
            (syncPages notion maxRetryAttempts mergeBlocks
               ((λ '(key, value), (key, link value)) <$> linkMapOf st)
               syncStateManager (pagesOf st) (h ++ es1)).1) as Hupdating.
  { by apply emits_syncPages. }
  destruct (syncPages _ _ _ _ _ _ (h ++ es1)) as [es2 [[]|e]];
    simpl in Hupdating |- *.
  2:{ exists es1, es2, []. rewrite !app_nil_r. by repeat split. }
  rewrite bind_events.
  set (saving := (if syncStateManager then emit SavePendingChanges
                  else mret tt) ((h ++ es1) ++ es2)).
  assert (Forall (λ ev, isCreateCall ev = false ∧ isArchiveCall ev = false)
            saving.1 ∧ saving.2 = Ok tt) as [Hsaving ->].
  { unfold saving. destruct syncStateManager; simpl; by repeat constructor. }
  rewrite bind_events.
  set (archival :=
         (if deleteNonExistentFiles
          then archiveOrphans notion pageId
                 (list_to_set (pagesOf st).*1 ∪ folderPageIdsOf st)
                 (sortByKeyLength (linkMapOf st)) ∅;; mret tt
          else mret tt) (((h ++ es1) ++ es2) ++ saving.1)).
  assert (Forall (λ ev, (∃ ms, ev = Sleep ms) ∨ isArchiveCall ev = true)
            archival.1) as Harchiving.
  { unfold archival. destruct deleteNonExistentFiles; [|constructor].
    apply emits_bind; [|intros; apply emits_ret].
    apply emits_archiveOrphans; [by eauto|]. intros entry _ _. by right. }
  exists es1, (es2 ++ saving.1), archival.1.
  split.
  { rewrite <- !app_assoc. do 3 f_equal.
    destruct (archival.2); simpl; by rewrite ?app_nil_r. }
  split; [done|]. split; [|done]. by apply Forall_app.
Qed.

(** ** [processInParallel] *)

Lemma length_processingOf {T} (executing : list (nat * T * Parallel.phase)) :
  (length (processingOf executing) ≤ length executing)%nat.
Proof.
  induction executing as [|[[index item] [|]] l IH]; simpl; lia.
Qed.

Section QueueProperties.
Context {T R : Type}.
Variable processor : T → async (option R).
Variables limit requestDelay : Z.

Abbreviation loop' := (Parallel.loop (R:=R) limit requestDelay).
Abbreviation step' := (Parallel.step processor limit requestDelay).
Abbreviation run' := (Parallel.run processor limit requestDelay).
Abbreviation start' := (Parallel.start (R:=R) limit requestDelay).
Abbreviation executing' s := (Z.of_nat (length (Parallel.executing s))).

(** The loop stops on an await with no more promises executing than the
    limit allows. *)
Lemma loop_within items : ∀ s : Parallel.state T R,
  executing' s + 1 ≤ Z.max limit 1 →
  executing' (loop' items s) ≤ Z.max limit 1
  ∧ Parallel.main (loop' items s) ≠ Parallel.Resumed.
Proof.
  induction items as [|[index [item|]] items IH]; intros s Hroom; simpl.
  - split; [lia|done].
  - case_bool_decide as Hfull; simpl.
    + rewrite length_app. simpl. split; [lia|done].
    + apply IH. simpl. rewrite length_app in *. simpl in *. lia.
  - by apply IH.
Qed.

Lemma step_within m (s s' : Parallel.state T R) :
  executing' s ≤ Z.max limit 1 →
  (Parallel.main s = Parallel.Resumed → executing' s + 1 ≤ Z.max limit 1) →
  step' m s = Some s' →
  executing' s' ≤ Z.max limit 1
  ∧ (Parallel.main s' = Parallel.Resumed → executing' s' + 1 ≤ Z.max limit 1).
Proof.
  intros Hwithin Hroom. destruct m as [j|j|]; simpl.
  - destruct (Parallel.executing s !! j) as [[[index item] [|]]|]; try done.
    intros [= <-]. simpl. by rewrite length_insert.
  - destruct (Parallel.executing s !! j) as [[[index item] [|]]|] eqn:Hj;
      try done.
    destruct (processor item (Parallel.past s)) as [es outcome].
    intros [= <-]. simpl. rewrite length_delete by eauto.
    apply lookup_lt_Some in Hj. lia.
  - destruct (Parallel.main s) eqn:Hmain; try done.
    + intros [= <-]. destruct (loop_within (Parallel.todo s) s (Hroom eq_refl)).
      split; [done|]. by intros ?.
    + destruct (Parallel.executing s); [|done]. intros [= <-]. simpl.
      split; [lia|done].
Qed.

Lemma run_within schedule : ∀ s s' : Parallel.state T R,
  executing' s ≤ Z.max limit 1 →
  (Parallel.main s = Parallel.Resumed → executing' s + 1 ≤ Z.max limit 1) →
  run' schedule s = Some s' →
  executing' s' ≤ Z.max limit 1.
Proof.
  induction schedule as [|m schedule IH]; intros s s' Hwithin Hroom; simpl.
  - by intros [= <-].
  - destruct (step' m s) as [s1|] eqn:Hstep; [|done]. simpl.
    destruct (step_within _ _ _ Hwithin Hroom Hstep). by apply IH.
Qed.
End QueueProperties.

(** X19.  [processInParallel] keeps to its limit: in every state a
    call reaches, under every schedule of its promises, whether
    processors succeed or fail, no more than [limit] promises are
    executing (one, when [limit] is below 1), so no more than that
    many processors run at the same time. *)
Theorem processInParallel_within_limit {T R : Type}
    (processor : T → async (option R)) (limit requestDelay : Z)
    (items : list (option T)) (schedule : list Parallel.move)
    (s : Parallel.state T R) :
  Parallel.run processor limit requestDelay schedule
    (Parallel.start limit requestDelay items) = Some s →
  Z.of_nat (length (Parallel.executing s)) ≤ Z.max limit 1
  ∧ Z.of_nat (length (processingOf (Parallel.executing s))) ≤ Z.max limit 1.
Proof.
  intros Hrun.
  assert (Z.of_nat (length (Parallel.executing s)) ≤ Z.max limit 1) as Hwithin.
  { destruct (loop_within (R:=R) limit requestDelay
                (imap (λ index item, (index, item)) items)
                {| Parallel.todo := []; Parallel.executing := [];
                   Parallel.results := replicate (length items) None;
                   Parallel.main := Parallel.Resumed; Parallel.past := [];
                   Parallel.begun := []; Parallel.fulfilled := [];
                   Parallel.failed := [] |}) as [Hstart Hawait];
      [simpl; lia|].
    eapply run_within; [exact Hstart|by intros ?|exact Hrun]. }
  split; [done|].
  pose proof (length_processingOf (Parallel.executing s)). lia.
Qed.

Lemma elem_of_definedOf {T} (items : list (option T)) index :
  index ∈ definedOf (imap (λ index item, (index, item)) items)
  ↔ ∃ item, items !! index = Some (Some item).
Proof.
  unfold definedOf. rewrite list_elem_of_omap. split.
  - intros ([i [item|]] & Hin & Hsome); simpl in Hsome; [|done].
    injection Hsome as ->.
    apply elem_of_lookup_imap in Hin as (i' & x & Heq & Hi).
    injection Heq as <- <-. eauto.
  - intros [item Hi]. exists (index, Some item). split; [|done].
    apply elem_of_lookup_imap. eauto.
Qed.

Lemma NoDup_definedOf {T} (items : list (option T)) :
  NoDup (definedOf (imap (λ index item, (index, item)) items)).
Proof.
  assert (∀ k, sublist
                 (definedOf (imap (λ index item, (k + index, item))%nat items))
                 (seq k (length items))) as Hsub.
  { induction items as [|[item|] items IH]; intros k; [done| |].
    - rewrite imap_cons. simpl. rewrite Nat.add_0_r.
      apply sublist_skip.
      erewrite imap_ext; [apply (IH (S k))|]. intros; simpl; f_equal; lia.
    - rewrite imap_cons. simpl. apply sublist_cons.
      erewrite imap_ext; [apply (IH (S k))|]. intros; simpl; f_equal; lia. }
  eapply sublist_NoDup; [apply (NoDup_seq 0 (length items))|].
  apply (Hsub O).
Qed.

Lemma executing_delete {T} (executing : list (nat * T * Parallel.phase))
    j index item at_ :
  executing !! j = Some (index, item, at_) →
  executing.*1.*1 ≡ₚ index :: (delete j executing).*1.*1
  ∧ processingOf executing
    ≡ₚ (if at_ is Parallel.Processing then [index] else [])
       ++ processingOf (delete j executing).
Proof.
  intros Hj. rewrite delete_take_drop.
  pose proof (take_drop_middle _ _ _ Hj) as Hsplit.
  remember (take j executing) as before eqn:Hbefore.
  remember (drop (S j) executing) as after eqn:Hafter.
  clear Hbefore Hafter Hj. subst executing.
  unfold processingOf. rewrite !fmap_app, !omap_app, !fmap_cons. simpl.
  split; [solve_Permutation|]. destruct at_; simpl; solve_Permutation.
Qed.

Lemma executing_wake {T} (executing : list (nat * T * Parallel.phase))
    j index item :
  executing !! j = Some (index, item, Parallel.Sleeping) →
  (<[j := (index, item, Parallel.Processing)]> executing).*1.*1
  = executing.*1.*1
  ∧ processingOf (<[j := (index, item, Parallel.Processing)]> executing)
    ≡ₚ index :: processingOf executing.
Proof.
  intros Hj. rewrite insert_take_drop by (by eapply lookup_lt_Some).
  pose proof (take_drop_middle _ _ _ Hj) as Hsplit.
  remember (take j executing) as before eqn:Hbefore.
  remember (drop (S j) executing) as after eqn:Hafter.
  clear Hbefore Hafter Hj. subst executing.
  unfold processingOf. rewrite !fmap_app, !omap_app, !fmap_cons. simpl.
  split; [done|]. solve_Permutation.
Qed.

Section QueuePlacement.
Context {T R : Type}.
Variable processor : T → async (option R).
Variables limit requestDelay : Z.
Variable items : list (option T).

Abbreviation placed' := (placed (R:=R) items).
Abbreviation defined := (definedOf (imap (λ index item, (index, item)) items)).

(** The loop leaves every item in place. *)
Lemma placed_loop todo : ∀ s : Parallel.state T R,
  defined ≡ₚ definedOf todo ++ (Parallel.executing s).*1.*1
             ++ Parallel.fulfilled s ++ Parallel.failed s →
  Parallel.begun s
    ≡ₚ processingOf (Parallel.executing s)
       ++ Parallel.fulfilled s ++ Parallel.failed s →
  (∀ index result, Parallel.results s !! index = Some (Some result) →
     index ∈ Parallel.fulfilled s) →
  placed' (Parallel.loop limit requestDelay todo s).
Proof.
  induction todo as [|[index [item|]] todo IH];
    intros s Hitems Hbegun Hresults; simpl.
  - by split.
  - assert (defined
            ≡ₚ definedOf todo
               ++ (Parallel.executing s
                   ++ [(index, item,
                        if bool_decide (0 < requestDelay)
                           && bool_decide (0 < length (Parallel.executing s))%nat
                        then Parallel.Sleeping else Parallel.Processing)]).*1.*1
               ++ Parallel.fulfilled s ++ Parallel.failed s) as Hitems'.
    { rewrite Hitems, !fmap_app. simpl. solve_Permutation. }
    assert ((if bool_decide (0 < requestDelay)
                && bool_decide (0 < length (Parallel.executing s))%nat
             then Parallel.begun s else Parallel.begun s ++ [index])
            ≡ₚ processingOf
                 (Parallel.executing s
                  ++ [(index, item,
                       if bool_decide (0 < requestDelay)
                          && bool_decide (0 < length (Parallel.executing s))%nat
                       then Parallel.Sleeping else Parallel.Processing)])
               ++ Parallel.fulfilled s ++ Parallel.failed s) as Hbegun'.
    { unfold processingOf. rewrite omap_app. fold (processingOf (Parallel.executing s)).
      destruct (bool_decide (0 < requestDelay) && _); simpl; rewrite Hbegun;
        solve_Permutation. }
    match goal with
    | |- context [bool_decide (limit ≤ ?size)] =>
      destruct (bool_decide (limit ≤ size))
    end.
    + by split.
    + by apply IH.
  - by apply IH.
Qed.

Lemma placed_step m (s s' : Parallel.state T R) :
  placed' s → Parallel.step processor limit requestDelay m s = Some s' →
  placed' s'.
Proof.
  intros [Hitems Hbegun Hresults Hjoining Hreturned].
  destruct m as [j|j|]; simpl.
  - destruct (Parallel.executing s !! j) as [[[index item] [|]]|] eqn:Hj;
      try done.
    intros [= <-].
    destruct (executing_wake _ _ _ _ Hj) as [Hsame Hwoken].
    split; simpl; try done.
    + by rewrite Hsame.
    + rewrite Hwoken, Hbegun. solve_Permutation.
    + intros rs Hmain. destruct (Hreturned rs Hmain) as (_ & Hnone & _).
      by rewrite Hnone in Hj.
  - destruct (Parallel.executing s !! j) as [[[index item] [|]]|] eqn:Hj;
      try done.
    destruct (processor item (Parallel.past s)) as [es outcome].
    intros [= <-].
    destruct (executing_delete _ _ _ _ _ Hj) as [Hgone Hdone].
    simpl in Hdone.
    split; simpl.
    + rewrite Hitems, Hgone. destruct outcome; solve_Permutation.
    + rewrite Hbegun, Hdone. destruct outcome; solve_Permutation.
    + intros idx result. destruct outcome as [stored|e]; [|apply Hresults].
      destruct (decide (idx = index)) as [->|Hne].
      * intros _. apply elem_of_app. right. by left.
      * rewrite list_lookup_insert_ne by done. intros Hidx.
        apply elem_of_app. left. by eapply Hresults.
    + destruct outcome, (Parallel.main s); try done; by auto.
    + intros rs Hmain. destruct (Hreturned rs) as (_ & Hnone & _).
      * by destruct outcome, (Parallel.main s).
      * by rewrite Hnone in Hj.
  - destruct (Parallel.main s) eqn:Hmain; try done.
    + intros [= <-]. apply placed_loop; [|done..].
      by rewrite Hitems.
    + destruct (Parallel.executing s) eqn:Hnone; [|done]. intros [= <-].
      split; simpl; try done.
      intros rs [= <-]. split; [by apply Hjoining|done].
Qed.

Lemma placed_run schedule : ∀ s s' : Parallel.state T R,
  placed' s → Parallel.run processor limit requestDelay schedule s = Some s' →
  placed' s'.
Proof.
  induction schedule as [|m schedule IH]; intros s s' Hplaced; simpl.
  - by intros [= <-].
  - destruct (Parallel.step _ _ _ m s) as [s1|] eqn:Hstep; [|done]. simpl.
    apply IH. by eapply placed_step.
Qed.

Lemma placed_start : placed' (Parallel.start limit requestDelay items).
Proof.
  apply placed_loop; simpl.
  - by rewrite app_nil_r.
  - done.
  - intros index result [Hnone _]%lookup_replicate. done.
Qed.
End QueuePlacement.

(** X20.  Under every schedule of its promises, [processInParallel]
    calls the processor at most once per item, and only for items that
    are not [undefined].  When it returns, every such item has had its
    processor called and settled, and what is returned are the results
    stored for fulfilled promises that are not [undefined], in the
    order of the items. *)
Theorem processInParallel_each_once {T R : Type}
    (processor : T → async (option R)) (limit requestDelay : Z)
    (items : list (option T)) (schedule : list Parallel.move)
    (s : Parallel.state T R) :
  Parallel.run processor limit requestDelay schedule
    (Parallel.start limit requestDelay items) = Some s →
  NoDup (Parallel.begun s)
  ∧ (∀ index, index ∈ Parallel.begun s →
       ∃ item, items !! index = Some (Some item))
  ∧ (∀ index result,
       Parallel.results s !! index = Some (Some result) →
       index ∈ Parallel.fulfilled s ∧ index ∈ Parallel.begun s)
  ∧ ∀ rs,
      Parallel.main s = Parallel.Returned rs →
      rs = omap (λ result, result) (Parallel.results s)
      ∧ ∀ index item,
          items !! index = Some (Some item) →
          index ∈ Parallel.begun s
          ∧ (index ∈ Parallel.fulfilled s ∨ index ∈ Parallel.failed s).
Proof.
  intros Hrun.
  pose proof (placed_run processor limit requestDelay items schedule _ _
                (placed_start limit requestDelay items) Hrun)
    as [Hitems Hbegun Hresults Hjoining Hreturned].
  pose proof (NoDup_definedOf items) as Hnodup.
  rewrite Hitems in Hnodup.
  apply NoDup_app in Hnodup as (_ & _ & Hnodup).
  assert (sublist
            (processingOf (Parallel.executing s) ++ Parallel.fulfilled s
             ++ Parallel.failed s)
            ((Parallel.executing s).*1.*1 ++ Parallel.fulfilled s
             ++ Parallel.failed s)) as Hsub.
  { apply sublist_app; [|done]. unfold processingOf.
    generalize (Parallel.executing s). intros l.
    induction l as [|[[index item] [|]] l IH]; simpl;
      [done|by apply sublist_cons|by apply sublist_skip]. }
  split; [rewrite Hbegun; by eapply sublist_NoDup|]. split; [|split].
  - intros index Hin. apply elem_of_definedOf. rewrite Hitems.
    apply elem_of_app. right. rewrite Hbegun in Hin.
    by apply (sublist_subseteq _ _ Hsub).
  - intros index result Hstored.
    pose proof (Hresults _ _ Hstored) as Hfulfilled. split; [done|].
    rewrite Hbegun. apply elem_of_app. right. apply elem_of_app. by left.
  - intros rs Hmain. destruct (Hreturned rs Hmain) as (Htodo & Hnone & ->).
    split; [done|]. intros index item Hitem.
    assert (index ∈ definedOf (imap (λ index item, (index, item)) items))
      as Hdefined by (apply elem_of_definedOf; eauto).
    rewrite Hitems, Htodo, Hnone in Hdefined. simpl in Hdefined.
    split.
    + rewrite Hbegun, Hnone. done.
    + by apply elem_of_app.
Qed.

(** X19 on three items and an [undefined] one with a limit of two: the
    third promise is made once the first has settled, and the results
    come back in the order of the items. *)
Lemma processInParallel_within_limit_witness :
  let processor (item : string) : async (option string) :=
    notionCall (BlocksChildrenList item) (λ _, Ok (Some ("children of " +:+ item))) in
  let schedule :=
    [Parallel.Finish 0; Parallel.Continue; Parallel.Wake 0;
     Parallel.Wake 1; Parallel.Finish 1; Parallel.Finish 0;
     Parallel.Continue; Parallel.Continue] in
  ∃ s,
    Parallel.run processor 2 50 schedule
      (Parallel.start 2 50 [Some "a"; Some "b"; None; Some "c"]) = Some s
    ∧ Parallel.main s
      = Parallel.Returned ["children of a"; "children of b"; "children of c"]
    ∧ Parallel.fulfilled s = [0; 3; 1]%nat
    ∧ Z.of_nat (length (Parallel.executing s)) ≤ Z.max 2 1.
Proof.
  intros processor schedule.
  destruct (Parallel.run processor 2 50 schedule
              (Parallel.start 2 50 [Some "a"; Some "b"; None; Some "c"]))
    as [s|] eqn:Hrun; [|by vm_compute in Hrun].
  exists s. split; [done|].
  pose proof (processInParallel_within_limit processor 2 50 _ _ _ Hrun)
    as [Hwithin _].
  vm_compute in Hrun. injection Hrun as <-.
  split; [reflexivity|]. split; [reflexivity|]. exact Hwithin.
Defined.

(** X20 on the same items with a processor that fails on the second:
    each processor called so far was called once. *)
Lemma processInParallel_each_once_witness :
  let processor (item : string) : async (option string) :=
    notionCall (BlocksChildrenList item)
      (λ _, if bool_decide (item = "b") then Throw (Error (Some 500) "broken")
            else Ok (Some ("children of " +:+ item))) in
  let schedule :=
    [Parallel.Finish 0; Parallel.Wake 0; Parallel.Finish 0] in
  ∃ s,
    Parallel.run processor 2 50 schedule
      (Parallel.start 2 50 [Some "a"; Some "b"; None; Some "c"]) = Some s
    ∧ Parallel.main s = Parallel.Resumed
    ∧ Parallel.begun s = [0; 1]%nat
    ∧ Parallel.failed s = [1%nat]
    ∧ NoDup (Parallel.begun s).
Proof.
  intros processor schedule.
  destruct (Parallel.run processor 2 50 schedule
              (Parallel.start 2 50 [Some "a"; Some "b"; None; Some "c"]))
    as [s|] eqn:Hrun; [|by vm_compute in Hrun].
  exists s. split; [done|].
  pose proof (processInParallel_each_once processor 2 50 _ _ _ Hrun)
    as [Honce _].
  vm_compute in Hrun. injection Hrun as <-.
  split; [reflexivity|]. split; [reflexivity|]. split; [reflexivity|].
  exact Honce.
Defined.

Lemma loop_sleeping {T R} (limit requestDelay : Z) (xs : list T) :
  ∀ (k : nat) (s : Parallel.state T R),
    0 < requestDelay →
    (0 < length (Parallel.executing s))%nat →
    Z.of_nat (length (Parallel.executing s) + length xs) < limit →
    Parallel.loop limit requestDelay
      (imap (λ index item, (k + index, Some item))%nat xs) s
    = {| Parallel.todo := [];
         Parallel.executing :=
           Parallel.executing s
           ++ imap (λ index item, (k + index, item, Parallel.Sleeping))%nat xs;
         Parallel.results := Parallel.results s;
         Parallel.main := Parallel.Joining;
         Parallel.past :=
           Parallel.past s ++ replicate (length xs) (Sleep requestDelay);
         Parallel.begun := Parallel.begun s;
         Parallel.fulfilled := Parallel.fulfilled s;
         Parallel.failed := Parallel.failed s |}.
Proof.
  induction xs as [|x xs IH]; intros k s Hdelay Hsome Hroom.
  - simpl. by rewrite !app_nil_r.
  - rewrite !imap_cons. cbn [Parallel.loop].
    rewrite (bool_decide_eq_true_2 (0 < requestDelay)) by done.
    rewrite (bool_decide_eq_true_2 (0 < length _)%nat) by done.
    cbn [andb]. rewrite bool_decide_eq_false_2
      by (rewrite length_app; simpl in *; lia).
    erewrite (imap_ext _ (λ index item, (S k + index, Some item))%nat);
      [|intros; simpl; do 2 f_equal; lia].
    rewrite (IH (S k)); cbn [Parallel.executing];
      [|done|rewrite length_app; simpl; lia
       |rewrite length_app; simpl in *; lia].
    simpl. f_equal.
    + rewrite <- app_assoc, Nat.add_0_r. simpl. do 2 f_equal.
      apply imap_ext. intros; simpl; do 2 f_equal; lia.
    + by rewrite <- app_assoc.
Qed.

(** X21.  The pauses of [processInParallel] do not space the
    processors out: when [requestDelay > 0] and the limit is above the
    number of items, the call makes all its promises before it awaits;
    the first calls the processor at once and each of the others starts
    a sleep of [requestDelay] at that same moment, so that all of them
    are due together. *)
Theorem processInParallel_sleeps_together {T R : Type}
    (limit requestDelay : Z) (x : T) (xs : list T) :
  0 < requestDelay →
  Z.of_nat (S (length xs)) < limit →
  Parallel.start (R:=R) limit requestDelay (Some <$> x :: xs)
  = {| Parallel.todo := [];
       Parallel.executing :=
         (0%nat, x, Parallel.Processing)
         :: imap (λ index item, (S index, item, Parallel.Sleeping)) xs;
       Parallel.results := replicate (S (length xs)) None;
       Parallel.main := Parallel.Joining;
       Parallel.past := replicate (length xs) (Sleep requestDelay);
       Parallel.begun := [0%nat];
       Parallel.fulfilled := [];
       Parallel.failed := [] |}.
Proof.
  intros Hdelay Hroom. unfold Parallel.start.
  rewrite fmap_cons, imap_cons, length_cons, length_fmap.
  cbn [Parallel.loop Parallel.executing length].
  rewrite (bool_decide_eq_false_2 (0 < 0)%nat) by lia.
  rewrite andb_false_r. rewrite bool_decide_eq_false_2 by (simpl; lia).
  rewrite imap_fmap.
  erewrite (imap_ext _ (λ index item, (1 + index, Some item))%nat);
    [|done].
  rewrite loop_sleeping; simpl; [done|done|lia|lia].
Qed.

(** X21 on three items with the default delay and a limit of eight. *)
Lemma processInParallel_sleeps_together_witness :
  0 < 50 ∧ Z.of_nat 3 < 8
  ∧ Parallel.executing
      (Parallel.start (R:=unit) 8 50 [Some "a"; Some "b"; Some "c"])
    = [(0%nat, "a", Parallel.Processing); (1%nat, "b", Parallel.Sleeping);
       (2%nat, "c", Parallel.Sleeping)]
  ∧ Parallel.past
      (Parallel.start (R:=unit) 8 50 [Some "a"; Some "b"; Some "c"])
    = [Sleep 50; Sleep 50].
Proof.
  split; [lia|]. split; [simpl; lia|].
  change [Some "a"; Some "b"; Some "c"] with (Some <$> "a" :: ["b"; "c"]).
  rewrite (processInParallel_sleeps_together (R:=unit) 8 50 "a" ["b"; "c"])
    by (simpl; lia).
  split; reflexivity.
Defined.

(** ** The cost of retries and of the crawl *)

Lemma pauses_app es1 es2 : pauses (es1 ++ es2) = pauses es1 + pauses es2.
Proof.
  induction es1 as [|ev es1 IH]; simpl; [done|].
  destruct ev; rewrite ?IH; lia.
Qed.

Lemma pauses_backoff (r : request) (initialDelay : Z) (n : nat) :
  pauses
    (flat_map (λ attempt : nat,
                 [Sleep (initialDelay * 2 ^ (Z.of_nat attempt - 1)); Call r])
              (seq 1 n))
  = initialDelay * (2 ^ Z.of_nat n - 1).
Proof.
  induction n as [|n IH]; [simpl; lia|].
  rewrite seq_S, flat_map_app, pauses_app, IH. simpl.
  replace (Z.of_nat (S n) - 1) with (Z.of_nat n) by lia.
  replace (Z.of_nat (S n)) with (Z.succ (Z.of_nat n)) by lia.
  rewrite Z.pow_succ_r by lia. lia.
Qed.

(** X22.  A client call under [retryWithBackoff] never pauses longer
    than [initialDelay * (2 ^ (maxAttempts - 1) - 1)] in all, whatever
    the remote side answers: 3 seconds with the defaults. *)
Theorem retryWithBackoff_total_pause {A} (r : request)
    (answer : history → result A) (maxAttempts initialDelay : Z)
    (h : history) :
  0 ≤ initialDelay → 1 ≤ maxAttempts →
  0 ≤ pauses
        (retryWithBackoff (notionCall r answer) maxAttempts initialDelay h).1
    ≤ initialDelay * (2 ^ (maxAttempts - 1) - 1).
Proof.
  intros Hdelay Hmax.
  destruct (retryLoop_trace r answer maxAttempts initialDelay
              (Z.to_nat maxAttempts) 1 None h) as (n & Hn & Htrace);
    [lia|lia|].
  unfold retryWithBackoff. change (Z.of_nat 1) with 1 in Htrace.
  rewrite Htrace. cbn [pauses foldr]. fold (pauses
    (flat_map (λ attempt : nat,
                 [Sleep (initialDelay * 2 ^ (Z.of_nat attempt - 1)); Call r])
              (seq 1 n))).
  rewrite pauses_backoff.
  assert (1 ≤ 2 ^ Z.of_nat n ≤ 2 ^ (maxAttempts - 1)) as Hpow.
  { split; [apply (Z.pow_le_mono_r 2 0); lia|].
    apply Z.pow_le_mono_r; lia. }
  split; [apply Z.mul_nonneg_nonneg; lia|].
  apply Z.mul_le_mono_nonneg_l; lia.
Qed.

(** X22 with the defaults, at a remote side that is always busy: the
    bound of 3 seconds is reached. *)
Lemma retryWithBackoff_total_pause_witness :
  let busy : async unit :=
    notionCall (PagesRetrieve "p") (λ _, Throw (Error (Some 429) "busy")) in
  0 ≤ INITIAL_RETRY_DELAY ∧ 1 ≤ MAX_RETRY_ATTEMPTS
  ∧ 0 ≤ pauses
          (retryWithBackoff busy MAX_RETRY_ATTEMPTS INITIAL_RETRY_DELAY []).1
      ≤ INITIAL_RETRY_DELAY * (2 ^ (MAX_RETRY_ATTEMPTS - 1) - 1)
  ∧ pauses
      (retryWithBackoff busy MAX_RETRY_ATTEMPTS INITIAL_RETRY_DELAY []).1
    = 3000.
Proof.
  intros busy. split; [done|]. split; [done|]. split; [|reflexivity].
  by apply (retryWithBackoff_total_pause (A:=unit)).
Defined.

Section CrawlRequests.
Variable notion : Client.
Variable rootPageId : string.
Variables parallelLimit requestDelay maxRetryAttempts : Z.
Variable maxDepth : option Z.
Hypothesis one_attempt : 1 ≤ maxRetryAttempts.
Hypothesis retrieve_not_limited :
  ∀ h pageId e,
    pages_retrieve notion h pageId = Throw e → isRateLimit e = false.
Hypothesis list_not_limited :
  ∀ h pageId e,
    blocks_children_list notion h pageId = Throw e → isRateLimit e = false.

Abbreviation requestsOf fetched :=
  (flat_map (λ visit : string * Z,
               [Call (PagesRetrieve visit.1);
                Call (BlocksChildrenList visit.1)]) fetched).
Abbreviation requested s :=
  (filter (λ ev, isRequest ev = true) (Collect.past s)
   = requestsOf (Collect.fetched s)).

Lemma fetchPage_two_requests pageId h :
  (Collect.fetchPage notion maxRetryAttempts pageId h).1
  = [Call (PagesRetrieve pageId); Call (BlocksChildrenList pageId)].
Proof.
  unfold Collect.fetchPage.
  assert (∀ {A} (r : request) (answer : history → result A) h',
            (∀ e, answer h' = Throw e → isRateLimit e = false) →
            (retryWithBackoff (notionCall r answer) maxRetryAttempts
               INITIAL_RETRY_DELAY h').1 = [Call r]) as Honce.
  { intros A r answer h' Hplain. destruct (answer h') as [a|e] eqn:Hanswer.
    - by rewrite (retryWithBackoff_answered _ _ _ _ _ a).
    - by rewrite (retryWithBackoff_refused _ _ _ _ _ e) by auto. }
  pose proof (Honce _ (PagesRetrieve pageId)
                (λ h, pages_retrieve notion h pageId) h
                (retrieve_not_limited h pageId)) as Hfirst.
  destruct (retryWithBackoff _ _ _ h) as [es1 r1]. simpl in Hfirst. subst es1.
  pose proof (Honce _ (BlocksChildrenList pageId)
                (λ h, blocks_children_list notion h pageId)
                (h ++ [Call (PagesRetrieve pageId)])
                (list_not_limited _ pageId)) as Hsecond.
  destruct (retryWithBackoff _ _ _ (h ++ _)) as [es2 r2]. simpl in Hsecond.
  by subst es2.
Qed.

Lemma requested_step m s s' :
  requested s →
  Collect.step notion rootPageId parallelLimit requestDelay maxRetryAttempts
    maxDepth m s = Some s' →
  requested s'.
Proof.
  intros Hreq.
  assert (∀ i failure, requested (Collect.settle i [] failure s)) as Hsettle.
  { intros i failure. simpl. by rewrite app_nil_r. }
  destruct m as [i|i]; simpl.
  - destruct (Collect.pendingTasks s !! i)
      as [[pageId parentTitle depth|npt depth [|childId rest]]|];
      [| | |done].
    + intros [= <-]. unfold Collect.afterFetch.
      pose proof (fetchPage_two_requests pageId (Collect.past s)) as Hes.
      destruct (Collect.fetchPage _ _ _ _) as [es r]. simpl in Hes. subst es.
      assert (filter (λ ev, isRequest ev = true)
                (Collect.past s
                 ++ [Call (PagesRetrieve pageId);
                     Call (BlocksChildrenList pageId)])
              = requestsOf (Collect.fetched s ++ [(pageId, depth)])) as Hnew.
      { rewrite filter_app, flat_map_app. f_equal. exact Hreq. }
      destruct r as [[pageResponse childrenResponse]|e]; [|exact Hnew].
      destruct (negb _); [exact Hnew|].
      destruct (getPageTitle pageResponse); exact Hnew.
    + intros [= <-]. apply Hsettle.
    + unfold Collect.dispatch. case_bool_decide; [done|]. intros [= <-].
      unfold Collect.processPageParallel.
      assert (filter (λ ev, isRequest ev = true)
                (Collect.past s
                 ++ (if bool_decide (0 < requestDelay)
                     then [Sleep requestDelay] else []))
              = requestsOf (Collect.fetched s)) as Hslept.
      { rewrite filter_app. rewrite <- (app_nil_r (requestsOf _)).
        f_equal; [exact Hreq|]. by case_bool_decide. }
      by destruct (bool_decide _ || _).
  - destruct (Collect.pendingTasks s !! i)
      as [[pageId parentTitle depth|npt depth [|childId rest]]|]; try done.
    destruct (Collect.rejected s); [|done]. intros [= <-]. apply Hsettle.
Qed.
Lemma requested_run schedule : ∀ s s',
  requested s →
  Collect.run notion rootPageId parallelLimit requestDelay maxRetryAttempts
    maxDepth schedule s = Some s' →
  requested s'.
Proof.
  induction schedule as [|m schedule IH]; intros s s' Hreq; simpl.
  - by intros [= <-].
  - destruct (Collect.step _ _ _ _ _ _ m s) as [s1|] eqn:Hstep; [|done].
    simpl. apply IH. by eapply requested_step.
Qed.

Lemma requested_start : requested (Collect.start rootPageId maxDepth).
Proof. unfold Collect.start, Collect.processPageParallel. by case_match. Qed.
End CrawlRequests.

Lemma length_requestsOf (fetched : list (string * Z)) :
  length (flat_map (λ visit : string * Z,
                      [Call (PagesRetrieve visit.1);
                       Call (BlocksChildrenList visit.1)]) fetched)
  = (2 * length fetched)%nat.
Proof. induction fetched as [|visit fetched IH]; simpl; lia. Qed.

Lemma flat_map_fmap {A B C} (f : B → list C) (g : A → B) (l : list A) :
  flat_map f (g <$> l) = flat_map (λ x, f (g x)) l.
Proof.
  induction l as [|x l IH]; [done|].
  rewrite fmap_cons. cbn [flat_map]. by rewrite IH.
Qed.

(** X23.  When the remote side never answers a retrieval or a listing
    with a rate limit, a crawl that has come to rest with no task
    pending has sent, in some order, exactly one retrieval and one
    listing for each page it visited and no other request: two requests
    per page, however the pages refer to each other. *)
Theorem collectCurrentFiles_two_requests (notion : Client)
    (rootPageId : string)
    (parallelLimit requestDelay maxRetryAttempts : Z) (maxDepth : option Z)
    (schedule : list Collect.move) (s : Collect.state) :
  1 ≤ maxRetryAttempts →
  (∀ h pageId e,
     pages_retrieve notion h pageId = Throw e → isRateLimit e = false) →
  (∀ h pageId e,
     blocks_children_list notion h pageId = Throw e →
     isRateLimit e = false) →
  Collect.run notion rootPageId parallelLimit requestDelay maxRetryAttempts
    maxDepth schedule (Collect.start rootPageId maxDepth) = Some s →
  Collect.pendingTasks s = [] →
  filter (λ ev, isRequest ev = true) (Collect.past s)
  ≡ₚ flat_map (λ pageId,
                 [Call (PagesRetrieve pageId);
                  Call (BlocksChildrenList pageId)])
       (elements (Collect.processedIds s))
  ∧ length (filter (λ ev, isRequest ev = true) (Collect.past s))
    = (2 * size (Collect.processedIds s))%nat.
Proof.
  intros Hone Hretrieve Hlist Hrun Hidle.
  pose proof (requested_run notion rootPageId parallelLimit requestDelay
                maxRetryAttempts maxDepth Hone Hretrieve Hlist _ _ _
                (requested_start rootPageId maxDepth) Hrun) as Hreq.
  pose proof (invariant_run _ _ _ _ _ _ _ _ _
                (invariant_start notion rootPageId maxDepth) Hrun)
    as [_ Hp Ho Hf _ _ _ _ _].
  rewrite Hidle in Hf. simpl in Hf. rewrite app_nil_r in Hf.
  assert (Collect.processedIds s = list_to_set (Collect.started s).*1)
    as Hvisited.
  { apply set_eq. intros pageId. by rewrite Hp, elem_of_list_to_set. }
  split.
  - rewrite Hreq, Hvisited, <- Hf.
    rewrite (elements_list_to_set _ Ho), flat_map_fmap. done.
  - rewrite Hreq, length_requestsOf, Hvisited.
    rewrite size_list_to_set by done. by rewrite length_fmap, Hf.
Qed.

(** X23 on the two pages that list each other: four requests, two for
    each page. *)
Lemma collectCurrentFiles_two_requests_witness :
  ∃ s,
    Collect.run cyclicClient "r" 25 50 3 None
      (replicate 6 (Collect.Resume 0)) (Collect.start "r" None) = Some s
    ∧ Collect.pendingTasks s = []
    ∧ size (Collect.processedIds s) = 2%nat
    ∧ length (filter (λ ev, isRequest ev = true) (Collect.past s)) = 4%nat.
Proof.
  destruct (Collect.run cyclicClient "r" 25 50 3 None
              (replicate 6 (Collect.Resume 0)) (Collect.start "r" None))
    as [s|] eqn:Hrun; [|by vm_compute in Hrun].
  exists s. split; [done|].
  assert (Collect.pendingTasks s = []) as Hidle.
  { vm_compute in Hrun. by injection Hrun as <-. }
  pose proof (collectCurrentFiles_two_requests cyclicClient "r" 25 50 3 None
                _ _ ltac:(done) ltac:(done) ltac:(done) Hrun Hidle)
    as [_ Hcount].
  split; [done|]. rewrite Hcount.
  vm_compute in Hrun. injection Hrun as <-. split; reflexivity.
Defined.

(** ** A refused chunk *)

(** A loop whose turn [k] throws after the turns before it each were
    one accepted event. *)
Lemma forEach_stops {A} (body : A → async unit) (ev : A → event) (k : nat) :
  ∀ (l : list A) (x : A) (e : error) (h : history),
    l !! k = Some x →
    (∀ j y, (j < k)%nat → l !! j = Some y →
       body y (h ++ (ev <$> take j l)) = ([ev y], Ok tt)) →
    body x (h ++ (ev <$> take k l)) = ([ev x], Throw e) →
    forEach body l h = (ev <$> take (S k) l, Throw e).
Proof.
  induction k as [|k IH]; intros [|y l] x e h Hk Hbefore Hat; try done.
  - simpl in Hk. injection Hk as ->. simpl in Hat. rewrite app_nil_r in Hat.
    simpl. unfold mbind, async_bind. by rewrite Hat.
  - simpl in Hk.
    pose proof (Hbefore 0%nat y ltac:(lia) eq_refl) as Hfirst.
    simpl in Hfirst. rewrite app_nil_r in Hfirst.
    cbn [forEach]. unfold mbind, async_bind. rewrite Hfirst.
    rewrite (IH l x e (h ++ [ev y]) Hk).
    + done.
    + intros j y' Hj Hy'. rewrite <- app_assoc.
      apply (Hbefore (S j) y'); [lia|done].
    + by rewrite <- app_assoc.
Qed.

(** X24.  When the blocks nest no deeper than 3, the remote side
    accepts the appends of the first [k] chunks and refuses the next
    one for another reason than a rate limit, [appendBlocksInChunks]
    throws that error after [k + 1] append calls: the later chunks are
    never sent, and nothing is sent to take back the first [k] chunks,
    which hold the first [k * 100] blocks. *)
Theorem appendBlocksInChunks_stops (notion : Client) (maxRetryAttempts : Z)
    (pageId : string) (blocks : list block) (afterId : option string)
    (h : history) (k : nat) (refused : list block) (e : error) :
  let anchor := if truthy afterId then afterId else None in
  let chunks :=
    (λ i, slice i (i + NOTION_BLOCK_LIMIT) blocks)
      <$> chunkStarts (length blocks) in
  let calls :=
    (λ chunk, Call (BlocksChildrenAppend pageId chunk anchor)) <$> chunks in
  1 ≤ maxRetryAttempts →
  findMaxDepth (Some blocks) 0 ≤ 3 →
  (∀ j chunk, (j < k)%nat → chunks !! j = Some chunk →
     ∃ ids, blocks_children_append notion (h ++ take j calls) pageId chunk
              anchor = Ok ids) →
  chunks !! k = Some refused →
  blocks_children_append notion (h ++ take k calls) pageId refused anchor
  = Throw e →
  isRateLimit e = false →
  appendBlocksInChunks notion maxRetryAttempts pageId blocks afterId h
  = (take (S k) calls, Throw e)
  ∧ concat (take k chunks) = take (k * NOTION_BLOCK_LIMIT) blocks.
Proof.
  intros anchor chunks calls Hmax Hflat Haccepts Hk Hrefused Hrate. split.
  - rewrite appendBlocksInChunks_unfold.
    rewrite bool_decide_eq_false_2 by lia.
    unfold calls, chunks in *. rewrite <- list_fmap_compose in *.
    rewrite list_lookup_fmap in Hk.
    destruct (chunkStarts (length blocks) !! k) as [i|] eqn:Hi; [|done].
    simpl in Hk. injection Hk as <-.
    rewrite <- fmap_take.
    apply (forEach_stops _ _ k _ i e); [done| |].
    + intros j i' Hj Hi'. unfold appendChunk.
      rewrite detachedChildren_none, chunkOf_whole.
      unfold mbind, async_bind.
      destruct (Haccepts j (slice i' (i' + NOTION_BLOCK_LIMIT) blocks) Hj)
        as [ids Hids].
      { by rewrite list_lookup_fmap, Hi'. }
      rewrite <- fmap_take in Hids.
      by rewrite (retryWithBackoff_answered _ _ _ _ _ ids Hmax Hids).
    + unfold appendChunk. rewrite detachedChildren_none, chunkOf_whole.
      unfold mbind, async_bind. rewrite <- fmap_take in Hrefused.
      by rewrite (retryWithBackoff_refused _ _ _ _ _ e Hmax Hrefused Hrate).
  - unfold chunks in *. rewrite chunkStarts_eq in *.
    apply lookup_lt_Some in Hk. rewrite !length_fmap, length_seq in Hk.
    rewrite <- !fmap_take, take_seq, Nat.min_l by lia.
    apply concat_slices.
Qed.

(** X24 on 250 paragraphs and a remote side that is down after the
    first append: two calls, the third chunk is never sent. *)
Lemma appendBlocksInChunks_stops_witness :
  let blocks := replicate 250 (Block None "paragraph" "text" None) in
  1 ≤ 3
  ∧ findMaxDepth (Some blocks) 0 ≤ 3
  ∧ appendBlocksInChunks downAfterFirst 3 "page" blocks None []
    = ([Call (BlocksChildrenAppend "page" (take 100 blocks) None);
        Call (BlocksChildrenAppend "page" (take 100 blocks) None)],
       Throw (Error (Some 500) "Internal Server Error")).
Proof.
  intros blocks.
  assert (findMaxDepth (Some blocks) 0 ≤ 3) as Hflat by (by vm_compute).
  split; [lia|]. split; [exact Hflat|].
  destruct (appendBlocksInChunks_stops downAfterFirst 3 "page" blocks None []
              1 (take 100 blocks)
              (Error (Some 500) "Internal Server Error")
              ltac:(lia) Hflat) as [-> _].
  - intros [|j] chunk Hj Hchunk; [|lia]. simpl. eauto.
  - by vm_compute.
  - by vm_compute.
  - reflexivity.
  - vm_compute. reflexivity.
Defined.
